(** * LUMEN v0.1: tokenizer, parser and compiler of [lumen.js]

    A shallow embedding of the pipeline  Source -> Tokens -> AST -> CSS + HTML
    and the properties of it that the specification states.

    Conventions of the embedding.
    - Source text, names and values are [string]s of 8-bit characters, the
      characters of JavaScript below 256; white space, as [trim] and [\s]
      see it, is then the white space of ASCII and the no-break space.
    - A plain JavaScript object used as a table ([KEYWORDS], [materialMap],
      [aMap], [jMap], the declaration objects) inherits the members of
      [Object.prototype]; a lookup by a computed key sees them, and an
      assignment to the key [__proto__] runs the inherited setter.  Both are
      written out ([objectProtoNames], [setProp], [mmSet], [mmGet]).
    - Declaration objects are association lists in insertion order, the order
      in which an object lists the keys that are no array indices; property
      names and CSS names are such keys, and what is stated on the order of
      keys is stated for them.
    - The call stack has room for a number [depth] of nested calls of the
      functions that call themselves: [parseSurface] for a surface inside a
      surface, [compileSurface] for a child, [resolveMaterialNode] for a
      material that a material refers to. The call that finds no room
      throws the [RangeError] of the engine; the calls that do not nest are
      taken to fit.
    - [_idCounter] is an [N]; the counter stays in the range where the
      increment of a JavaScript number is exact.
    - An exception is a result [Throw e]; the closures of [parse] that share
      the cursor [pos] take and return the tokens that remain. *)

From Stdlib Require Import Ascii String ZArith NArith List Lia.
From stdpp Require Import base option list strings gmap pretty.

Local Open Scope stdpp_scope.

(** ** Characters and strings *)

Module Chars.

Definition LF : ascii := "010"%char.
Definition CR : ascii := "013"%char.
Definition TAB : ascii := "009"%char.
Definition DQUOTE : ascii := "034"%char.
Definition NBSP : ascii := "160"%char.

Definition inRange (lo hi c : ascii) : bool :=
  (N_of_ascii lo <=? N_of_ascii c)%N && (N_of_ascii c <=? N_of_ascii hi)%N.

Definition isLetter (c : ascii) : bool := inRange "a" "z" c || inRange "A" "Z" c.
Definition isDigit (c : ascii) : bool := inRange "0" "9" c.

(** [/[a-zA-Z_]/] *)
Definition isIdentStart (c : ascii) : bool := isLetter c || Ascii.eqb c "_".
(** [/[a-zA-Z0-9_-]/], which is also [[\w-]] *)
Definition isIdentChar (c : ascii) : bool :=
  isLetter c || isDigit c || Ascii.eqb c "_" || Ascii.eqb c "-".

Definition isNewline (c : ascii) : bool := Ascii.eqb c LF || Ascii.eqb c CR.
Definition isBlank (c : ascii) : bool := Ascii.eqb c " " || Ascii.eqb c TAB.
(** white space and line terminators, as [trim] and [\s] see them: of the
    characters below 256, the six of ASCII and the no-break space *)
Definition isSpace (c : ascii) : bool := Ascii.is_space c || Ascii.eqb c NBSP.

End Chars.
Import Chars.

Module Str.

Fixpoint takeWhile (p : ascii → bool) (s : string) : string :=
  match s with
  | String c r => if p c then String c (takeWhile p r) else ""
  | "" => ""
  end.

Fixpoint dropWhile (p : ascii → bool) (s : string) : string :=
  match s with
  | String c r => if p c then dropWhile p r else s
  | "" => ""
  end.

Fixpoint drop (n : nat) (s : string) : string :=
  match n, s with
  | S k, String _ r => drop k r
  | _, _ => s
  end.

Fixpoint take (n : nat) (s : string) : string :=
  match n, s with
  | S k, String c r => String c (take k r)
  | _, _ => ""
  end.

(** [s.slice(a, b)] for [0 <= a <= b] *)
Definition slice (a b : nat) (s : string) : string := take (b - a) (drop a s).

Fixpoint all (p : ascii → bool) (s : string) : bool :=
  match s with
  | String c r => p c && all p r
  | "" => true
  end.

Definition nonEmpty (s : string) : bool :=
  match s with "" => false | _ => true end.

Definition trimLeft (s : string) : string := dropWhile isSpace s.

Fixpoint trimRight (s : string) : string :=
  match s with
  | String c r =>
      match trimRight r with
      | "" => if isSpace c then "" else String c ""
      | r' => String c r'
      end
  | "" => ""
  end.

Definition trim (s : string) : string := trimRight (trimLeft s).

(** [arr.join(sep)] on strings *)
Fixpoint join (sep : string) (l : list string) : string :=
  match l with
  | [] => ""
  | [x] => x
  | x :: r => x +:+ sep +:+ join sep r
  end.

(** [s.replace(c, '')]: the first occurrence only *)
Fixpoint removeFirst (c : ascii) (s : string) : string :=
  match s with
  | String d r => if Ascii.eqb d c then r else String d (removeFirst c r)
  | "" => ""
  end.

(** ['"' + s + '"'] *)
Definition quote (s : string) : string :=
  String DQUOTE s +:+ String DQUOTE "".

(** [s.split('').map(f).join('')] *)
Fixpoint flatMap (f : ascii → string) (s : string) : string :=
  match s with
  | String c r => f c +:+ flatMap f r
  | "" => ""
  end.

End Str.

(** The own property names of [Object.prototype]: what a lookup in a plain
    object finds for a key the object does not define. All are truthy. *)
Definition objectProtoNames : list string :=
  [ "constructor"; "__defineGetter__"; "__defineSetter__"; "hasOwnProperty";
    "__lookupGetter__"; "__lookupSetter__"; "isPrototypeOf";
    "propertyIsEnumerable"; "toString"; "valueOf"; "__proto__";
    "toLocaleString" ].

Definition isObjectProtoName (s : string) : bool :=
  bool_decide (s ∈ objectProtoNames).

(** ** Section 1: tokenizer *)

(** The token types [TT.KEYWORD], ..., [TT.EOF]. *)
Module TT.
Inductive t :=
  KEYWORD | IDENT | STRING | COLON | LBRACE | RBRACE | VALUE | NEWLINE | EOF.

Global Instance eq_dec : EqDecision t.
Proof. solve_decision. Defined.

(** the string a type is, as the parse errors print it *)
Definition name (ty : t) : string :=
  match ty with
  | KEYWORD => "KEYWORD" | IDENT => "IDENT" | STRING => "STRING"
  | COLON => "COLON" | LBRACE => "LBRACE" | RBRACE => "RBRACE"
  | VALUE => "VALUE" | NEWLINE => "NEWLINE" | EOF => "EOF"
  end.
End TT.

(** [{ type: ..., value: ... }]: the tokens [tokenize] pushes. The four
    types with text carry their [value]; the others have none. *)
Inductive Token :=
  | KEYWORD (v : string) | IDENT (v : string) | STRING (v : string)
  | COLON | LBRACE | RBRACE
  | VALUE (v : string) | NEWLINE | EOF.

Global Instance Token_eq_dec : EqDecision Token.
Proof. solve_decision. Defined.

Definition type (tok : Token) : TT.t :=
  match tok with
  | KEYWORD _ => TT.KEYWORD | IDENT _ => TT.IDENT | STRING _ => TT.STRING
  | COLON => TT.COLON | LBRACE => TT.LBRACE | RBRACE => TT.RBRACE
  | VALUE _ => TT.VALUE | NEWLINE => TT.NEWLINE | EOF => TT.EOF
  end.

(** [tok.value]; [None] is [undefined] *)
Definition tvalue (tok : Token) : option string :=
  match tok with
  | KEYWORD v | IDENT v | STRING v | VALUE v => Some v
  | _ => None
  end.

(** [KEYWORDS[word]] is truthy: [KEYWORDS] is a plain object *)
Definition isKeyword (word : string) : bool :=
  bool_decide (word ∈ ["surface"; "material"; "text"]) || isObjectProtoName word.

Module Lexer.

(** the scan of a VALUE: up to a line break or the start of [//] *)
Fixpoint readValue (s : string) : string :=
  match s with
  | String c r =>
      if isNewline c then ""
      else match c, r with
           | "/"%char, String "/"%char _ => ""
           | _, _ => String c (readValue r)
           end
  | "" => ""
  end.

(** the body of a block comment: the characters up to and with [*/] *)
Fixpoint blockCommentLength (s : string) : nat :=
  match s with
  | String "*"%char (String "/"%char _) => 2
  | String _ r => S (blockCommentLength r)
  | "" => 2
  end.

(** One turn of the [while (i < len)] loop for each position the loop
    examines; [skip] is the number of characters the previous turn moved
    [i] beyond the next one. *)
Fixpoint scan (skip : nat) (afterColon : bool) (src : string) : list Token :=
  match src with
  | "" => [EOF]
  | String ch rest =>
    match skip with
    | S k => scan k afterColon rest
    | O =>
      if isNewline ch then NEWLINE :: scan 0 false rest
      else
        let blanks := if afterColon then Str.takeWhile isBlank src else "" in
        let raw := if afterColon
                   then readValue (Str.drop (String.length blanks) src) else "" in
        match String.length blanks + String.length raw with
        | S k =>
            let val := Str.trimRight raw in
            (if Str.nonEmpty val then [VALUE val] else [])
              ++ scan k false rest
        | O =>
          if isBlank ch then scan 0 false rest
          else match ch, rest with
          | "/"%char, String "/"%char _ =>
              scan (String.length (Str.takeWhile (λ c, negb (Ascii.eqb c LF)) rest))
                   false rest
          | "/"%char, String "*"%char r =>
              scan (S (blockCommentLength r)) false rest
          | "{"%char, _ => LBRACE :: scan 0 false rest
          | "}"%char, _ => RBRACE :: scan 0 false rest
          | ":"%char, _ => COLON :: scan 0 true rest
          | "034"%char, _ =>
              let str := Str.takeWhile (λ c, negb (Ascii.eqb c DQUOTE)) rest in
              STRING str :: scan (S (String.length str)) false rest
          | _, _ =>
              if isIdentStart ch then
                let word := Str.takeWhile isIdentChar src in
                (if isKeyword word then KEYWORD word else IDENT word)
                  :: scan (String.length word - 1) false rest
              else scan 0 false rest
          end
        end
    end
  end.

End Lexer.

Definition tokenize (src : string) : list Token := Lexer.scan 0 false src.

(** ** Results of code that may throw *)

Inductive Err :=
  | LumenError (message : string)  (** [throw new LumenError(...)] *)
  | TypeError                      (** a property read on [undefined] *)
  | RangeError.                    (** the call stack is exhausted *)

(** [Fuel] is not an outcome of the program: it marks a run of a model that
    was given too few steps, and [Parser.parse_total] rules it out. *)
Inductive res (A : Type) :=
  | Ok (a : A)
  | Throw (e : Err)
  | Fuel.
Global Arguments Ok {A} a.
Global Arguments Throw {A} e.
Global Arguments Fuel {A}.

Global Instance res_ret : MRet res := λ A a, Ok a.
Global Instance res_bind : MBind res := λ A B f m,
  match m with
  | Ok a => f a
  | Throw e => Throw e
  | Fuel => Fuel
  end.
Global Instance res_fmap : FMap res := λ A B f m,
  match m with
  | Ok a => Ok (f a)
  | Throw e => Throw e
  | Fuel => Fuel
  end.

Definition isOk {A} (r : res A) : bool :=
  match r with Ok _ => true | _ => false end.

(** ** Section 2: parser *)

Record Property := mkProperty { key : string; value : string }.

Global Instance Property_eq_dec : EqDecision Property.
Proof. solve_decision. Defined.

(** The AST nodes, tagged by their [type] as in the source; a Program is
    the list that is its [body]. *)
#[warnings="-register-all"]
Inductive Node :=
  | Surface (name : string) (properties : list Property) (children : list Node)
  | Material (name : string) (properties : list Property)
  | Text (content : string) (properties : list Property).

Definition properties (node : Node) : list Property :=
  match node with
  | Surface _ ps _ | Material _ ps | Text _ ps => ps
  end.

(** [hasKey k node]: a property of the node, or of a node inside it, has
    the key [k] *)
Inductive hasKey (k : string) : Node → Prop :=
  | hasKey_here node p :
      p ∈ properties node → key p = k → hasKey k node
  | hasKey_child name ps children child :
      child ∈ children → hasKey k child → hasKey k (Surface name ps children).

Module Parser.

(** [peek().type]: a [TypeError] when the cursor is beyond the last token *)
Definition peekType (ts : list Token) : res TT.t :=
  match ts with
  | tok :: _ => Ok (type tok)
  | [] => Throw TypeError
  end.

Definition expectMessage (ty : TT.t) (tok : Token) : string :=
  "Parse Error: Expected " +:+ TT.name ty +:+ " but got " +:+ TT.name (type tok)
  +:+ match tvalue tok with
      | Some v => if Str.nonEmpty v then " (" +:+ Str.quote v +:+ ")" else ""
      | None => ""
      end.

Definition expect (ty : TT.t) (ts : list Token) : res (Token * list Token) :=
  match ts with
  | tok :: rest =>
      if decide (type tok = ty) then Ok (tok, rest)
      else Throw (LumenError (expectMessage ty tok))
  | [] => Throw TypeError
  end.

(** [expect(ty).value], for the types that carry text *)
Definition expectValue (ty : TT.t) (ts : list Token) : res (string * list Token) :=
  '(tok, rest) ← expect ty ts;
  Ok (default "undefined" (tvalue tok), rest).

Fixpoint skipNewlines (ts : list Token) : res (list Token) :=
  match ts with
  | NEWLINE :: rest => skipNewlines rest
  | _ :: _ => Ok ts
  | [] => Throw TypeError
  end.

(** Called with an IDENT under the cursor. *)
Definition parseProperty (ts : list Token) : res (option Property * list Token) :=
  match ts with
  | [] => Throw TypeError
  | tok :: ts1 =>
      let key := default "undefined" (tvalue tok) in
      ts2 ← skipNewlines ts1;
      match ts2 with
      | COLON :: ts3 =>
          match ts3 with
          | VALUE v :: ts4 => Ok (Some (mkProperty key (Str.trim v)), ts4)
          | STRING v :: ts4 =>
              Ok (Some (mkProperty key (Str.trim (Str.quote v))), ts4)
          | _ :: _ => Ok (Some (mkProperty key (Str.trim "")), ts3)
          | [] => Throw TypeError
          end
      | _ => Ok (None, ts2)
      end
  end.

(** The property loop that [parseMaterial] and [parseText] both spell out. *)
Fixpoint propertyLoop (fuel : nat) (properties : list Property) (ts : list Token)
  : res (list Property * list Token) :=
  match fuel with
  | O => Fuel
  | S fuel =>
    match ts with
    | [] => Throw TypeError
    | RBRACE :: _ | EOF :: _ => Ok (properties, ts)
    | _ :: _ =>
        ts1 ← skipNewlines ts;
        match ts1 with
        | RBRACE :: _ => Ok (properties, ts1)
        | IDENT _ :: _ =>
            '(prop, ts2) ← parseProperty ts1;
            ts3 ← skipNewlines ts2;
            propertyLoop fuel (properties ++ option_list prop) ts3
        | _ :: ts2 =>
            ts3 ← skipNewlines ts2;
            propertyLoop fuel properties ts3
        | [] => Throw TypeError
        end
    end
  end.

Definition parseMaterial (fuel : nat) (ts : list Token) : res (Node * list Token) :=
  '(_, ts) ← expect TT.KEYWORD ts;
  '(name, ts) ← expectValue TT.IDENT ts;
  ts ← skipNewlines ts;
  '(_, ts) ← expect TT.LBRACE ts;
  ts ← skipNewlines ts;
  '(properties, ts) ← propertyLoop fuel [] ts;
  '(_, ts) ← expect TT.RBRACE ts;
  Ok (Material name properties, ts).

Definition parseText (fuel : nat) (ts : list Token) : res (Node * list Token) :=
  '(_, ts) ← expect TT.KEYWORD ts;
  '(content, ts) ← expectValue TT.STRING ts;
  ts ← skipNewlines ts;
  match ts with
  | LBRACE :: ts =>
      ts ← skipNewlines ts;
      '(properties, ts) ← propertyLoop fuel [] ts;
      '(_, ts) ← expect TT.RBRACE ts;
      Ok (Text content properties, ts)
  | _ => Ok (Text content [], ts)
  end.

(** [parseSurface] and the [while] loop of its body. A surface inside a
    surface is parsed by a call of [parseSurface] from inside [parseSurface]:
    [depth] is the number of such nested calls that the call stack has room
    for below the call for a top-level surface, and the next one throws the
    [RangeError] of the engine. The calls that do not nest fit. *)
Fixpoint parseSurface (depth fuel : nat) (ts : list Token) {struct fuel}
  : res (Node * list Token) :=
  match fuel with
  | O => Fuel
  | S fuel =>
      '(_, ts) ← expect TT.KEYWORD ts;
      '(name, ts) ← expectValue TT.IDENT ts;
      ts ← skipNewlines ts;
      '(_, ts) ← expect TT.LBRACE ts;
      ts ← skipNewlines ts;
      '(properties, children, ts) ← surfaceLoop depth fuel [] [] ts;
      '(_, ts) ← expect TT.RBRACE ts;
      Ok (Surface name properties children, ts)
  end
with surfaceLoop (depth fuel : nat) (properties : list Property)
       (children : list Node) (ts : list Token) {struct fuel}
  : res (list Property * list Node * list Token) :=
  match fuel with
  | O => Fuel
  | S fuel =>
    match ts with
    | [] => Throw TypeError
    | RBRACE :: _ | EOF :: _ => Ok (properties, children, ts)
    | _ :: _ =>
        ts1 ← skipNewlines ts;
        match ts1 with
        | RBRACE :: _ => Ok (properties, children, ts1)
        | KEYWORD "surface" :: _ =>
            '(child, ts2) ← match depth with
                            | S depth => parseSurface depth fuel ts1
                            | O => Throw RangeError
                            end;
            ts3 ← skipNewlines ts2;
            surfaceLoop depth fuel properties (children ++ [child]) ts3
        | KEYWORD "text" :: _ =>
            '(child, ts2) ← parseText fuel ts1;
            ts3 ← skipNewlines ts2;
            surfaceLoop depth fuel properties (children ++ [child]) ts3
        | IDENT _ :: _ =>
            '(prop, ts2) ← parseProperty ts1;
            ts3 ← skipNewlines ts2;
            surfaceLoop depth fuel (properties ++ option_list prop) children ts3
        | _ :: ts2 => surfaceLoop depth fuel properties children ts2
        | [] => Throw TypeError
        end
    end
  end.

Definition parseStatement (depth fuel : nat) (ts : list Token)
  : res (option Node * list Token) :=
  match ts with
  | KEYWORD "surface" :: _ =>
      '(node, ts) ← parseSurface depth fuel ts; Ok (Some node, ts)
  | KEYWORD "material" :: _ => '(node, ts) ← parseMaterial fuel ts; Ok (Some node, ts)
  | _ :: rest => Ok (None, rest)
  | [] => Throw TypeError
  end.

Fixpoint programLoop (depth fuel : nat) (body : list Node) (ts : list Token)
    {struct fuel} : res (list Node) :=
  match fuel with
  | O => Fuel
  | S fuel =>
    match ts with
    | [] => Throw TypeError
    | EOF :: _ => Ok body
    | _ :: _ =>
        '(node, ts1) ← parseStatement depth fuel ts;
        ts2 ← skipNewlines ts1;
        programLoop depth fuel (body ++ option_list node) ts2
    end
  end.

Definition parseProgram (depth fuel : nat) (ts : list Token) : res (list Node) :=
  ts ← skipNewlines ts;
  programLoop depth fuel [] ts.

(** [bounded n r]: the run [r] took no more steps than it was given, and
    left at most [n] tokens *)
Definition bounded {A} (n : nat) (r : res (A * list Token)) : Prop :=
  r ≠ Fuel ∧ ∀ a ts', r = Ok (a, ts') → length ts' ≤ n.

(** [traced ts P r]: a result of the run [r] satisfies [P], and the tokens
    it left are the end of [ts] *)
Definition traced {A} (ts : list Token) (P : A → Prop)
    (r : res (A * list Token)) : Prop :=
  ∀ a ts', r = Ok (a, ts') → ts' `suffix_of` ts ∧ P a.

(** the properties of [ps] beyond those of [ps0] are at names of [ts] *)
Definition keysFrom (ts : list Token) (ps0 ps : list Property) : Prop :=
  ∀ p, p ∈ ps → p ∈ ps0 ∨ IDENT (key p) ∈ ts.

Definition keysIn (ts : list Token) (node : Node) : Prop :=
  ∀ k, hasKey k node → IDENT k ∈ ts.

Definition nodesFrom (ts : list Token) (ps : list Property) (cs : list Node)
    (r : list Property * list Node) : Prop :=
  keysFrom ts ps r.1 ∧ (Forall (keysIn ts) cs → Forall (keysIn ts) r.2).

End Parser.

(** [parse(tokens)] on a call stack with room for [depth] nested calls of
    [parseSurface]: the [body] of the Program, or the exception. Every turn
    of a loop and every nested surface uses up a token, so twice the number
    of tokens bounds the steps. *)
Definition parse (depth : nat) (tokens : list Token) : res (list Node) :=
  Parser.parseProgram depth (2 * length tokens + 2) tokens.

(** ** Section 3: compiler *)

(** The values a declaration object holds: a string; [undefined] (a missing
    function argument); or a member of [Object.prototype] that a lookup in
    [aMap] or [jMap] found. *)
Inductive jsval :=
  | VStr (s : string)
  | VUndef
  | VNative (name : string).

Global Instance jsval_eq_dec : EqDecision jsval.
Proof. solve_decision. Defined.

(** A declaration object [{ cssProperty: cssValue }], in insertion order. *)
Definition cssObject := list (string * jsval).

(** What the engine and the host page decide. *)
Class Host := {
  (** [String(parseFloat(s))] *)
  floatText : string → string;
  (** [String(Object.prototype[name])] for a member that is a function *)
  nativeText : string → string;
}.

Module Js.

(** [target[k] = v] on a plain object; an own key keeps its place.  Under
    [__proto__] the code assigns strings only, which the inherited setter
    ignores. *)
Fixpoint update (o : cssObject) (k : string) (v : jsval) : cssObject :=
  match o with
  | (k', v') :: r => if decide (k' = k) then (k, v) :: r else (k', v') :: update r k v
  | [] => [(k, v)]
  end.

Definition setProp (o : cssObject) (k : string) (v : jsval) : cssObject :=
  if decide (k = "__proto__") then o else update o k v.

(** [Object.assign(target, source)] *)
Definition assign (target source : cssObject) : cssObject :=
  foldl (λ o kv, setProp o kv.1 kv.2) target source.

(** [o[k]] for an own key *)
Fixpoint get (o : cssObject) (k : string) : option jsval :=
  match o with
  | (k', v) :: r => if decide (k' = k) then Some v else get r k
  | [] => None
  end.

Definition keys (o : cssObject) : list string := o.*1.

(** well-formed: what [Object.assign] builds from the objects of the source,
    one entry for a key and none for [__proto__] *)
Definition wf (o : cssObject) : Prop := NoDup (keys o) ∧ "__proto__" ∉ keys o.

Definition hexDigit (c : ascii) : option Z :=
  let n := Z.of_N (N_of_ascii c) in
  if isDigit c then Some (n - 48)%Z
  else if inRange "a" "f" c then Some (n - 87)%Z
  else if inRange "A" "F" c then Some (n - 55)%Z
  else None.

Fixpoint hexDigits (acc : option Z) (s : string) : option Z :=
  match s with
  | String c r =>
      match hexDigit c with
      | Some d => hexDigits (Some (default 0 acc * 16 + d)%Z) r
      | None => acc
      end
  | "" => acc
  end.

(** [parseInt(s, 16)]; [None] is [NaN] *)
Definition parseInt16 (s : string) : option Z :=
  let s := Str.trimLeft s in
  let '(sign, s) :=
    match s with
    | String c r =>
        if Ascii.eqb c "-" then ((-1)%Z, r)
        else if Ascii.eqb c "+" then (1%Z, r)
        else (1%Z, s)
    | "" => (1%Z, s)
    end in
  let s :=
    match s with
    | String c (String d r) =>
        if Ascii.eqb c "0" && (Ascii.eqb d "x" || Ascii.eqb d "X") then r else s
    | _ => s
    end in
  (λ n, sign * n)%Z <$> hexDigits None s.

(** ['' + n] for the result of [parseInt] *)
Definition intText (n : option Z) : string :=
  match n with
  | Some z => pretty z
  | None => "NaN"
  end.

End Js.

Definition objectText `{Host} (name : string) : string :=
  if decide (name = "__proto__") then "[object Object]" else nativeText name.

(** ['' + v] *)
Definition toText `{Host} (v : jsval) : string :=
  match v with
  | VStr s => s
  | VUndef => "undefined"
  | VNative name => objectText name
  end.

(** *** Value helpers *)

(** the loop of [parseFn] over [m[2]] *)
Fixpoint splitArgs (depth : Z) (current : string) (s : string) : list string :=
  match s with
  | String c r =>
      if Ascii.eqb c "(" then splitArgs (depth + 1) (current +:+ String c "") r
      else if Ascii.eqb c ")" then splitArgs (depth - 1) (current +:+ String c "") r
      else if Ascii.eqb c "," && bool_decide (depth = 0%Z)
           then Str.trim current :: splitArgs depth "" r
      else splitArgs depth (current +:+ String c "") r
  | "" => if Str.nonEmpty (Str.trim current) then [Str.trim current] else []
  end.

Fixpoint lastChar (s : string) : option ascii :=
  match s with
  | String c "" => Some c
  | String _ r => lastChar r
  | "" => None
  end.

(** [value.match(/^([\w-]+)\((.+)\)$/)] and the split of the arguments *)
Definition parseFn (value : string) : option (string * list string) :=
  let name := Str.takeWhile isIdentChar value in
  match Str.drop (String.length name) value with
  | String "("%char rest =>
      if Str.nonEmpty name
         && bool_decide (lastChar rest = Some ")"%char)
         && (2 <=? String.length rest)%nat
         && Str.all (λ c, negb (isNewline c)) rest
      then Some (name, splitArgs 0 "" (Str.take (String.length rest - 1) rest))
      else None
  | _ => None
  end.

Definition hexToRgba (hex : string) (alpha : string) : string :=
  let hex := Str.removeFirst "#" hex in
  let hex := if decide (String.length hex = 3)
             then Str.flatMap (λ c, String c (String c "")) hex else hex in
  let r := Js.parseInt16 (Str.slice 0 2 hex) in
  let g := Js.parseInt16 (Str.slice 2 4 hex) in
  let b := Js.parseInt16 (Str.slice 4 6 hex) in
  "rgba(" +:+ Js.intText r +:+ ", " +:+ Js.intText g +:+ ", " +:+ Js.intText b
  +:+ ", " +:+ alpha +:+ ")".

(** *** Material resolution *)

(** [args[i]] *)
Definition arg (args : list string) (i : nat) : jsval :=
  match args !! i with
  | Some s => VStr s
  | None => VUndef
  end.

(** [args[i] || dflt] *)
Definition argOr (args : list string) (i : nat) (dflt : string) : string :=
  match args !! i with
  | Some s => if Str.nonEmpty s then s else dflt
  | None => dflt
  end.

Definition noiseImage : string :=
  "url(" +:+ Str.quote "data:image/svg+xml,%3Csvg viewBox='0 0 200 200' xmlns='http://www.w3.org/2000/svg'%3E%3Cfilter id='n'%3E%3CfeTurbulence type='fractalNoise' baseFrequency='0.65' numOctaves='3' stitchTiles='stitch'/%3E%3C/filter%3E%3Crect width='100%25' height='100%25' filter='url(%23n)' opacity='0.04'/%3E%3C/svg%3E" +:+ ")".

Definition resolveMaterialValue `{Host} (value : string) : cssObject :=
  match parseFn value with
  | None => [("background", VStr value)]
  | Some (name, args) =>
      if String.eqb name "solid" then [("background", arg args 0)]
      else if String.eqb name "gradient" then
        let '(direction, colors) :=
          if decide (length args = 2) then ("135deg", args)
          else (toText (arg args 0), tail args) in
        [("background",
          VStr ("linear-gradient(" +:+ direction +:+ ", " +:+ Str.join ", " colors +:+ ")"))]
      else if String.eqb name "radial" then
        [("background", VStr ("radial-gradient(circle, " +:+ Str.join ", " args +:+ ")"))]
      else if String.eqb name "glass" then
        let gColor := argOr args 0 "#ffffff" in
        let gOpacity := floatText (argOr args 1 "0.1") in
        let bgColor := match gColor with
                       | String "#"%char _ => hexToRgba gColor gOpacity
                       | _ => gColor
                       end in
        [("background", VStr bgColor);
         ("backdrop-filter", VStr "blur(12px)");
         ("-webkit-backdrop-filter", VStr "blur(12px)")]
      else if String.eqb name "noise" then
        [("background", VStr (argOr args 0 "#1a1a2e"));
         ("background-image", VStr noiseImage)]
      else [("background", VStr value)]
  end.

(** [materialMap]: the own entries that pass 1 of [compile] stores, and the
    node that an assignment to [__proto__] made the prototype. *)
Record MaterialMap := mkMaterialMap {
  own : gmap string Node;
  protoNode : option Node;
}.

(** [materialMap[node.name] = node] *)
Definition mmSet (m : MaterialMap) (name : string) (node : Node) : MaterialMap :=
  if decide (name = "__proto__") then mkMaterialMap (own m) (Some node)
  else mkMaterialMap (<[name := node]> (own m)) (protoNode m).

(** [materialMap[value]]: a stored node; a truthy value found on the
    prototype chain, which has no [properties]; or [undefined]. *)
Inductive Looked :=
  | Found (node : Node)
  | Foreign
  | Absent.

Definition mmGet (m : MaterialMap) (value : string) : Looked :=
  if decide (value = "__proto__") then
    match protoNode m with Some node => Found node | None => Foreign end
  else
    match own m !! value with
    | Some node => Found node
    | None =>
        if isObjectProtoName value then Foreign
        else match protoNode m with
             | Some _ =>
                 if bool_decide (value ∈ ["type"; "name"; "properties"])
                 then Foreign else Absent
             | None => Absent
             end
    end.

(** *** Property resolution *)

(** [map[value] || value] for a literal table [map] *)
Definition translate (table : list (string * string)) (value : string) : jsval :=
  match list_find (λ kv, kv.1 = value) table with
  | Some (_, (_, v)) => VStr v
  | None => if isObjectProtoName value then VNative value else VStr value
  end.

Definition aMap : list (string * string) :=
  [("start", "flex-start"); ("end", "flex-end")].
Definition jMap : list (string * string) :=
  [("start", "flex-start"); ("end", "flex-end"); ("between", "space-between");
   ("around", "space-around"); ("evenly", "space-evenly")].

(** [props.forEach(function (prop) { Object.assign(css, resolve(prop)); })]
    from the object [init]; the loop ends at the first exception *)
Definition forEachAssign (resolve : Property → res cssObject)
    (init : res cssObject) (props : list Property) : res cssObject :=
  foldl (λ (acc : res cssObject) prop,
           css ← acc;
           resolved ← resolve prop;
           Ok (Js.assign css resolved))
        init props.

(** The [switch (key)] of [resolveSurfaceProp]. [named] is what the test
    [if (materialMap[value]) return resolveMaterialNode(...)] comes to:
    the result of the call when the test holds, [None] when it fails. *)
Definition surfaceSwitch `{Host} (named : option (res cssObject))
    (key value : string) : res cssObject :=
  let same (cssName : string) := Ok [(cssName, VStr value)] in
  if String.eqb key "width" then
    Ok (if String.eqb value "fill" then [("flex", VStr "1"); ("min-width", VStr "0")]
        else [("width", VStr value)])
  else if String.eqb key "height" then
    Ok (if String.eqb value "fill" then [("flex", VStr "1"); ("min-height", VStr "0")]
        else [("height", VStr value)])
  else if String.eqb key "min-width" then same "min-width"
  else if String.eqb key "max-width" then same "max-width"
  else if String.eqb key "min-height" then same "min-height"
  else if String.eqb key "max-height" then same "max-height"
  else if String.eqb key "material" then
    match named with
    | Some r => r
    | None => Ok (resolveMaterialValue value)
    end
  else if String.eqb key "use" then
    match named with
    | Some r => r
    | None => Ok []
    end
  else if String.eqb key "layout" then
    let dir := if String.eqb (Str.takeWhile (λ c, negb (isSpace c)) value) "row"
               then "row" else "column" in
    Ok [("display", VStr "flex"); ("flex-direction", VStr dir)]
  else if String.eqb key "gap" then same "gap"
  else if String.eqb key "wrap" then
    Ok [("flex-wrap", VStr (if String.eqb value "true" then "wrap" else "nowrap"))]
  else if String.eqb key "align" then Ok [("align-items", translate aMap value)]
  else if String.eqb key "justify" then Ok [("justify-content", translate jMap value)]
  else if String.eqb key "radius" then same "border-radius"
  else if String.eqb key "opacity" then same "opacity"
  else if String.eqb key "border" then same "border"
  else if String.eqb key "shadow" then same "box-shadow"
  else if String.eqb key "layer" then same "z-index"
  else if String.eqb key "overflow" then same "overflow"
  else if String.eqb key "cursor" then same "cursor"
  else if String.eqb key "padding" then same "padding"
  else if String.eqb key "margin" then same "margin"
  else if String.eqb key "transition" then same "transition"
  else same key.

(** the function that [resolveMaterialNode] applies to each property, over
    the resolver [resolve] of the keys other than [color] *)
Definition materialProp (resolve : string → string → res cssObject)
    (prop : Property) : res cssObject :=
  if String.eqb (key prop) "color" then Ok [("background", VStr (value prop))]
  else resolve (key prop) (value prop).

(** [depth] is the number of nested calls that the call stack has room for:
    a call of [resolveMaterialNode] from here takes one of them, and finds
    one less. A material that refers to itself exhausts any. *)
Fixpoint resolveSurfaceProp `{Host} (depth : nat) (key value : string)
    (materialMap : MaterialMap) : res cssObject :=
  surfaceSwitch
    match mmGet materialMap value with
    | Found node =>
        Some match depth with
             | S depth =>
                 forEachAssign
                   (materialProp (λ k v, resolveSurfaceProp depth k v materialMap))
                   (Ok []) (properties node)
             | O => Throw RangeError
             end
    | Foreign => Some (Throw TypeError)
    | Absent => None
    end
    key value.

Definition resolveMaterialNode `{Host} (depth : nat) (node : Node)
    (materialMap : MaterialMap) : res cssObject :=
  forEachAssign (materialProp (λ k v, resolveSurfaceProp depth k v materialMap))
    (Ok []) (properties node).

Definition resolveTextProp (key value : string) : cssObject :=
  if String.eqb key "font" then [("font-family", VStr value)]
  else if String.eqb key "size" then [("font-size", VStr value)]
  else if String.eqb key "color" then [("color", VStr value)]
  else if String.eqb key "weight" then [("font-weight", VStr value)]
  else if String.eqb key "align" then [("text-align", VStr value)]
  else if String.eqb key "spacing" then [("letter-spacing", VStr value)]
  else if String.eqb key "height" then [("line-height", VStr value)]
  else if String.eqb key "style" then [("font-style", VStr value)]
  else if String.eqb key "transform" then [("text-transform", VStr value)]
  else if String.eqb key "decoration" then [("text-decoration", VStr value)]
  else if String.eqb key "wrap" then
    [("white-space", VStr (if String.eqb value "false" then "nowrap" else "normal"))]
  else if String.eqb key "padding" then [("padding", VStr value)]
  else [(key, VStr value)].

(** *** CSS serialisation *)

Definition cssObjectToString `{Host} (obj : cssObject) : string :=
  Str.join "; " (map (λ kv, kv.1 +:+ ": " +:+ toText kv.2) obj).

(** [str.replace(/c/g, by)] *)
Definition replaceAll (c : ascii) (by_ : string) (str : string) : string :=
  Str.flatMap (λ d, if Ascii.eqb d c then by_ else String d "") str.

Definition escapeHTML (str : string) : string :=
  replaceAll DQUOTE "&quot;"
    (replaceAll ">" "&gt;" (replaceAll "<" "&lt;" (replaceAll "&" "&amp;" str))).

(** *** Surface and text compilation *)

(** [{ id, css, html }] *)
Module Compiled.
Record t := mk { id : string; css : string; html : string }.
End Compiled.
Abbreviation Compiled := Compiled.t.
Abbreviation mkCompiled := Compiled.mk.

(** [genId()] on the counter [_idCounter] *)
Definition genId (counter : N) : string * N :=
  ("lm" +:+ pretty (N.succ counter), N.succ counter).

Definition surfaceDefaults : cssObject :=
  [("box-sizing", VStr "border-box"); ("position", VStr "relative")].
Definition textDefaults : cssObject :=
  [("box-sizing", VStr "border-box"); ("margin", VStr "0")].

(** the declarations of a surface: [css] after the [forEach] over its
    properties *)
Definition surfaceDeclarations `{Host} (depth : nat) (materialMap : MaterialMap)
    (props : list Property) : res cssObject :=
  forEachAssign (λ prop, resolveSurfaceProp depth (key prop) (value prop) materialMap)
    (Ok surfaceDefaults) props.

(** the declarations of a text node *)
Definition textDeclarations (props : list Property) : cssObject :=
  foldl (λ css prop, Js.assign css (resolveTextProp (key prop) (value prop)))
        textDefaults props.

Definition ruleBlock `{Host} (id : string) (css : cssObject) : string :=
  "#" +:+ id +:+ " { " +:+ cssObjectToString css +:+ " }".

Definition surfaceOpen (id name : string) : string :=
  "<div id=" +:+ Str.quote id +:+ " class=" +:+ Str.quote "lumen-surface"
  +:+ " data-name=" +:+ Str.quote (escapeHTML name) +:+ ">".

Definition compileText `{Host} (node : Node) (counter : N) : res Compiled * N :=
  let '(id, counter) := genId counter in
  let css := textDeclarations (properties node) in
  let content := match node with Text content _ => VStr content | _ => VUndef end in
  (Ok (mkCompiled id (ruleBlock id css)
         ("<p id=" +:+ Str.quote id +:+ " class=" +:+ Str.quote "lumen-text" +:+ ">"
          +:+ escapeHTML (toText content) +:+ "</p>")),
   counter).

(** [node.children.forEach(...)] of [compileSurface], over the function
    [compileSurface] that it calls for a child that is a surface; [done]
    holds the results pushed so far. *)
Fixpoint forEachChild `{Host} (compileSurface : Node → N → res Compiled * N)
    (children : list Node) (done : list Compiled) (counter : N)
  : res (list Compiled) * N :=
  match children with
  | [] => (Ok done, counter)
  | child :: children =>
      match child with
      | Surface _ _ _ =>
          match compileSurface child counter with
          | (Ok r, counter) =>
              forEachChild compileSurface children (done ++ [r]) counter
          | (Throw e, counter) => (Throw e, counter)
          | (Fuel, counter) => (Fuel, counter)
          end
      | Text _ _ =>
          match compileText child counter with
          | (Ok r2, counter) =>
              forEachChild compileSurface children (done ++ [r2]) counter
          | (Throw e, counter) => (Throw e, counter)
          | (Fuel, counter) => (Fuel, counter)
          end
      | Material _ _ => forEachChild compileSurface children done counter
      end
  end.

(** A state of the process is the value of [_idCounter]; a call takes it
    and returns it with its result, also when it throws. [depth] is the
    number of nested calls that the call stack has room for below this one:
    the properties are resolved with that room, and the call of
    [compileSurface] for a child takes one of them, or throws the
    [RangeError] of the engine when there is none. The calls that do not
    nest fit. *)
Fixpoint compileSurface `{Host} (depth : nat) (materialMap : MaterialMap)
    (node : Node) (counter : N) {struct node} : res Compiled * N :=
  let '(id, counter) := genId counter in
  match surfaceDeclarations depth materialMap (properties node) with
  | Ok css =>
      match node with
      | Surface name _ children =>
          match forEachChild
                  (λ child counter,
                     match depth with
                     | S depth => compileSurface depth materialMap child counter
                     | O => (Throw RangeError, counter)
                     end)
                  children [] counter with
          | (Ok rs, counter) =>
              let cssBlock := ruleBlock id css in
              let allCSS := Str.join (String LF "") (cssBlock :: map Compiled.css rs) in
              let html := surfaceOpen id name
                          +:+ Str.join (String LF "") (map Compiled.html rs)
                          +:+ "</div>" in
              (Ok (mkCompiled id allCSS html), counter)
          | (Throw e, counter) => (Throw e, counter)
          | (Fuel, counter) => (Fuel, counter)
          end
      | _ => (Throw TypeError, counter)
      end
  | Throw e => (Throw e, counter)
  | Fuel => (Fuel, counter)
  end.

(** the call of [compileSurface] for a child of a surface *)
Definition compileChild `{Host} (depth : nat) (materialMap : MaterialMap)
    (child : Node) (counter : N) : res Compiled * N :=
  match depth with
  | S depth => compileSurface depth materialMap child counter
  | O => (Throw RangeError, counter)
  end.

(** *** Main compile entry *)

Definition emptyMaterialMap : MaterialMap := mkMaterialMap ∅ None.

(** pass 1: [if (node && node.type === 'Material') materialMap[node.name] = node] *)
Definition tableStep (m : MaterialMap) (node : Node) : MaterialMap :=
  match node with
  | Material name _ => mmSet m name node
  | _ => m
  end.

Definition materialTable (body : list Node) : MaterialMap :=
  foldl tableStep emptyMaterialMap body.

(** pass 2 *)
Fixpoint compileBody `{Host} (depth : nat) (materialMap : MaterialMap)
    (body : list Node) (done : list Compiled) (counter : N)
  : res (list Compiled) * N :=
  match body with
  | [] => (Ok done, counter)
  | node :: body =>
      match node with
      | Surface _ _ _ =>
          match compileSurface depth materialMap node counter with
          | (Ok result, counter) =>
              compileBody depth materialMap body (done ++ [result]) counter
          | (Throw e, counter) => (Throw e, counter)
          | (Fuel, counter) => (Fuel, counter)
          end
      | _ => compileBody depth materialMap body done counter
      end
  end.

(** [{ css, html }] *)
Record Output := mkOutput { outCss : string; outHtml : string }.

(** [compile(ast)], from the counter value [counter], on a call stack with
    room for [depth] nested calls below the one of a top-level surface *)
Definition compile `{Host} (depth : nat) (ast : list Node) (counter : N)
  : res Output * N :=
  match compileBody depth (materialTable ast) ast [] counter with
  | (Ok results, counter) =>
      (Ok (mkOutput (Str.join (String LF "") (map Compiled.css results))
                    (Str.join (String LF "") (map Compiled.html results))),
       counter)
  | (Throw e, counter) => (Throw e, counter)
  | (Fuel, counter) => (Fuel, counter)
  end.

(** ** Terms of the statements *)

(** The properties of a material, as one writes them on a surface to get
    what the material gives: [color] is the fill of the surface. *)
Definition inlineMaterial (node : Node) : list Property :=
  map (λ prop, if String.eqb (key prop) "color"
               then mkProperty "background" (value prop) else prop)
      (properties node).

(** What resolves a property of a node of each kind, and the declarations
    that the node ends with. *)
Definition resolveProp `{Host} (depth : nat) (materialMap : MaterialMap)
    (node : Node) (prop : Property) : res cssObject :=
  match node with
  | Surface _ _ _ => resolveSurfaceProp depth (key prop) (value prop) materialMap
  | Material _ _ => materialProp (λ k v, resolveSurfaceProp depth k v materialMap) prop
  | Text _ _ => Ok (resolveTextProp (key prop) (value prop))
  end.

Definition declarations `{Host} (depth : nat) (materialMap : MaterialMap)
    (node : Node) : res cssObject :=
  match node with
  | Surface _ props _ => surfaceDeclarations depth materialMap props
  | Material _ _ => resolveMaterialNode depth node materialMap
  | Text _ props => Ok (textDeclarations props)
  end.

(** A chain of surfaces, each the only child of the one before: [outer]
    at the top, then [inner] from the outside in; a level is a name and
    the properties. *)
Fixpoint chain (outer : string * list Property)
    (inner : list (string * list Property)) : Node :=
  match inner with
  | [] => Surface outer.1 outer.2 []
  | next :: inner => Surface outer.1 outer.2 [chain next inner]
  end.

(** The rule blocks of a chain, from the outside in, for the declarations
    of its levels and the counter [_idCounter] before the first. *)
Fixpoint chainRules `{Host} (counter : N) (decls : list cssObject) : list string :=
  match decls with
  | [] => []
  | css :: decls =>
      ruleBlock ("lm" +:+ pretty (N.succ counter)) css
        :: chainRules (N.succ counter) decls
  end.

(** The elements of a chain, each inside the one before. *)
Fixpoint chainElements (counter : N) (names : list string) : string :=
  match names with
  | [] => ""
  | name :: names =>
      surfaceOpen ("lm" +:+ pretty (N.succ counter)) name
      +:+ chainElements (N.succ counter) names +:+ "</div>"
  end.


Definition isSurface (node : Node) : bool :=
  match node with Surface _ _ _ => true | _ => false end.

(** The nested calls that a surface needs below its own, of [parseSurface]
    to parse it and of [compileSurface] to compile it: one for a surface
    inside it, and those that this one needs. *)
Fixpoint nesting (node : Node) : nat :=
  match node with
  | Surface _ _ children =>
      foldr (λ child n,
               Nat.max (match child with
                        | Surface _ _ _ => S (nesting child)
                        | _ => 0
                        end) n)
            0 children
  | _ => 0
  end.

(** the call stack has room for the calls that a child of a surface needs:
    none for a text node *)
Definition fitsIn (depth : nat) (child : Node) : bool :=
  negb (isSurface child) || (nesting child <? depth).

(** the number of identifiers that [compileSurface] draws for a node *)
Fixpoint rendered (node : Node) : N :=
  match node with
  | Surface _ _ children =>
      N.succ (foldr (λ child n, (rendered child + n)%N) 0%N children)
  | Text _ _ => 1%N
  | Material _ _ => 0%N
  end.

(** The keys that declare an empty value as it is: not the keys that work
    a declaration out of the value ([layout], [wrap]) or name a material
    ([use]; [material] when the table has the empty name), and not the key
    that the declaration object has a setter for. *)
Definition declaresEmpty (materialMap : MaterialMap) (node : Node) (k : string) : Prop :=
  k ≠ "__proto__" ∧
  match node with
  | Text _ _ => k ≠ "wrap"
  | _ => (k ∉ ["layout"; "wrap"; "use"])
         ∧ (k = "material" → mmGet materialMap "" = Absent)
  end.

Definition renderedAll (nodes : list Node) : N :=
  foldr (λ child n, (rendered child + n)%N) 0%N nodes.

(** the object that the [glass] case returns for a background *)
Definition blurred (background : string) : cssObject :=
  [("background", VStr background);
   ("backdrop-filter", VStr "blur(12px)");
   ("-webkit-backdrop-filter", VStr "blur(12px)")].

(** A host for running examples: decimal opacities print as they are
    written, native functions the way V8 prints them. *)
Definition exampleHost : Host := {|
  floatText := λ s, s;
  nativeText := λ name, "function " +:+ name +:+ "() { [native code] }";
|}.

(** ** Programs of the examples *)

Definition panelProgram : list Node :=
  [Material "panel" [mkProperty "color" "#111827"; mkProperty "radius" "10px"];
   Surface "sidebar" [mkProperty "width" "260px"; mkProperty "use" "panel";
                      mkProperty "padding" "20px"] []].

Definition chainOuter : string * list Property := ("a", [mkProperty "width" "10px"]).
Definition chainInner : list (string * list Property) :=
  [("b", []); ("c", [mkProperty "layout" "row"])].
Definition chainDeclarations : list cssObject :=
  [surfaceDefaults ++ [("width", VStr "10px")];
   surfaceDefaults;
   surfaceDefaults ++ [("display", VStr "flex"); ("flex-direction", VStr "row")]].

(** a block that is left open after a [material:] line *)
Definition unclosedSurface : string :=
  "surface card {" +:+ String LF "  material: solid(#1a1a2e)" +:+ String LF "".
Definition unclosedMaterial : string :=
  "material card {" +:+ String LF "  material: solid(#1a1a2e)" +:+ String LF "".

(** a name alone on its line, and the colon on the next *)
Definition colonOnNextLine : string :=
  "surface a {" +:+ String LF "  width" +:+ String LF "  : 10px" +:+ String LF "}".

Definition emptyLayout : string :=
  "surface a {" +:+ String LF "  layout:" +:+ String LF "}".

(** ** Terms of the further properties *)

(** *** The trees of the parser *)

(** values as [parseProperty] leaves them *)
Definition trimmed (p : Property) : bool :=
  String.eqb (Str.trim (value p)) (value p).

(** The trees [parse] builds: surfaces and materials at the top, surfaces
    and text nodes inside a surface, every value trimmed. *)
Fixpoint wellFormed (top : bool) (node : Node) : bool :=
  forallb trimmed (properties node) &&
  match node with
  | Surface _ _ children => forallb (wellFormed false) children
  | Material _ _ => top
  | Text _ _ => negb top
  end.

(** the properties and children a surface ends with *)
Definition wellFormedInside (r : list Property * list Node) : Prop :=
  Forall (λ p, trimmed p = true) r.1 ∧ Forall (λ c, wellFormed false c = true) r.2.

(** A program written out as tokens: a block for each node, a line for
    each property, the children of a surface after its properties. *)
Definition propertyTokens (p : Property) : list Token :=
  [IDENT (key p); COLON; VALUE (value p); NEWLINE].

Fixpoint nodeTokens (node : Node) : list Token :=
  match node with
  | Surface name ps children =>
      [KEYWORD "surface"; IDENT name; LBRACE; NEWLINE]
      ++ flat_map propertyTokens ps ++ flat_map nodeTokens children
      ++ [RBRACE; NEWLINE]
  | Material name ps =>
      [KEYWORD "material"; IDENT name; LBRACE; NEWLINE]
      ++ flat_map propertyTokens ps ++ [RBRACE; NEWLINE]
  | Text content ps =>
      [KEYWORD "text"; STRING content; LBRACE; NEWLINE]
      ++ flat_map propertyTokens ps ++ [RBRACE; NEWLINE]
  end.

Definition programTokens (body : list Node) : list Token :=
  flat_map nodeTokens body ++ [EOF].

(** *** Parsing what was written out *)

(** [upTo r a]: the run [r] gives [a], when it was given the steps for it *)
Definition upTo {A} (r : res A) (a : A) : Prop := r = Fuel ∨ r = Ok a.

(** [ends r x]: the run [r] ends as [x], when it was given the steps for it *)
Definition ends {A} (r x : res A) : Prop := r = Fuel ∨ r = x.

(** what the parser makes of a node that was written out, with the tokens
    [ts] after it: the node, when the call stack has room for the surfaces
    inside it *)
Definition reads {A} (fit : bool) (a : A) (ts : list Token) : res (A * list Token) :=
  if fit then Ok (a, ts) else Throw RangeError.

(** the first token after a line of a block that was written out *)
Definition startsLine (ts : list Token) : Prop :=
  match ts with
  | IDENT _ :: _ | KEYWORD _ :: _ | RBRACE :: _ | EOF :: _ => True
  | _ => False
  end.

(** *** What the parser throws *)

(** the number of [surface] keywords among the tokens *)
Definition surfaces (ts : list Token) : nat :=
  length (filter (λ tok, tok = KEYWORD "surface") ts).

(** [raises depth ts e]: what a run of the parser on [ts] throws: the error
    of a read beyond the tokens; the error of the engine when the surfaces
    of [ts] were more than the [depth] calls that the call stack had room
    for; or an expectation that a token of [ts] failed *)
Definition raises (depth : nat) (ts : list Token) (e : Err) : Prop :=
  e = TypeError ∨
  (e = RangeError ∧ depth < surfaces ts) ∨
  ∃ ty tok, ty ∈ [TT.IDENT; TT.STRING; TT.LBRACE; TT.RBRACE] ∧ tok ∈ ts ∧
            type tok ≠ ty ∧ e = LumenError (Parser.expectMessage ty tok).

(** [checked depth ts r]: the run [r] leaves an end of [ts], or throws what
    a run on [ts] throws *)
Definition checked {A} (depth : nat) (ts : list Token) (r : res (A * list Token))
  : Prop :=
  (∀ a ts', r = Ok (a, ts') → ts' `suffix_of` ts)
  ∧ (∀ e, r = Throw e → raises depth ts e).

(** *** The elements of a compilation *)

(** The nodes of a surface that get a rule and an element, in document
    order: the surface, then what its children give, one after the other. *)
Fixpoint elements (node : Node) : list Node :=
  match node with
  | Surface _ _ children => node :: flat_map elements children
  | Text _ _ => [node]
  | Material _ _ => []
  end.

(** a node without its properties *)
Fixpoint skeleton (node : Node) : Node :=
  match node with
  | Surface name _ children => Surface name [] (map skeleton children)
  | Material name _ => Material name []
  | Text content _ => Text content []
  end.

(** [compiles fit r]: the run [r] gives a result when the call stack has
    room, and throws the error of the engine when it has not *)
Definition compiles {A} (fit : bool) (r : res A * N) : Prop :=
  if fit then ∃ a c', r = (Ok a, c') else ∃ c', r = (Throw RangeError, c').

(** the nodes of a program that get a rule and an element: pass 2 of
    [compile] takes the surfaces of the body *)
Definition programElements (body : list Node) : list Node :=
  flat_map (λ node, if isSurface node then elements node else []) body.

(** [k] starts with a digit, as every array index does: the keys that an
    object lists first, in ascending order, whatever the order of insertion.
    The other keys are listed in the order of insertion. *)
Definition startsWithDigit (k : string) : bool :=
  match k with
  | String c _ => isDigit c
  | "" => false
  end.

(** the keys of [source] that [Object.assign(target, source)] appends to
    those of [target] *)
Definition newKeys (target source : cssObject) : list string :=
  filter (λ k, (k ∉ Js.keys target) ∧ k ≠ "__proto__") (Js.keys source).

(** *** The arguments of a call *)

(** [closes depth s]: the depth of parentheses after [s], read from the depth
    [depth], when no comma of [s] stands at depth 0: the text [s] is then
    part of one argument *)
Fixpoint closes (depth : Z) (s : string) : option Z :=
  match s with
  | String c r =>
      if Ascii.eqb c "(" then closes (depth + 1) r
      else if Ascii.eqb c ")" then closes (depth - 1) r
      else if Ascii.eqb c "," && bool_decide (depth = 0%Z) then None
      else closes depth r
  | "" => Some depth
  end.

(** *** Programs written out as source text *)

(** [s] has a [//] *)
Fixpoint hasComment (s : string) : bool :=
  match s with
  | String "/"%char (String "/"%char _) => true
  | String _ r => hasComment r
  | "" => false
  end.

(** the words that the tokenizer gives as IDENT *)
Definition isName (w : string) : bool :=
  match w with
  | String c r => isIdentStart c && Str.all isIdentChar r
  | "" => false
  end && negb (isKeyword w).

(** the texts that a property line gives back as its value *)
Definition isValue (v : string) : bool :=
  match v with
  | String c _ => negb (isSpace c)
  | "" => false
  end
  && Str.all (λ c, negb (isNewline c)) v
  && negb (hasComment v)
  && String.eqb (Str.trimRight v) v.

(** the programs that have a source text *)
Fixpoint writable (top : bool) (node : Node) : bool :=
  forallb (λ p, isName (key p) && isValue (value p)) (properties node) &&
  match node with
  | Surface name _ children => isName name && forallb (writable false) children
  | Material name _ => top && isName name
  | Text content _ => negb top && Str.all (λ c, negb (Ascii.eqb c DQUOTE)) content
  end.

Definition printProperty (p : Property) : string :=
  "  " +:+ key p +:+ ": " +:+ value p +:+ String LF "".

Definition printAll {A} (print : A → string) (l : list A) : string :=
  foldr (λ a s, print a +:+ s) "" l.

Fixpoint printNode (node : Node) : string :=
  match node with
  | Surface name ps children =>
      "surface " +:+ name +:+ " {" +:+ String LF
        (printAll printProperty ps +:+ printAll printNode children +:+ "}" +:+ String LF "")
  | Material name ps =>
      "material " +:+ name +:+ " {" +:+ String LF
        (printAll printProperty ps +:+ "}" +:+ String LF "")
  | Text content ps =>
      "text " +:+ Str.quote content +:+ " {" +:+ String LF
        (printAll printProperty ps +:+ "}" +:+ String LF "")
  end.

Definition printProgram (body : list Node) : string := printAll printNode body.

(** ** Facts: declaration objects *)

Module JsFacts.
Import Js.

Lemma get_update_eq o k v : get (update o k v) k = Some v.
Proof.
  induction o as [|[k' v'] o IH]; simpl.
  - by rewrite decide_True.
  - destruct (decide (k' = k)) as [->|Hne]; simpl.
    + by rewrite decide_True.
    + by rewrite decide_False.
Qed.

Lemma get_update_ne o k k' v : k ≠ k' → get (update o k v) k' = get o k'.
Proof.
  intros Hne. induction o as [|[k0 v0] o IH]; simpl.
  - by rewrite decide_False.
  - destruct (decide (k0 = k)) as [->|Hne0]; simpl.
    + by rewrite !decide_False.
    + destruct (decide (k0 = k')); auto.
Qed.

Lemma keys_update_in o k v : k ∈ keys o → keys (update o k v) = keys o.
Proof.
  unfold keys. induction o as [|[k0 v0] o IH]; simpl; intros Hin.
  - by apply elem_of_nil in Hin.
  - destruct (decide (k0 = k)) as [->|Hne]; simpl; [done|].
    f_equal. apply IH. apply elem_of_cons in Hin as [?|?]; [simplify_eq/=|done].
Qed.

Lemma keys_update_notin o k v : k ∉ keys o → update o k v = o ++ [(k, v)].
Proof.
  unfold keys. induction o as [|[k0 v0] o IH]; simpl; intros Hin; [done|].
  rewrite not_elem_of_cons in Hin. destruct Hin as [? ?].
  rewrite decide_False by done. f_equal. auto.
Qed.

Lemma get_None_keys o k : get o k = None ↔ k ∉ keys o.
Proof.
  unfold keys. induction o as [|[k0 v0] o IH]; simpl.
  - split; [intros _; apply not_elem_of_nil|done].
  - rewrite not_elem_of_cons. simpl. destruct (decide (k0 = k)) as [->|Hne].
    + split; [done|]. by intros [? _].
    + rewrite IH. split; [by intros ?|by intros [_ ?]].
Qed.

Lemma NoDup_update o k v : NoDup (keys o) → NoDup (keys (update o k v)).
Proof.
  intros Hnd. destruct (decide (k ∈ keys o)) as [Hin|Hnin].
  - by rewrite keys_update_in.
  - rewrite keys_update_notin by done. unfold keys in *. rewrite fmap_app. simpl.
    apply NoDup_app. split; [done|]. split; [|apply NoDup_singleton].
    intros x Hx ->%list_elem_of_singleton. done.
Qed.

Lemma elem_of_get o k v : NoDup (keys o) → (k, v) ∈ o ↔ get o k = Some v.
Proof.
  unfold keys. induction o as [|[k0 v0] o IH]; simpl; intros Hnd.
  - split; [intros ?%elem_of_nil; done|done].
  - apply NoDup_cons in Hnd as [Hnin Hnd]. rewrite elem_of_cons.
    destruct (decide (k0 = k)) as [->|Hne].
    + split; [|intros [= ->]; by left].
      intros [[= ->]|Hin]; [done|]. exfalso. apply Hnin.
      apply list_elem_of_fmap. by exists (k, v).
    + rewrite <-IH by done. split; [intros [[= ? ?]|?]; done|by right].
Qed.

Lemma wf_nil : wf [].
Proof. split; [apply NoDup_nil_2|apply not_elem_of_nil]. Qed.

Lemma wf_setProp o k v : wf o → wf (setProp o k v).
Proof.
  intros [Hnd Hp]. unfold setProp. destruct (decide (k = "__proto__")); [done|].
  split; [by apply NoDup_update|].
  destruct (decide (k ∈ keys o)) as [Hin|Hnin].
  - by rewrite keys_update_in.
  - rewrite keys_update_notin by done. unfold keys in *. rewrite fmap_app.
    rewrite elem_of_app. intros [?|?%list_elem_of_singleton]; simpl in *; congruence.
Qed.

Lemma wf_assign o src : wf o → wf (assign o src).
Proof.
  unfold assign. revert o. induction src as [|[k v] src IH]; simpl; intros o Hwf; [done|].
  apply IH. by apply wf_setProp.
Qed.

Lemma assign_nil o : assign o [] = o.
Proof. done. Qed.

Lemma assign_app o s1 s2 : assign o (s1 ++ s2) = assign (assign o s1) s2.
Proof. unfold assign. by rewrite foldl_app. Qed.

Lemma assign_cons o k v s : assign o ((k, v) :: s) = assign (setProp o k v) s.
Proof. done. Qed.

Lemma assign_snoc o k v s : assign o (s ++ [(k, v)]) = setProp (assign o s) k v.
Proof. by rewrite assign_app. Qed.

(** the value of a key after an assignment *)
Lemma get_setProp o k v k' :
  get (setProp o k v) k' =
  if decide (k = k' ∧ k ≠ "__proto__") then Some v else get o k'.
Proof.
  unfold setProp. destruct (decide (k = "__proto__")) as [->|Hne].
  - rewrite decide_False; [done|]. intros [_ ?]. done.
  - destruct (decide (k = k')) as [->|Hne'].
    + rewrite decide_True by done. apply get_update_eq.
    + rewrite decide_False by (intros [? _]; done). by apply get_update_ne.
Qed.

Lemma get_assign_None o src k :
  get src k = None → get (assign o src) k = get o k.
Proof.
  revert o. induction src as [|[k0 v0] src IH]; intros o Hg; [done|].
  simpl in Hg. destruct (decide (k0 = k)) as [->|Hne]; [done|].
  rewrite assign_cons, IH by done. rewrite get_setProp.
  rewrite decide_False; [done|]. intros [? _]. done.
Qed.

Lemma get_assign_Some o src k v :
  NoDup (keys src) → k ≠ "__proto__" → get src k = Some v →
  get (assign o src) k = Some v.
Proof.
  revert o. unfold keys. induction src as [|[k0 v0] src IH]; intros o Hnd Hk Hg; [done|].
  simpl in Hnd, Hg. apply NoDup_cons in Hnd as [Hnin Hnd]. rewrite assign_cons.
  destruct (decide (k0 = k)) as [->|Hne].
  - injection Hg as ->. rewrite get_assign_None.
    + rewrite get_setProp. by rewrite decide_True.
    + by apply get_None_keys.
  - by apply IH.
Qed.


Lemma update_comm o k v k' v' :
  k ≠ k' → k ∈ keys o →
  update (update o k v) k' v' = update (update o k' v') k v.
Proof.
  intros Hne. unfold keys. induction o as [|[k0 v0] o IH]; simpl; intros Hin.
  - by apply elem_of_nil in Hin.
  - apply elem_of_cons in Hin as [Hin|Hin]; simpl in Hin;
      repeat (case_decide; simplify_eq/=); try done.
    f_equal. auto.
Qed.

Lemma setProp_update_comm o k v k' v' :
  k ≠ k' → k ∈ keys o →
  setProp (update o k v) k' v' = update (setProp o k' v') k v.
Proof.
  intros. unfold setProp. destruct (decide (k' = "__proto__")); [done|].
  by apply update_comm.
Qed.

Lemma keys_setProp_in o k k' v' : k ∈ keys o → k ∈ keys (setProp o k' v').
Proof.
  intros Hin. unfold setProp. destruct (decide (k' = "__proto__")); [done|].
  destruct (decide (k' ∈ keys o)) as [Hin'|Hnin].
  - by rewrite keys_update_in.
  - rewrite keys_update_notin by done. unfold keys in *. rewrite fmap_app.
    apply elem_of_app. by left.
Qed.

Lemma assign_update_comm o k v src :
  k ∈ keys o → k ∉ keys src →
  assign (update o k v) src = update (assign o src) k v.
Proof.
  revert o. unfold keys at 2. induction src as [|[k' v'] src IH]; intros o Hin Hnin; [done|].
  simpl in Hnin. apply not_elem_of_cons in Hnin as [Hne Hnin].
  rewrite !assign_cons. rewrite setProp_update_comm by done.
  apply IH; [|done]. by apply keys_setProp_in.
Qed.

Lemma update_update o k v0 v : update (update o k v0) k v = update o k v.
Proof.
  induction o as [|[k' v'] o IH]; simpl.
  - by rewrite decide_True.
  - destruct (decide (k' = k)) as [->|Hne]; simpl.
    + by rewrite decide_True.
    + rewrite decide_False by done. by f_equal.
Qed.

Lemma keys_update_elem o k v : k ∈ keys (update o k v).
Proof.
  unfold keys. induction o as [|[k' v'] o IH]; simpl.
  - apply elem_of_cons. by left.
  - destruct (decide (k' = k)) as [->|Hne]; simpl; apply elem_of_cons; auto.
Qed.

Lemma update_split b1 b2 k v0 v :
  k ∉ keys b1 → update (b1 ++ (k, v0) :: b2) k v = b1 ++ (k, v) :: b2.
Proof.
  unfold keys. induction b1 as [|[k' v'] b1 IH]; simpl; intros Hnin.
  - by rewrite decide_True.
  - apply not_elem_of_cons in Hnin as [Hne Hnin]. simpl in Hne.
    rewrite decide_False by done. f_equal. auto.
Qed.

(** a key of the target is overwritten where it stands *)
Lemma assign_setProp a b k v :
  wf b → assign a (setProp b k v) = setProp (assign a b) k v.
Proof.
  intros [Hnd Hp]. unfold setProp at 1 2.
  destruct (decide (k = "__proto__")) as [->|Hk]; [done|].
  destruct (decide (k ∈ keys b)) as [Hin|Hnin].
  - unfold keys in Hin. apply list_elem_of_fmap in Hin as ([k0 v0] & -> & Hin).
    apply list_elem_of_split in Hin as (b1 & b2 & ->). simpl.
    unfold keys in Hnd. rewrite fmap_app, fmap_cons in Hnd.
    apply NoDup_app in Hnd as (Hnd1 & Hdisj & Hnd2).
    apply NoDup_cons in Hnd2 as [Hnin2 _].
    assert (k0 ∉ keys b1) as Hnin1.
    { intros Hin1. apply (Hdisj _ Hin1). apply elem_of_cons. by left. }
    rewrite update_split by done.
    rewrite !assign_app, !assign_cons.
    unfold setProp. rewrite !decide_False by done.
    rewrite <-(update_update (assign a b1) k0 v0 v).
    apply assign_update_comm; [apply keys_update_elem|done].
  - rewrite keys_update_notin by done. rewrite assign_snoc.
    unfold setProp. by rewrite decide_False.
Qed.

Lemma assign_assoc a b c :
  wf b → assign a (assign b c) = assign (assign a b) c.
Proof.
  revert b. induction c as [|[k v] c IH]; intros b Hwf; [done|].
  rewrite !assign_cons. rewrite IH by (by apply wf_setProp).
  by rewrite assign_setProp.
Qed.

End JsFacts.
Import JsFacts.

(** ** Facts: the resolver *)


Section ResolverFacts.
Context `{Host}.

Lemma forEachAssign_nil R init : forEachAssign R init [] = init.
Proof. done. Qed.

Lemma forEachAssign_cons R css p ps :
  forEachAssign R (Ok css) (p :: ps) =
  forEachAssign R (resolved ← R p; Ok (Js.assign css resolved)) ps.
Proof. done. Qed.

Lemma forEachAssign_app R init ps qs :
  forEachAssign R init (ps ++ qs) = forEachAssign R (forEachAssign R init ps) qs.
Proof. unfold forEachAssign. by rewrite foldl_app. Qed.

Lemma forEachAssign_Throw R e ps : forEachAssign R (Throw e) ps = Throw e.
Proof. induction ps; [done|]. simpl. apply IHps. Qed.

Lemma forEachAssign_Fuel R ps : forEachAssign R Fuel ps = Fuel.
Proof. induction ps; [done|]. simpl. apply IHps. Qed.

Lemma forEachAssign_ext R R' init ps :
  (∀ p, p ∈ ps → R p = R' p) → forEachAssign R init ps = forEachAssign R' init ps.
Proof.
  revert init. induction ps as [|p ps IH]; intros init HR; [done|].
  simpl. rewrite (HR p) by (apply elem_of_cons; by left).
  apply IH. intros q Hq. apply HR. apply elem_of_cons. by right.
Qed.

(** the declarations collected from [assign css b] are those collected from
    [b], assigned to [css] *)
Lemma forEachAssign_from R css b ps :
  Js.wf b →
  forEachAssign R (Ok (Js.assign css b)) ps =
  (o ← forEachAssign R (Ok b) ps; Ok (Js.assign css o)).
Proof.
  revert b. induction ps as [|p ps IH]; intros b Hwf; [done|].
  rewrite !forEachAssign_cons. destruct (R p) as [r|e|]; simpl.
  - rewrite <-assign_assoc by done. apply IH. by apply wf_assign.
  - by rewrite !forEachAssign_Throw.
  - by rewrite !forEachAssign_Fuel.
Qed.

(** a resolver that agrees wherever the stack sufficed gives the same result *)
Lemma forEachAssign_agree R R' init ps r :
  (∀ p, p ∈ ps → R p ≠ Throw RangeError → R' p = R p) →
  forEachAssign R init ps = r → r ≠ Throw RangeError →
  forEachAssign R' init ps = r.
Proof.
  revert init. induction ps as [|p ps IH]; intros init HR Hr Hne; [done|].
  destruct init as [css|e|].
  - rewrite forEachAssign_cons in *.
    assert (R p ≠ Throw RangeError) as Hp.
    { intros Hp. rewrite Hp in Hr. simpl in Hr. rewrite forEachAssign_Throw in Hr.
      congruence. }
    rewrite (HR p) by (done || apply elem_of_cons; by left).
    apply IH; [|done..]. intros q Hq. apply HR. apply elem_of_cons. by right.
  - simpl in *. rewrite forEachAssign_Throw in *. done.
  - simpl in *. rewrite forEachAssign_Fuel in *. done.
Qed.

Lemma resolveSurfaceProp_unfold depth key value m :
  resolveSurfaceProp depth key value m =
  surfaceSwitch
    match mmGet m value with
    | Found node =>
        Some match depth with
             | S depth => resolveMaterialNode depth node m
             | O => Throw RangeError
             end
    | Foreign => Some (Throw TypeError)
    | Absent => None
    end key value.
Proof. destruct depth; reflexivity. Qed.

Lemma surfaceSwitch_other named named' key value :
  key ≠ "material" → key ≠ "use" →
  surfaceSwitch named key value = surfaceSwitch named' key value.
Proof.
  intros H1%String.eqb_neq H2%String.eqb_neq. unfold surfaceSwitch.
  by rewrite H1, H2.
Qed.

Lemma surfaceSwitch_material named value :
  surfaceSwitch named "material" value =
  match named with Some r => r | None => Ok (resolveMaterialValue value) end.
Proof. done. Qed.

Lemma surfaceSwitch_use named value :
  surfaceSwitch named "use" value =
  match named with Some r => r | None => Ok [] end.
Proof. done. Qed.

Lemma surfaceSwitch_background named value :
  surfaceSwitch named "background" value = Ok [("background", VStr value)].
Proof. done. Qed.

Lemma resolveSurfaceProp_mono depth k v m r :
  resolveSurfaceProp depth k v m = r → r ≠ Throw RangeError →
  resolveSurfaceProp (S depth) k v m = r.
Proof.
  revert k v r. induction depth as [|depth IH]; intros k v r Hr Hne.
  - rewrite resolveSurfaceProp_unfold in *.
    destruct (decide (k = "material")) as [->|Hm];
      [|destruct (decide (k = "use")) as [->|Hu]].
    + rewrite surfaceSwitch_material in *. destruct (mmGet m v); congruence.
    + rewrite surfaceSwitch_use in *. destruct (mmGet m v); congruence.
    + rewrite <-Hr. by apply surfaceSwitch_other.
  - rewrite resolveSurfaceProp_unfold in Hr. rewrite resolveSurfaceProp_unfold.
    assert (∀ node r', resolveMaterialNode depth node m = r' → r' ≠ Throw RangeError →
                      resolveMaterialNode (S depth) node m = r') as Hnode.
    { intros node r' Hr' Hne'. unfold resolveMaterialNode in *.
      eapply forEachAssign_agree; [|exact Hr'|done].
      intros p _ Hp. unfold materialProp in *.
      destruct (String.eqb (key p) "color"); [done|]. by apply IH. }
    destruct (decide (k = "material")) as [->|Hm];
      [|destruct (decide (k = "use")) as [->|Hu]].
    + rewrite surfaceSwitch_material in *.
      destruct (mmGet m v); [|done..]. by apply Hnode.
    + rewrite surfaceSwitch_use in *.
      destruct (mmGet m v); [|done..]. by apply Hnode.
    + rewrite <-Hr. by apply surfaceSwitch_other.
Qed.

End ResolverFacts.

(** ** Facts: the material table and references to it *)


Lemma mmGet_mmSet_eq m name node : mmGet (mmSet m name node) name = Found node.
Proof.
  unfold mmGet, mmSet. destruct (decide (name = "__proto__")) as [->|Hne]; simpl.
  - done.
  - by rewrite lookup_insert_eq.
Qed.

Lemma mmGet_Found_own m name node :
  name ≠ "__proto__" → mmGet m name = Found node → own m !! name = Some node.
Proof.
  unfold mmGet. intros Hne. rewrite decide_False by done.
  destruct (own m !! name); [congruence|].
  repeat case_match; done.
Qed.

Lemma mmGet_mmSet_ne m name name' node node' :
  name' ≠ name → mmGet m name = Found node →
  mmGet (mmSet m name' node') name = Found node.
Proof.
  intros Hne Hget. destruct (decide (name = "__proto__")) as [->|Hp].
  - unfold mmGet, mmSet in *.
    rewrite (decide_False (P := name' = "__proto__")) by done. simpl.
    by rewrite decide_True in * by done.
  - apply mmGet_Found_own in Hget; [|done].
    unfold mmGet, mmSet.
    destruct (decide (name' = "__proto__")); simpl; rewrite decide_False by done.
    + by rewrite Hget.
    + rewrite lookup_insert_ne by done. by rewrite Hget.
Qed.

Lemma materialTable_snoc body node :
  materialTable (body ++ [node]) = tableStep (materialTable body) node.
Proof. unfold materialTable. by rewrite foldl_app. Qed.

(** a material that the program defines is in the table under its name *)
Lemma materialTable_defined body M :
  (∃ ps, Material M ps ∈ body) →
  ∃ ps, Material M ps ∈ body ∧ mmGet (materialTable body) M = Found (Material M ps).
Proof.
  induction body as [|node body IH] using rev_ind; intros [ps Hin].
  - by apply elem_of_nil in Hin.
  - rewrite materialTable_snoc.
    destruct node as [n ps' ch|n ps'|c ps'].
    + apply elem_of_app in Hin as [Hin|Hin%list_elem_of_singleton]; [|done].
      destruct IH as (ps0 & Hin0 & Hget); [by eexists|].
      exists ps0. split; [apply elem_of_app; by left|done].
    + destruct (decide (n = M)) as [->|Hne].
      * exists ps'. split; [apply elem_of_app; right; by apply list_elem_of_singleton|].
        apply mmGet_mmSet_eq.
      * apply elem_of_app in Hin as [Hin|Hin%list_elem_of_singleton]; [|congruence].
        destruct IH as (ps0 & Hin0 & Hget); [by eexists|].
        exists ps0. split; [apply elem_of_app; by left|].
        by apply mmGet_mmSet_ne.
    + apply elem_of_app in Hin as [Hin|Hin%list_elem_of_singleton]; [|done].
      destruct IH as (ps0 & Hin0 & Hget); [by eexists|].
      exists ps0. split; [apply elem_of_app; by left|done].
Qed.

Section ReferenceFacts.
Context `{Host}.

Lemma forEachAssign_fmap R (f : Property → Property) init ps :
  forEachAssign R init (f <$> ps) = forEachAssign (λ p, R (f p)) init ps.
Proof. revert init. induction ps as [|p ps IH]; intros init; [done|]. simpl. apply IH. Qed.

(** what a reference to a stored material merges into the declarations *)
Lemma reference_inline depth m k M node css :
  k = "use" ∨ k = "material" →
  mmGet m M = Found node →
  let referred :=
    (resolved ← resolveSurfaceProp depth k M m; Ok (Js.assign css resolved)) in
  referred ≠ Throw RangeError →
  forEachAssign (λ p, resolveSurfaceProp depth (key p) (value p) m) (Ok css)
    (inlineMaterial node) = referred.
Proof.
  intros Hk Hget referred Hne. subst referred.
  assert (resolveSurfaceProp depth k M m =
          match depth with S d => resolveMaterialNode d node m | O => Throw RangeError end)
    as Heq.
  { rewrite resolveSurfaceProp_unfold, Hget.
    destruct Hk as [-> | ->]; done. }
  rewrite Heq in *. destruct depth as [|d]; [done|].
  unfold inlineMaterial. rewrite forEachAssign_fmap.
  unfold resolveMaterialNode in *.
  rewrite <-(forEachAssign_from _ css []) in * by apply wf_nil.
  rewrite assign_nil in *.
  erewrite forEachAssign_ext; [eapply forEachAssign_agree; [|reflexivity|exact Hne]|].
  - intros p _ Hp. instantiate (1 := materialProp (λ k v, resolveSurfaceProp (S d) k v m)).
    unfold materialProp in *. destruct (String.eqb (key p) "color"); [done|].
    by apply resolveSurfaceProp_mono.
  - intros p _. unfold materialProp. simpl.
    destruct (String.eqb (key p) "color") eqn:Hc; [|done].
    simpl. apply surfaceSwitch_background.
Qed.

End ReferenceFacts.

(** ** Facts: strings and identifiers *)

Module StrFacts.

Lemma app_nil_r s : s +:+ "" = s.
Proof. induction s; simpl; [done|]. unfold String.app in *. simpl. by f_equal. Qed.

Lemma app_assoc s1 s2 s3 : (s1 +:+ s2) +:+ s3 = s1 +:+ s2 +:+ s3.
Proof. induction s1; [done|]. unfold String.app in *. simpl. by f_equal. Qed.

Lemma app_cons c s1 s2 : String c s1 +:+ s2 = String c (s1 +:+ s2).
Proof. done. Qed.

Lemma join_cons sep x y l :
  Str.join sep (x :: y :: l) = x +:+ sep +:+ Str.join sep (y :: l).
Proof. done. Qed.

(** a run of digits ends where the first other character stands *)
Lemma digits_prefix d1 d2 c x y :
  Str.all Chars.isDigit d1 = true → Str.all Chars.isDigit d2 = true →
  Chars.isDigit c = false →
  d1 +:+ String c x = d2 +:+ String c y → d1 = d2.
Proof.
  revert d2. induction d1 as [|a d1 IH]; intros [|b d2]; simpl; intros H1 H2 Hc Heq.
  - done.
  - rewrite app_cons in Heq. injection Heq as -> _.
    apply andb_true_iff in H2 as [? _]. congruence.
  - rewrite app_cons in Heq. injection Heq as -> _.
    apply andb_true_iff in H1 as [? _]. congruence.
  - rewrite !app_cons in Heq. injection Heq as -> Heq.
    apply andb_true_iff in H1 as [_ ?]. apply andb_true_iff in H2 as [_ ?].
    f_equal. eauto.
Qed.

Lemma pretty_N_char_digit x : Chars.isDigit (pretty_N_char x) = true.
Proof. unfold pretty_N_char. by repeat case_match. Qed.

Lemma pretty_N_go_digits x s :
  Str.all Chars.isDigit s = true → Str.all Chars.isDigit (pretty_N_go x s) = true.
Proof.
  revert s. induction (N.lt_wf_0 x) as [x _ IH]; intros s Hs.
  destruct (decide (x = 0%N)) as [->|Hx].
  - by rewrite pretty_N_go_0.
  - rewrite pretty_N_go_step by lia. apply IH.
    + apply N.div_lt; lia.
    + simpl. by rewrite pretty_N_char_digit, Hs.
Qed.

Lemma pretty_N_digits (x : N) : Str.all Chars.isDigit (pretty x) = true.
Proof.
  unfold pretty, pretty_N. case_decide; [done|]. by apply pretty_N_go_digits.
Qed.

(** the number printed in an identifier is read back from the text *)
Lemma id_prefix_inj (a b : N) x y :
  "#lm" +:+ pretty a +:+ " { " +:+ x = "#lm" +:+ pretty b +:+ " { " +:+ y → a = b.
Proof.
  intros Heq. injection Heq as Heq.
  apply (inj pretty).
  eapply digits_prefix; [apply pretty_N_digits..| |exact Heq]. done.
Qed.

End StrFacts.
Import StrFacts.

(** ** Facts: the counter and the rules of a compilation *)


Lemma Node_ind_children (P : Node → Prop) :
  (∀ name ps children, Forall P children → P (Surface name ps children)) →
  (∀ name ps, P (Material name ps)) →
  (∀ content ps, P (Text content ps)) →
  ∀ node, P node.
Proof.
  intros HS HM HT. fix IH 1. intros [name ps children|name ps|content ps].
  - apply HS. induction children as [|child children IHc]; constructor; [apply IH|apply IHc].
  - apply HM.
  - apply HT.
Qed.

Section CompileFacts.
Context `{Host}.

Lemma compileSurface_Surface depth m name ps children c :
  compileSurface depth m (Surface name ps children) c =
  let id := "lm" +:+ pretty (N.succ c) in
  match surfaceDeclarations depth m ps with
  | Ok css =>
      match forEachChild (compileChild depth m) children [] (N.succ c) with
      | (Ok rs, counter) =>
          (Ok (mkCompiled id
                 (Str.join (String Chars.LF "") (ruleBlock id css :: map Compiled.css rs))
                 (surfaceOpen id name
                  +:+ Str.join (String Chars.LF "") (map Compiled.html rs)
                  +:+ "</div>")),
           counter)
      | (Throw e, counter) => (Throw e, counter)
      | (Fuel, counter) => (Fuel, counter)
      end
  | Throw e => (Throw e, N.succ c)
  | Fuel => (Fuel, N.succ c)
  end.
Proof. destruct depth; reflexivity. Qed.

Lemma compileSurface_other depth m node c :
  isSurface node = false →
  ∃ r, compileSurface depth m node c = (r, N.succ c) ∧ isOk r = false.
Proof.
  destruct node as [n ps ch|n ps|content ps]; [done|..]; intros _.
  - destruct depth; simpl;
      destruct (surfaceDeclarations _ m ps); eauto.
  - destruct depth; simpl;
      destruct (surfaceDeclarations _ m ps); eauto.
Qed.

(** the counter after a surface and its children *)
Lemma forEachChild_counter (f : Node → N → res Compiled * N) children done c r c' :
  Forall (λ child, ∀ c r c', f child c = (r, c') →
            (c ≤ c')%N ∧ (isOk r = true → c' = (c + rendered child)%N)) children →
  forEachChild f children done c = (r, c') →
  (c ≤ c')%N ∧ (isOk r = true → c' = (c + renderedAll children)%N).
Proof.
  intros Hf. revert done c. induction Hf as [|child children Hchild _ IH];
    intros done c Hrun; simpl in Hrun.
  - injection Hrun as <- <-. simpl. split; [lia|intros _; lia].
  - destruct child as [name ps ch|name ps|content ps].
    + destruct (f _ c) as [[r1|e|] c1] eqn:Hc.
      * apply Hchild in Hc as [Hlt Heq]. apply IH in Hrun as [Hle Heq'].
        split; [lia|]. intros Hok. rewrite Heq', Heq by done. simpl. lia.
      * apply Hchild in Hc as [Hlt _]. injection Hrun as <- <-. split; [lia|done].
      * apply Hchild in Hc as [Hlt _]. injection Hrun as <- <-. split; [lia|done].
    + apply IH in Hrun as [Hle Heq']. split; [done|].
      intros Hok. rewrite Heq' by done. simpl. lia.
    + simpl in Hrun. apply IH in Hrun as [Hle Heq'].
      split; [lia|]. intros Hok. rewrite Heq' by done. simpl. lia.
Qed.

Lemma compileChild_counter depth m child :
  (∀ depth c r c', compileSurface depth m child c = (r, c') →
     (c < c')%N ∧ (isOk r = true → c' = (c + rendered child)%N)) →
  ∀ c r c', compileChild depth m child c = (r, c') →
    (c ≤ c')%N ∧ (isOk r = true → c' = (c + rendered child)%N).
Proof.
  intros Hchild c r c' Hrun. destruct depth as [|depth]; simpl in Hrun.
  - injection Hrun as <- <-. split; [lia|done].
  - apply Hchild in Hrun as [Hlt Heq]. split; [lia|done].
Qed.

Lemma compileSurface_counter depth m node c r c' :
  compileSurface depth m node c = (r, c') →
  (c < c')%N ∧ (isOk r = true → c' = (c + rendered node)%N).
Proof.
  revert depth c r c'. induction node as [name ps children IH|name ps|content ps]
    using Node_ind_children; intros depth c r c' Hrun.
  - rewrite compileSurface_Surface in Hrun. cbv zeta in Hrun.
    assert (Forall (λ child, ∀ c r c', compileChild depth m child c = (r, c') →
              (c ≤ c')%N ∧ (isOk r = true → c' = (c + rendered child)%N)) children)
      as IH'.
    { eapply Forall_impl; [exact IH|]. intros child. apply compileChild_counter. }
    destruct (surfaceDeclarations depth m ps) as [css|e|].
    + destruct (forEachChild _ children [] (N.succ c)) as [[rs|e|] c1] eqn:Hch;
        injection Hrun as <- <-;
        eapply forEachChild_counter in Hch as [Hle Heq]; try exact IH';
        (split; [lia|]); try done.
      intros _. rewrite Heq by done. simpl. unfold renderedAll. lia.
    + injection Hrun as <- <-. split; [lia|done].
    + injection Hrun as <- <-. split; [lia|done].
  - destruct (compileSurface_other depth m (Material name ps) c) as (r0 & Heq & Hno); [done|].
    rewrite Heq in Hrun. injection Hrun as <- <-. split; [lia|congruence].
  - destruct (compileSurface_other depth m (Text content ps) c) as (r0 & Heq & Hno); [done|].
    rewrite Heq in Hrun. injection Hrun as <- <-. split; [lia|congruence].
Qed.

(** the rule of a surface leads its text, under the identifier drawn first *)
Lemma compileSurface_css_prefix depth m node c r c' :
  compileSurface depth m node c = (Ok r, c') →
  ∃ rest, Compiled.css r = "#lm" +:+ pretty (N.succ c) +:+ " { " +:+ rest.
Proof.
  destruct node as [name ps children|name ps|content ps].
  - rewrite compileSurface_Surface. cbv zeta.
    destruct (surfaceDeclarations depth m ps) as [o|e|]; [|done..].
    destruct (forEachChild _ children [] (N.succ c)) as [[rs|e|] c1]; [|done..].
    intros [= <- <-]. cbn [Compiled.css]. unfold ruleBlock.
    destruct (map Compiled.css rs) as [|x l].
    + cbn [Str.join]. rewrite app_assoc. eexists. reflexivity.
    + rewrite !app_assoc. eexists. reflexivity.
  - intros Hrun. destruct (compileSurface_other depth m (Material name ps) c) as (r0 & Heq & Hno); [done|].
    rewrite Heq in Hrun. injection Hrun as -> _. done.
  - intros Hrun. destruct (compileSurface_other depth m (Text content ps) c) as (r0 & Heq & Hno); [done|].
    rewrite Heq in Hrun. injection Hrun as -> _. done.
Qed.

Lemma compileBody_spec depth m body done c r c1 :
  compileBody depth m body done c = (r, c1) →
  (c ≤ c1)%N ∧
  ∀ results, r = Ok results →
    ∃ new, results = done ++ new ∧
      (existsb isSurface body = true →
       (c < c1)%N ∧ ∃ first others rest, new = first :: others ∧
          Compiled.css first = "#lm" +:+ pretty (N.succ c) +:+ " { " +:+ rest).
Proof.
  revert done c. induction body as [|node body IH]; intros done c Hrun; simpl in Hrun.
  - injection Hrun as <- <-. split; [lia|]. intros results [= <-].
    exists []. by rewrite List.app_nil_r.
  - destruct node as [name ps children|name ps|content ps].
    + destruct (compileSurface _ _ _ c) as [[r1|e|] c'] eqn:Hc.
      * pose proof (compileSurface_counter _ _ _ _ _ _ Hc) as [Hlt _].
        pose proof (compileSurface_css_prefix _ _ _ _ _ _ Hc) as [rest Hrest].
        apply IH in Hrun as [Hle Hres]. split; [lia|].
        intros results ->. destruct (Hres _ eq_refl) as (new & -> & _).
        exists (r1 :: new). split; [by rewrite <-List.app_assoc|].
        intros _. split; [lia|]. by exists r1, new, rest.
      * pose proof (compileSurface_counter _ _ _ _ _ _ Hc) as [Hlt _].
        injection Hrun as <- <-. split; [lia|done].
      * pose proof (compileSurface_counter _ _ _ _ _ _ Hc) as [Hlt _].
        injection Hrun as <- <-. split; [lia|done].
    + apply IH in Hrun as [Hle Hres]. split; [done|]. intros results ->.
      destruct (Hres _ eq_refl) as (new & -> & Hs). exists new. split; [done|]. apply Hs.
    + apply IH in Hrun as [Hle Hres]. split; [done|]. intros results ->.
      destruct (Hres _ eq_refl) as (new & -> & Hs). exists new. split; [done|]. apply Hs.
Qed.

Lemma compile_counter_le depth ast c r c1 :
  compile depth ast c = (r, c1) → (c ≤ c1)%N.
Proof.
  unfold compile. destruct (compileBody _ _ ast [] c) as [[rs|e|] c'] eqn:Hb;
    intros [= <- <-]; by apply compileBody_spec in Hb as [? _].
Qed.

Lemma compile_first_rule depth ast c out c1 :
  existsb isSurface ast = true →
  compile depth ast c = (Ok out, c1) →
  (c < c1)%N ∧ ∃ rest, outCss out = "#lm" +:+ pretty (N.succ c) +:+ " { " +:+ rest.
Proof.
  intros Hs. unfold compile.
  destruct (compileBody _ _ ast [] c) as [[rs|e|] c'] eqn:Hb; intros [= <- <-].
  apply compileBody_spec in Hb as [_ Hres].
  destruct (Hres _ eq_refl) as (new & -> & Hfirst).
  destruct (Hfirst Hs) as (Hlt & first & others & rest & -> & Hcss).
  split; [done|]. cbn [outCss app map]. rewrite Hcss.
  destruct (map Compiled.css others) as [|x l].
  - by exists rest.
  - rewrite join_cons. rewrite !app_assoc. eexists. reflexivity.
Qed.

End CompileFacts.

(** ** Facts: chains of surfaces *)


Section ChainFacts.
Context `{Host}.






End ChainFacts.


Section CounterFacts.
Context `{Host}.

Lemma forEachChild_ok_indep (f : Node → N → res Compiled * N) children :
  Forall (λ child, ∀ c c', isOk (f child c).1 = isOk (f child c').1) children →
  ∀ acc acc' c c',
    isOk (forEachChild f children acc c).1 = isOk (forEachChild f children acc' c').1.
Proof.
  induction 1 as [|child children Hchild _ IH]; intros acc acc' c c'; [done|].
  cbn [forEachChild]. destruct child as [n ps ch|n ps|content ps].
  - specialize (Hchild c c').
    destruct (f _ c) as [[r|e|] c1], (f _ c') as [[r'|e'|] c1']; simpl in *;
      done || apply IH.
  - apply IH.
  - simpl. apply IH.
Qed.

Lemma compileSurface_ok_indep depth m node :
  ∀ c c', isOk (compileSurface depth m node c).1 = isOk (compileSurface depth m node c').1.
Proof.
  revert depth.
  induction node as [name ps children IH|name ps|content ps] using Node_ind_children;
    intros depth c c'.
  - rewrite !compileSurface_Surface. cbv zeta.
    destruct (surfaceDeclarations depth m ps); [|done..].
    assert (Forall (λ child, ∀ c c', isOk (compileChild depth m child c).1
                                     = isOk (compileChild depth m child c').1) children)
      as IH'.
    { eapply Forall_impl; [exact IH|]. intros child Hchild. destruct depth; [done|].
      apply Hchild. }
    pose proof (forEachChild_ok_indep _ children IH' [] [] (N.succ c) (N.succ c')) as Hch.
    destruct (forEachChild _ children [] (N.succ c)) as [[rs|e|] c1],
             (forEachChild _ children [] (N.succ c')) as [[rs'|e'|] c1']; done.
  - destruct (compileSurface_other depth m (Material name ps) c) as (r & -> & Hr); [done|].
    destruct (compileSurface_other depth m (Material name ps) c') as (r' & -> & Hr'); [done|].
    simpl. congruence.
  - destruct (compileSurface_other depth m (Text content ps) c) as (r & -> & Hr); [done|].
    destruct (compileSurface_other depth m (Text content ps) c') as (r' & -> & Hr'); [done|].
    simpl. congruence.
Qed.

Lemma compileBody_ok_indep depth m body :
  ∀ acc acc' c c',
    isOk (compileBody depth m body acc c).1 = isOk (compileBody depth m body acc' c').1.
Proof.
  induction body as [|node body IH]; intros acc acc' c c'; [done|].
  cbn [compileBody]. destruct node as [n ps ch|n ps|content ps]; [|apply IH..].
  pose proof (compileSurface_ok_indep depth m (Surface n ps ch) c c') as Hs.
  destruct (compileSurface _ _ _ c) as [[r|e|] c1],
           (compileSurface _ _ _ c') as [[r'|e'|] c1']; simpl in *; done || apply IH.
Qed.

(** whether a program compiles does not depend on the counter *)
Lemma compile_ok_indep depth ast c c' :
  isOk (compile depth ast c).1 = isOk (compile depth ast c').1.
Proof.
  unfold compile.
  pose proof (compileBody_ok_indep depth (materialTable ast) ast [] [] c c') as Hb.
  destruct (compileBody _ _ ast [] c) as [[r|e|] c1],
           (compileBody _ _ ast [] c') as [[r'|e'|] c1']; done.
Qed.

End CounterFacts.

(** ** Facts: the declarations of a node *)


Section DeclarationFacts.
Context `{Host}.

Lemma forEachAssign_wf R base ps css :
  Js.wf base → forEachAssign R (Ok base) ps = Ok css → Js.wf css.
Proof.
  revert base. induction ps as [|p ps IH]; intros base Hwf Hrun.
  - by injection Hrun as <-.
  - rewrite forEachAssign_cons in Hrun. destruct (R p) as [r|e|]; simpl in Hrun.
    + eapply IH; [|exact Hrun]. by apply wf_assign.
    + by rewrite forEachAssign_Throw in Hrun.
    + by rewrite forEachAssign_Fuel in Hrun.
Qed.

Lemma forEachAssign_Ok_inv R init ps css :
  forEachAssign R init ps = Ok css → ∃ base, init = Ok base.
Proof.
  destruct init as [base|e|]; [eauto|..]; intros Hrun.
  - by rewrite forEachAssign_Throw in Hrun.
  - by rewrite forEachAssign_Fuel in Hrun.
Qed.

(** a key that no property resolves to keeps its value *)
Lemma forEachAssign_get_other R base ps css k :
  (∀ q o, q ∈ ps → R q = Ok o → Js.get o k = None) →
  forEachAssign R (Ok base) ps = Ok css → Js.get css k = Js.get base k.
Proof.
  revert base. induction ps as [|p ps IH]; intros base Hno Hrun.
  - by injection Hrun as <-.
  - rewrite forEachAssign_cons in Hrun. destruct (R p) as [r|e|] eqn:Hp; simpl in Hrun.
    + erewrite IH; [|intros q o Hq; apply Hno; apply elem_of_cons; by right|exact Hrun].
      apply get_assign_None. eapply Hno; [|exact Hp]. apply elem_of_cons. by left.
    + by rewrite forEachAssign_Throw in Hrun.
    + by rewrite forEachAssign_Fuel in Hrun.
Qed.

(** the last property that resolves to a key decides its value *)
Lemma forEachAssign_last R base props1 p props3 o k v css :
  Js.wf base → k ≠ "__proto__" →
  R p = Ok o → NoDup o.*1 → (k, v) ∈ o →
  (∀ q o' v', q ∈ props3 → R q = Ok o' → (k, v') ∉ o') →
  forEachAssign R (Ok base) (props1 ++ p :: props3) = Ok css →
  ∀ v', (k, v') ∈ css ↔ v' = v.
Proof.
  intros Hbase Hk Hp Hnd Hin Hlater Hrun v'.
  assert (Js.wf css) as [Hcss _] by (by eapply forEachAssign_wf).
  rewrite (elem_of_get css) by done.
  rewrite forEachAssign_app in Hrun.
  pose proof Hrun as Hmid. apply forEachAssign_Ok_inv in Hmid as [mid Hmid].
  rewrite Hmid in Hrun. rewrite forEachAssign_cons, Hp in Hrun. simpl in Hrun.
  erewrite forEachAssign_get_other; [| |exact Hrun].
  - rewrite (get_assign_Some mid o k v); [naive_solver|done..|].
    by apply elem_of_get.
  - intros q o' Hq Ho'. destruct (Js.get o' k) as [v0|] eqn:Hg; [|done].
    exfalso. eapply (Hlater q o' v0); [done..|].
    clear -Hg. induction o' as [|[k0 w] o' IH]; simpl in *; [done|].
    destruct (decide (k0 = k)) as [->|]; [injection Hg as ->; apply elem_of_cons; by left|].
    apply elem_of_cons. right. auto.
Qed.

Lemma textDeclarations_forEach props :
  Ok (textDeclarations props) =
  forEachAssign (λ prop, Ok (resolveTextProp (key prop) (value prop)))
    (Ok textDefaults) props.
Proof.
  unfold textDeclarations. generalize textDefaults.
  induction props as [|p ps IH]; intros base; [done|]. simpl. apply IH.
Qed.

Lemma declarations_forEach depth m node :
  ∃ base, Js.wf base ∧
    declarations depth m node =
    forEachAssign (resolveProp depth m node) (Ok base) (properties node).
Proof.
  destruct node as [name ps children|name ps|content ps]; simpl.
  - exists surfaceDefaults. split; [|done].
    split; apply (bool_decide_unpack _); by vm_compute.
  - exists []. split; [apply wf_nil|done].
  - exists textDefaults. split; [|apply textDeclarations_forEach].
    split; apply (bool_decide_unpack _); by vm_compute.
Qed.

End DeclarationFacts.


Section UniqueKeys.
Context `{Host}.

Lemma NoDup_single (k : string) (v : jsval) : NoDup [(k, v)].*1.
Proof. apply NoDup_singleton. Qed.

Lemma resolveMaterialValue_NoDup v : NoDup (resolveMaterialValue v).*1.
Proof.
  unfold resolveMaterialValue. destruct (parseFn v) as [[name args]|];
    repeat case_match; try apply NoDup_single;
    apply (bool_decide_unpack _); by vm_compute.
Qed.

Lemma surfaceSwitch_NoDup named k v o :
  (∀ r, named = Some (Ok r) → NoDup r.*1) →
  surfaceSwitch named k v = Ok o → NoDup o.*1.
Proof.
  intros Hnamed. unfold surfaceSwitch.
  repeat case_match; intros; simplify_eq; try apply NoDup_single;
    try apply resolveMaterialValue_NoDup; try (by apply Hnamed);
    try apply NoDup_nil_2;
    apply (bool_decide_unpack _); by vm_compute.
Qed.

Lemma resolveMaterialNode_wf depth node m o :
  resolveMaterialNode depth node m = Ok o → Js.wf o.
Proof. unfold resolveMaterialNode. apply forEachAssign_wf, wf_nil. Qed.

Lemma resolveSurfaceProp_NoDup depth k v m o :
  resolveSurfaceProp depth k v m = Ok o → NoDup o.*1.
Proof.
  rewrite resolveSurfaceProp_unfold. apply surfaceSwitch_NoDup.
  intros r Hr. destruct (mmGet m v); [|done..].
  destruct depth; [done|]. injection Hr as Hr.
  by apply resolveMaterialNode_wf in Hr as [? _].
Qed.

Lemma resolveProp_NoDup depth m node p o :
  resolveProp depth m node p = Ok o → NoDup o.*1.
Proof.
  destruct node; simpl.
  - apply resolveSurfaceProp_NoDup.
  - unfold materialProp. case_match; [intros [= <-]; apply NoDup_single|].
    apply resolveSurfaceProp_NoDup.
  - intros [= <-]. unfold resolveTextProp. repeat case_match; apply NoDup_single.
Qed.

(** the last property of a node that resolves to a key decides the
    declaration of the key *)
Lemma declarations_last depth m node props1 p props3 o k v css :
  properties node = props1 ++ p :: props3 →
  k ≠ "__proto__" →
  resolveProp depth m node p = Ok o → (k, v) ∈ o →
  (∀ q o' v', q ∈ props3 → resolveProp depth m node q = Ok o' → (k, v') ∉ o') →
  declarations depth m node = Ok css →
  ∀ v', (k, v') ∈ css ↔ v' = v.
Proof.
  intros Hprops Hk Hp Hin Hlater Hrun.
  destruct (declarations_forEach depth m node) as (base & Hbase & Heq).
  rewrite Heq, Hprops in Hrun.
  eapply forEachAssign_last; eauto. by eapply resolveProp_NoDup.
Qed.

End UniqueKeys.


Lemma materialTable_own_None body v :
  v ≠ "__proto__" → (∀ ps, Material v ps ∉ body) → own (materialTable body) !! v = None.
Proof.
  intros Hv. induction body as [|node body IH] using rev_ind; intros Hno; [done|].
  rewrite materialTable_snoc.
  assert (own (materialTable body) !! v = None) as Hown.
  { apply IH. intros ps Hin. apply (Hno ps). apply elem_of_app. by left. }
  destruct node as [n ps ch|n ps|c ps]; simpl; [done| |done].
  unfold mmSet. case_decide; simpl; [done|].
  rewrite lookup_insert_ne; [done|]. intros ->. apply (Hno ps).
  apply elem_of_app. right. by apply list_elem_of_singleton.
Qed.

Lemma materialTable_proto_None body :
  (∀ ps, Material "__proto__" ps ∉ body) → protoNode (materialTable body) = None.
Proof.
  induction body as [|node body IH] using rev_ind; intros Hno; [done|].
  rewrite materialTable_snoc.
  assert (protoNode (materialTable body) = None) as Hp.
  { apply IH. intros ps Hin. apply (Hno ps). apply elem_of_app. by left. }
  destruct node as [n ps ch|n ps|c ps]; simpl; [done| |done].
  unfold mmSet. case_decide as Hn; simpl; [|done]. subst n. destruct (Hno ps).
  apply elem_of_app. right. by apply list_elem_of_singleton.
Qed.

Lemma mmGet_Absent m v :
  own m !! v = None → protoNode m = None → isObjectProtoName v = false →
  mmGet m v = Absent.
Proof.
  intros Hown Hproto Hv. unfold mmGet. rewrite Hown, Hproto, Hv.
  case_decide as Hp; [|done]. subst v. done.
Qed.

Section TextFacts.
Context `{Host}.

(** a declaration of the object is in its text, up to the next separator *)
Lemma cssObjectToString_elem css k v :
  (k, v) ∈ css →
  ∃ pre post, cssObjectToString css = pre +:+ k +:+ ": " +:+ toText v +:+ post ∧
    (post = "" ∨ ∃ post', post = "; " +:+ post').
Proof.
  unfold cssObjectToString. induction css as [|[k0 v0] css IH]; intros Hin.
  - by apply elem_of_nil in Hin.
  - apply elem_of_cons in Hin as [[= <- <-]|Hin].
    + exists "". destruct css as [|kv css].
      * exists "". split; [|by left]. cbn [map Str.join fst snd]. by rewrite !app_nil_r.
      * eexists. split; [|right; eexists; reflexivity].
        cbn [map]. rewrite join_cons. cbn [fst snd]. by rewrite !app_assoc.
    + destruct (IH Hin) as (pre & post & Heq & Hpost).
      destruct css as [|kv css]; [by apply elem_of_nil in Hin|].
      exists (k0 +:+ ": " +:+ toText v0 +:+ "; " +:+ pre), post. split; [|done].
      cbn [map] in *. rewrite join_cons. rewrite Heq. cbn [fst snd].
      by rewrite !app_assoc.
Qed.

Lemma resolveMaterialValue_background value :
  ∃ v, Js.get (resolveMaterialValue value) "background" = Some v.
Proof.
  unfold resolveMaterialValue. destruct (parseFn value) as [[name args]|];
    repeat case_match; eauto.
Qed.

End TextFacts.


Section EmptyFacts.
Context `{Host}.

Lemma surfaceSwitch_empty named k :
  k ≠ "__proto__" → k ∉ ["layout"; "wrap"; "use"] →
  (k = "material" → named = None) →
  ∃ name, name ≠ "__proto__" ∧ surfaceSwitch named k "" = Ok [(name, VStr "")].
Proof.
  intros Hp Hk Hm. unfold surfaceSwitch.
  repeat (case_match; [eexists; split; [|reflexivity]; done|]).
  case_match eqn:Hmat.
  { apply String.eqb_eq in Hmat. rewrite (Hm Hmat). eexists; split; [|reflexivity]; done. }
  case_match eqn:Hu. { apply String.eqb_eq in Hu. set_solver. }
  case_match eqn:Hl. { apply String.eqb_eq in Hl. set_solver. }
  case_match. { eexists; split; [|reflexivity]; done. }
  case_match eqn:Hw. { apply String.eqb_eq in Hw. set_solver. }
  repeat (case_match; [eexists; split; [|reflexivity]; done|]).
  eexists; split; [|reflexivity]; done.
Qed.

Lemma resolveSurfaceProp_empty depth m k :
  k ≠ "__proto__" → k ∉ ["layout"; "wrap"; "use"] →
  (k = "material" → mmGet m "" = Absent) →
  ∃ name, name ≠ "__proto__" ∧ resolveSurfaceProp depth k "" m = Ok [(name, VStr "")].
Proof.
  intros Hp Hk Hm. rewrite resolveSurfaceProp_unfold.
  apply surfaceSwitch_empty; [done..|]. intros Hmat. by rewrite (Hm Hmat).
Qed.

Lemma resolveTextProp_empty k :
  k ≠ "__proto__" → k ≠ "wrap" →
  ∃ name, name ≠ "__proto__" ∧ resolveTextProp k "" = [(name, VStr "")].
Proof.
  intros Hp Hw. unfold resolveTextProp.
  repeat (case_match; [eexists; split; [|reflexivity]; done|]).
  case_match eqn:Hw'. { by apply String.eqb_eq in Hw'. }
  repeat (case_match; [eexists; split; [|reflexivity]; done|]).
  eexists; split; [|reflexivity]; done.
Qed.

Lemma resolveProp_empty depth m node k :
  declaresEmpty m node k →
  ∃ name, name ≠ "__proto__" ∧
    resolveProp depth m node (mkProperty k "") = Ok [(name, VStr "")].
Proof.
  intros [Hp Hk]. destruct node as [n ps ch|n ps|c ps]; simpl.
  - destruct Hk. by apply resolveSurfaceProp_empty.
  - unfold materialProp. simpl. case_match.
    + eexists; split; [|reflexivity]; done.
    + destruct Hk. by apply resolveSurfaceProp_empty.
  - destruct (resolveTextProp_empty k) as (name & ? & ->); eauto.
Qed.

End EmptyFacts.

(** ** Facts: the tokenizer *)


Module LexerFacts.
Import Lexer.

Lemma scan_skip pre ac s : scan (String.length pre) ac (pre +:+ s) = scan 0 ac s.
Proof. induction pre as [|c pre IH]; [by destruct s|]. apply IH. Qed.

Lemma scan_colon rest : scan 0 false (String ":" rest) = COLON :: scan 0 true rest.
Proof. reflexivity. Qed.

Lemma scan_newline ac nl rest :
  isNewline nl = true → scan 0 ac (String nl rest) = NEWLINE :: scan 0 false rest.
Proof. intros Hnl. cbn [scan]. by rewrite Hnl. Qed.

Lemma scan_value ch rest k :
  isNewline ch = false →
  let src := String ch rest in
  let blanks := Str.takeWhile isBlank src in
  let raw := readValue (Str.drop (String.length blanks) src) in
  String.length blanks + String.length raw = S k →
  scan 0 true src =
  (if Str.nonEmpty (Str.trimRight raw) then [VALUE (Str.trimRight raw)] else [])
    ++ scan k false rest.
Proof.
  intros Hnl src blanks raw Hk. unfold src. cbn [scan]. rewrite Hnl.
  fold src. fold blanks. fold raw. by rewrite Hk.
Qed.

Lemma isBlank_not_newline c : isBlank c = true → isNewline c = false.
Proof.
  unfold isBlank, isNewline. intros [Hc|Hc]%orb_true_iff; apply Ascii.eqb_eq in Hc as ->; done.
Qed.

Lemma isNewline_not_blank c : isNewline c = true → isBlank c = false.
Proof.
  unfold isBlank, isNewline. intros [Hc|Hc]%orb_true_iff; apply Ascii.eqb_eq in Hc as ->; done.
Qed.

Lemma takeWhile_all p s c rest :
  Str.all p s = true → p c = false → Str.takeWhile p (s +:+ String c rest) = s.
Proof.
  intros Hs Hc. induction s as [|a s IH].
  - simpl. by rewrite Hc.
  - simpl in Hs. apply andb_true_iff in Hs as [Ha Hs].
    change (Str.takeWhile p (String a (s +:+ String c rest)) = String a s).
    simpl. rewrite Ha. f_equal. auto.
Qed.

Lemma drop_app_length s t : Str.drop (String.length s) (s +:+ t) = t.
Proof. induction s as [|a s IH]; [by destruct t|]. apply IH. Qed.

(** a colon with nothing but blanks up to the line break: no VALUE *)
Lemma scan_colon_blank_line blanks nl rest :
  Str.all isBlank blanks = true → isNewline nl = true →
  scan 0 false (String ":" (blanks +:+ String nl rest)) =
  COLON :: NEWLINE :: scan 0 false rest.
Proof.
  intros Hb Hnl. rewrite scan_colon. f_equal.
  destruct blanks as [|b bs].
  - by apply scan_newline.
  - simpl in Hb. apply andb_true_iff in Hb as [Hb Hbs].
    rewrite app_cons.
    rewrite (scan_value b _ (String.length bs)).
    + rewrite <-app_cons.
      rewrite takeWhile_all by (simpl; try rewrite Hb; auto using isNewline_not_blank).
      rewrite drop_app_length. simpl readValue. rewrite Hnl. simpl.
      rewrite scan_skip. by apply scan_newline.
    + by apply isBlank_not_newline.
    + rewrite <-app_cons.
      rewrite takeWhile_all by (simpl; try rewrite Hb; auto using isNewline_not_blank).
      rewrite drop_app_length. simpl readValue. rewrite Hnl. simpl. lia.
Qed.

(** no word that [Object.prototype] has a member for is lexed as a name *)
Lemma scan_IDENT skip ac src word :
  IDENT word ∈ scan skip ac src → isKeyword word = false.
Proof.
  revert skip ac. induction src as [|ch rest IH]; intros skip ac.
  - simpl. intros ?%list_elem_of_singleton. done.
  - destruct skip as [|k]; [|apply IH].
    cbn [scan]. 
    repeat (case_match; try (by apply IH));
      rewrite ?elem_of_app, ?elem_of_cons, ?elem_of_nil;
      intros Hin; destruct_or?; simplify_eq; eauto; try done.
Qed.

End LexerFacts.
Import LexerFacts.

(** ** Facts: the parser *)

Module ParserFacts.
Import Parser.

Lemma bind_Ok {A B} (m : res A) (f : A → res B) b :
  m ≫= f = Ok b → ∃ a, m = Ok a ∧ f a = Ok b.
Proof. destruct m; simpl; eauto; done. Qed.

Lemma bind_not_Fuel {A B} (m : res A) (f : A → res B) :
  m ≠ Fuel → (∀ a, m = Ok a → f a ≠ Fuel) → m ≫= f ≠ Fuel.
Proof. destruct m; simpl; eauto. Qed.

Lemma expect_spec ty ts :
  expect ty ts ≠ Fuel ∧
  ∀ tok ts', expect ty ts = Ok (tok, ts') → ts = tok :: ts' ∧ type tok = ty.
Proof.
  destruct ts as [|tok ts]; simpl; [done|].
  case_decide; split; try done. by intros ?? [= -> ->].
Qed.

Lemma expectValue_spec ty ts :
  expectValue ty ts ≠ Fuel ∧
  ∀ v ts', expectValue ty ts = Ok (v, ts') → ∃ tok, ts = tok :: ts' ∧ type tok = ty.
Proof.
  unfold expectValue. destruct (expect_spec ty ts) as [Hf Hok].
  destruct (expect ty ts) as [[tok ts1]|e|]; simpl; try done.
  split; [done|]. intros v ts' [= <- <-]. destruct (Hok _ _ eq_refl). eauto.
Qed.

Lemma skipNewlines_spec ts :
  skipNewlines ts ≠ Fuel ∧
  ∀ ts', skipNewlines ts = Ok ts' →
    length ts' ≤ length ts ∧ skipNewlines ts' = Ok ts' ∧
    ∃ tok rest, ts' = tok :: rest ∧ tok ≠ NEWLINE.
Proof.
  induction ts as [|tok ts [IHf IH]]; simpl; [done|].
  destruct tok;
    try (split; [done|]; intros ts' [= <-];
         split; [done|]; split; [done|]; eexists _, _; split; done).
  simpl. split; [done|]. intros ts' Hts'. destruct (IH _ Hts') as (? & ? & ?).
  split; [lia|done].
Qed.

Lemma skipNewlines_length ts ts' : skipNewlines ts = Ok ts' → length ts' ≤ length ts.
Proof. intros Hs. by apply skipNewlines_spec in Hs as [? _]. Qed.

Lemma skipNewlines_idem ts ts' : skipNewlines ts = Ok ts' → skipNewlines ts' = Ok ts'.
Proof. intros Hs. by apply skipNewlines_spec in Hs as (_ & ? & _). Qed.

Lemma parseProperty_spec ts :
  parseProperty ts ≠ Fuel ∧
  ∀ prop ts', parseProperty ts = Ok (prop, ts') → length ts' < length ts.
Proof.
  unfold parseProperty. destruct ts as [|tok ts]; [done|].
  destruct (skipNewlines_spec ts) as [Hf Hok].
  destruct (skipNewlines ts) as [ts2|e|]; simpl; [|done..].
  destruct (Hok _ eq_refl) as (Hlen & _).
  repeat case_match; split; try done; intros prop ts' [= <- <-]; simpl in *; lia.
Qed.

(** a name that no colon follows is passed over: the loop goes on with what
    it had, at the next token that is no line break *)
Lemma parseProperty_no_colon tok ts ts' :
  skipNewlines ts = Ok ts' → (∀ rest, ts' ≠ COLON :: rest) →
  parseProperty (tok :: ts) = Ok (None, ts').
Proof.
  intros Hs Hc. unfold parseProperty. rewrite Hs. simpl.
  destruct ts' as [|[] ?]; try done. by destruct (Hc ts').
Qed.

Lemma surfaceLoop_no_colon depth fuel ps cs k ts ts' :
  skipNewlines ts = Ok ts' → (∀ rest, ts' ≠ COLON :: rest) →
  surfaceLoop depth (S fuel) ps cs (IDENT k :: ts) = surfaceLoop depth fuel ps cs ts'.
Proof.
  intros Hs Hc. cbn [surfaceLoop skipNewlines mbind res_bind].
  rewrite (parseProperty_no_colon _ _ _ Hs Hc). cbn [mbind res_bind].
  rewrite (skipNewlines_idem _ _ Hs). cbn [mbind res_bind option_list].
  by rewrite List.app_nil_r.
Qed.

Lemma propertyLoop_no_colon fuel ps k ts ts' :
  skipNewlines ts = Ok ts' → (∀ rest, ts' ≠ COLON :: rest) →
  propertyLoop (S fuel) ps (IDENT k :: ts) = propertyLoop fuel ps ts'.
Proof.
  intros Hs Hc. cbn [propertyLoop skipNewlines mbind res_bind].
  rewrite (parseProperty_no_colon _ _ _ Hs Hc). cbn [mbind res_bind].
  rewrite (skipNewlines_idem _ _ Hs). cbn [mbind res_bind option_list].
  by rewrite List.app_nil_r.
Qed.


Lemma bounded_Ok {A} n (a : A) ts : length ts ≤ n → bounded n (Ok (a, ts)).
Proof. intros Hle. split; [done|]. by intros ?? [= _ <-]. Qed.

Lemma bounded_Throw {A} n e : bounded (A := A) n (Throw e).
Proof. done. Qed.

Lemma bounded_le {A} n n' (r : res (A * list Token)) :
  bounded n r → n ≤ n' → bounded n' r.
Proof. intros [Hf Hok] Hle. split; [done|]. intros a ts' Hr. apply Hok in Hr. lia. Qed.

Lemma bounded_bind {A B} n k (m : res (A * list Token)) (f : A * list Token → res (B * list Token)) :
  bounded k m → (∀ a ts, length ts ≤ k → bounded n (f (a, ts))) → bounded n (m ≫= f).
Proof.
  intros [Hf Hok] Hnext. destruct m as [[a ts]|e|]; cbn [mbind res_bind]; [|done..].
  apply Hnext. by eapply Hok.
Qed.

Lemma bounded_skip {B} n ts (f : list Token → res (B * list Token)) :
  (∀ ts', length ts' ≤ length ts → bounded n (f ts')) → bounded n (skipNewlines ts ≫= f).
Proof.
  intros Hnext. destruct (skipNewlines_spec ts) as [Hf Hok].
  destruct (skipNewlines ts) as [ts'|e|]; cbn [mbind res_bind]; [|done..].
  apply Hnext. by destruct (Hok _ eq_refl).
Qed.

Lemma bounded_expect n ty ts :
  length ts ≤ S n → bounded n (expect ty ts).
Proof.
  intros Hle. destruct (expect_spec ty ts) as [Hf Hok]. split; [done|].
  intros tok ts' Hr. destruct (Hok _ _ Hr) as [-> _]. simpl in Hle. lia.
Qed.

Lemma bounded_expectValue n ty ts :
  length ts ≤ S n → bounded n (expectValue ty ts).
Proof.
  intros Hle. destruct (expectValue_spec ty ts) as [Hf Hok]. split; [done|].
  intros tok ts' Hr. destruct (Hok _ _ Hr) as (? & -> & _). simpl in Hle. lia.
Qed.

Lemma bounded_parseProperty n ts :
  length ts ≤ S n → bounded n (parseProperty ts).
Proof.
  intros Hle. destruct (parseProperty_spec ts) as [Hf Hok]. split; [done|].
  intros prop ts' Hr. apply Hok in Hr. lia.
Qed.

Lemma propertyLoop_bounded fuel : ∀ ps ts,
  length ts < fuel → bounded (length ts) (propertyLoop fuel ps ts).
Proof.
  induction fuel as [|fuel IH]; intros ps ts Hfuel; [lia|].
  cbn [propertyLoop].
  destruct ts as [|tok ts0]; [apply bounded_Throw|].
  assert (bounded (length (tok :: ts0))
    (ts1 ← skipNewlines (tok :: ts0);
     match ts1 with
     | [] => Throw TypeError
     | RBRACE :: _ => Ok (ps, ts1)
     | IDENT _ :: _ =>
         '(prop, ts2) ← parseProperty ts1;
         ts3 ← skipNewlines ts2; propertyLoop fuel (ps ++ option_list prop) ts3
     | _ :: ts2 => ts3 ← skipNewlines ts2; propertyLoop fuel ps ts3
     end)) as Hbody.
  { apply bounded_skip. intros ts1 Hlen1. destruct ts1 as [|tok1 ts2]; [apply bounded_Throw|].
    cbn [length] in *.
    destruct tok1;
      try (apply bounded_skip; intros ts3 Hlen3;
           eapply bounded_le; [apply IH|]; lia).
    - eapply bounded_bind; [apply (bounded_parseProperty (length ts2)); simpl; lia|].
      intros prop ts2' Hlen2. apply bounded_skip. intros ts3 Hlen3.
      eapply bounded_le; [apply IH|]; lia.
    - apply bounded_Ok. simpl. lia. }
  destruct tok; try exact Hbody; by apply bounded_Ok.
Qed.

Lemma bounded_expect_bind {B} n ty ts (f : Token * list Token → res (B * list Token)) :
  (∀ tok ts', ts = tok :: ts' → bounded n (f (tok, ts'))) →
  bounded n (expect ty ts ≫= f).
Proof.
  intros Hnext. destruct (expect_spec ty ts) as [Hf Hok].
  destruct (expect ty ts) as [[tok ts']|e|]; cbn [mbind res_bind]; [|done..].
  apply Hnext. by destruct (Hok _ _ eq_refl).
Qed.

Lemma bounded_expectValue_bind {B} n ty ts (f : string * list Token → res (B * list Token)) :
  (∀ v tok ts', ts = tok :: ts' → bounded n (f (v, ts'))) →
  bounded n (expectValue ty ts ≫= f).
Proof.
  intros Hnext. destruct (expectValue_spec ty ts) as [Hf Hok].
  destruct (expectValue ty ts) as [[v ts']|e|]; cbn [mbind res_bind]; [|done..].
  destruct (Hok _ _ eq_refl) as (tok & -> & _). by eapply Hnext.
Qed.

Lemma parseMaterial_bounded fuel ts :
  length ts < fuel → bounded (length ts - 1) (parseMaterial fuel ts).
Proof.
  intros Hfuel. unfold parseMaterial.
  apply bounded_expect_bind. intros kw ts1 ->.
  apply bounded_expectValue_bind. intros name tok ts2 ->.
  apply bounded_skip. intros ts3 Hl3.
  apply bounded_expect_bind. intros lb ts4 ->.
  apply bounded_skip. intros ts5 Hl5. cbn [length] in *.
  apply (bounded_bind _ (length ts5)); [apply propertyLoop_bounded; lia|].
  intros ps ts6 Hl6.
  apply bounded_expect_bind. intros rb ts7 ->. cbn [length] in *.
  apply bounded_Ok. lia.
Qed.

Lemma parseText_bounded fuel ts :
  length ts < fuel → bounded (length ts - 1) (parseText fuel ts).
Proof.
  intros Hfuel. unfold parseText.
  apply bounded_expect_bind. intros kw ts1 ->.
  apply bounded_expectValue_bind. intros content tok ts2 ->.
  apply bounded_skip. intros ts3 Hl3. cbn [length] in *.
  destruct ts3 as [|tok3 ts4]; [apply bounded_Ok; cbn [length]; lia|].
  cbn [length] in Hl3.
  destruct tok3; try (apply bounded_Ok; cbn [length]; lia).
  apply bounded_skip. intros ts5 Hl5.
  apply (bounded_bind _ (length ts5)); [apply propertyLoop_bounded; lia|].
  intros ps ts6 Hl6.
  apply bounded_expect_bind. intros rb ts7 ->. cbn [length] in *.
  apply bounded_Ok. lia.
Qed.

Lemma surface_bounded fuel :
  (∀ depth ts, 2 * length ts < fuel →
     bounded (length ts - 1) (parseSurface depth fuel ts)) ∧
  (∀ depth ps cs ts, 2 * length ts + 1 < fuel →
     bounded (length ts) (surfaceLoop depth fuel ps cs ts)).
Proof.
  induction fuel as [|fuel [IHs IHl]]; [split; intros; lia|]. split.
  - intros depth ts Hfuel. cbn [parseSurface].
    apply bounded_expect_bind. intros kw ts1 ->.
    apply bounded_expectValue_bind. intros name tok ts2 ->.
    apply bounded_skip. intros ts3 Hl3.
    apply bounded_expect_bind. intros lb ts4 ->.
    apply bounded_skip. intros ts5 Hl5. cbn [length] in *.
    apply (bounded_bind _ (length ts5)); [apply IHl; lia|].
    intros [ps cs] ts6 Hl6.
    apply bounded_expect_bind. intros rb ts7 ->. cbn [length] in *.
    apply bounded_Ok. lia.
  - intros depth ps cs ts Hfuel. cbn [surfaceLoop].
    destruct ts as [|tok ts0]; [apply bounded_Throw|].
    assert (bounded (length (tok :: ts0))
      (ts1 ← skipNewlines (tok :: ts0);
       match ts1 with
       | [] => Throw TypeError
       | RBRACE :: _ => Ok (ps, cs, ts1)
       | KEYWORD "surface" :: _ =>
           '(child, ts2) ← match depth with
                           | S depth => parseSurface depth fuel ts1
                           | O => Throw RangeError
                           end;
           ts3 ← skipNewlines ts2; surfaceLoop depth fuel ps (cs ++ [child]) ts3
       | KEYWORD "text" :: _ =>
           '(child, ts2) ← parseText fuel ts1;
           ts3 ← skipNewlines ts2; surfaceLoop depth fuel ps (cs ++ [child]) ts3
       | IDENT _ :: _ =>
           '(prop, ts2) ← parseProperty ts1;
           ts3 ← skipNewlines ts2; surfaceLoop depth fuel (ps ++ option_list prop) cs ts3
       | _ :: ts2 => surfaceLoop depth fuel ps cs ts2
       end)) as Hbody.
    { apply bounded_skip. intros ts1 Hlen1.
      destruct ts1 as [|tok1 ts2]; [apply bounded_Throw|].
      cbn [length] in *.
      assert (∀ ps' cs' ts3, length ts3 ≤ length ts2 →
                bounded (S (length ts0)) (surfaceLoop depth fuel ps' cs' ts3)) as Hnext.
      { intros ps' cs' ts3 Hl3. apply (bounded_le (length ts3)); [apply IHl|]; lia. }
      assert (∀ (m : res (Node * list Token)),
                bounded (length ts2) m →
                bounded (S (length ts0))
                  ('(child, ts2') ← m;
                   ts3 ← skipNewlines ts2'; surfaceLoop depth fuel ps (cs ++ [child]) ts3))
        as Hchild.
      { intros m Hm. eapply bounded_bind; [exact Hm|].
        intros child ts2' Hl2. apply bounded_skip. intros ts3 Hl3.
        apply Hnext. lia. }
      destruct tok1; try (by apply Hnext); try (apply bounded_Ok; cbn [length]; lia).
      - repeat case_match; try (by apply Hnext); subst; apply Hchild;
          first
            [ apply bounded_Throw
            | apply (bounded_le (length (KEYWORD "surface" :: ts2) - 1));
                [apply IHs|]; cbn [length]; lia
            | apply (bounded_le (length (KEYWORD "text" :: ts2) - 1));
                [apply parseText_bounded|]; cbn [length]; lia ].
      - eapply bounded_bind; [apply (bounded_parseProperty (length ts2)); cbn [length]; lia|].
        intros prop ts2' Hl2. apply bounded_skip. intros ts3 Hl3. apply Hnext. lia. }
    destruct tok; try exact Hbody; by apply bounded_Ok.
Qed.

Lemma parseStatement_bounded depth fuel ts :
  2 * length ts < fuel → bounded (length ts - 1) (parseStatement depth fuel ts).
Proof.
  intros Hfuel. unfold parseStatement.
  assert (bounded (length ts - 1)
            ('(node, ts') ← parseSurface depth fuel ts; Ok (Some node, ts'))) as Hs.
  { eapply bounded_bind; [by apply surface_bounded|].
    intros node ts' Hl. by apply bounded_Ok. }
  assert (bounded (length ts - 1)
            ('(node, ts') ← parseMaterial fuel ts; Ok (Some node, ts'))) as Hm.
  { eapply bounded_bind; [apply parseMaterial_bounded; lia|].
    intros node ts' Hl. by apply bounded_Ok. }
  destruct ts as [|tok ts']; [apply bounded_Throw|].
  repeat case_match; subst; try done; apply bounded_Ok; cbn [length]; lia.
Qed.

Lemma programLoop_total depth fuel : ∀ body ts,
  2 * length ts + 1 < fuel → programLoop depth fuel body ts ≠ Fuel.
Proof.
  induction fuel as [|fuel IH]; intros body ts Hfuel; [lia|].
  cbn [programLoop]. destruct ts as [|tok ts']; [done|].
  assert (('(node, ts1) ← parseStatement depth fuel (tok :: ts');
           ts2 ← skipNewlines ts1; programLoop depth fuel (body ++ option_list node) ts2)
          ≠ Fuel) as Hbody.
  { destruct (parseStatement_bounded depth fuel (tok :: ts')) as [Hf Hok]; [lia|].
    destruct (parseStatement depth fuel (tok :: ts')) as [[node ts1]|e|];
      cbn [mbind res_bind]; [|done..].
    specialize (Hok _ _ eq_refl). cbn [length] in *.
    destruct (skipNewlines_spec ts1) as [Hf' Hok'].
    destruct (skipNewlines ts1) as [ts2|e|]; cbn [mbind res_bind]; [|done..].
    destruct (Hok' _ eq_refl) as [Hl _]. apply IH. lia. }
  by destruct tok.
Qed.

(** [parse] is given steps enough: it returns a tree or throws *)
Lemma parse_total depth tokens : parse depth tokens ≠ Fuel.
Proof.
  unfold parse, parseProgram.
  destruct (skipNewlines_spec tokens) as [Hf Hok].
  destruct (skipNewlines tokens) as [ts|e|]; cbn [mbind res_bind]; [|done..].
  destruct (Hok _ eq_refl) as [Hl _]. apply programLoop_total. lia.
Qed.

End ParserFacts.
Import ParserFacts.

(** ** Facts: where the keys of a program come from *)

Module KeyFacts.
Import Parser ParserFacts.

Local Ltac suffix_chain :=
  repeat first [assumption | eapply transitivity; [eassumption|]].

Lemma traced_Ok {A} ts (P : A → Prop) a ts' :
  ts' `suffix_of` ts → P a → traced ts P (Ok (a, ts')).
Proof. intros Hs HP a' ts'' [= <- <-]. done. Qed.

Lemma traced_Throw {A} ts (P : A → Prop) e : traced ts P (Throw e).
Proof. intros a ts' [=]. Qed.

Lemma traced_bind {A B} ts (Q : A → Prop) (P : B → Prop)
    (m : res (A * list Token)) (f : A * list Token → res (B * list Token)) :
  traced ts Q m →
  (∀ a ts1, ts1 `suffix_of` ts → Q a → traced ts P (f (a, ts1))) →
  traced ts P (m ≫= f).
Proof.
  intros Hm Hf. destruct m as [[a ts1]|e|]; cbn [mbind res_bind]; [|done..].
  destruct (Hm _ _ eq_refl). by apply Hf.
Qed.

Lemma traced_suffix {A} ts ts0 (P : A → Prop) r :
  ts0 `suffix_of` ts → traced ts0 P r → traced ts P r.
Proof.
  intros Hs Hr a ts' Heq. destruct (Hr _ _ Heq) as [Hs' HP].
  split; [by etrans|done].
Qed.

Lemma traced_impl {A} ts (P Q : A → Prop) r :
  (∀ a, P a → Q a) → traced ts P r → traced ts Q r.
Proof. intros HPQ Hr a ts' Heq. destruct (Hr _ _ Heq). auto. Qed.

Lemma skipNewlines_suffix ts ts' : skipNewlines ts = Ok ts' → ts' `suffix_of` ts.
Proof.
  revert ts'. induction ts as [|tok ts IH]; intros ts'; [done|].
  destruct tok; simpl; try (by intros [= <-]).
  intros Hs. apply suffix_cons_r. auto.
Qed.

Lemma traced_skip {B} ts ts0 (P : B → Prop) (f : list Token → res (B * list Token)) :
  ts0 `suffix_of` ts →
  (∀ ts1, ts1 `suffix_of` ts0 → traced ts P (f ts1)) →
  traced ts P (skipNewlines ts0 ≫= f).
Proof.
  intros Hs Hf. destruct (skipNewlines ts0) as [ts1|e|] eqn:Heq;
    cbn [mbind res_bind]; [|done..].
  apply Hf. by apply skipNewlines_suffix.
Qed.

Lemma traced_expect_bind {B} ts ts0 ty (P : B → Prop)
    (f : Token * list Token → res (B * list Token)) :
  (∀ tok ts1, ts0 = tok :: ts1 → traced ts P (f (tok, ts1))) →
  traced ts P (expect ty ts0 ≫= f).
Proof.
  intros Hf. destruct (expect_spec ty ts0) as [_ Hok].
  destruct (expect ty ts0) as [[tok ts1]|e|]; cbn [mbind res_bind]; [|done..].
  apply Hf. by destruct (Hok _ _ eq_refl).
Qed.

Lemma traced_expectValue_bind {B} ts ts0 ty (P : B → Prop)
    (f : string * list Token → res (B * list Token)) :
  (∀ v tok ts1, ts0 = tok :: ts1 → traced ts P (f (v, ts1))) →
  traced ts P (expectValue ty ts0 ≫= f).
Proof.
  intros Hf. destruct (expectValue_spec ty ts0) as [_ Hok].
  destruct (expectValue ty ts0) as [[v ts1]|e|]; cbn [mbind res_bind]; [|done..].
  destruct (Hok _ _ eq_refl) as (tok & -> & _). by eapply Hf.
Qed.

(** the key of a property is the name it was parsed at *)
Lemma parseProperty_traced k ts0 :
  traced (IDENT k :: ts0) (λ prop, ∀ p, prop = Some p → key p = k)
    (parseProperty (IDENT k :: ts0)).
Proof.
  unfold parseProperty. cbn [tvalue default].
  apply traced_skip; [by apply suffix_cons_r|]. intros ts1 Hs1.
  assert (ts1 `suffix_of` IDENT k :: ts0) as Hs by (by apply suffix_cons_r).
  destruct ts1 as [|tok1 ts2]; [apply traced_Ok; done|].
  destruct tok1; try (apply traced_Ok; done).
  destruct ts2 as [|tok2 ts3]; [apply traced_Throw|].
  assert (ts3 `suffix_of` IDENT k :: ts0) as Hs3.
  { do 2 apply suffix_cons_l in Hs. done. }
  assert (tok2 :: ts3 `suffix_of` IDENT k :: ts0) as Hs2 by (by apply suffix_cons_l in Hs).
  destruct tok2; apply traced_Ok; try done; by intros ? [= <-].
Qed.

Lemma keysFrom_refl ts ps : keysFrom ts ps ps.
Proof. intros p Hp. by left. Qed.

Lemma propertyLoop_traced fuel : ∀ ts ps ts0,
  ts0 `suffix_of` ts →
  traced ts (keysFrom ts ps) (propertyLoop fuel ps ts0).
Proof.
  induction fuel as [|fuel IH]; intros ts ps ts0 Hs0; [done|].
  cbn [propertyLoop]. destruct ts0 as [|tok ts0']; [apply traced_Throw|].
  assert (traced ts (keysFrom ts ps)
    (ts1 ← skipNewlines (tok :: ts0');
     match ts1 with
     | [] => Throw TypeError
     | RBRACE :: _ => Ok (ps, ts1)
     | IDENT _ :: _ =>
         '(prop, ts2) ← parseProperty ts1;
         ts3 ← skipNewlines ts2; propertyLoop fuel (ps ++ option_list prop) ts3
     | _ :: ts2 => ts3 ← skipNewlines ts2; propertyLoop fuel ps ts3
     end)) as Hbody.
  { apply traced_skip; [done|]. intros ts1 Hs1.
    assert (ts1 `suffix_of` ts) as Hs1' by (by etrans).
    destruct ts1 as [|tok1 ts2]; [apply traced_Throw|].
    assert (ts2 `suffix_of` ts) as Hs2 by (by apply suffix_cons_l in Hs1').
    destruct tok1;
      try (apply traced_skip; [done|]; intros ts3 Hs3; apply IH; by etrans).
    - eapply traced_bind;
        [eapply traced_suffix; [exact Hs1'|apply parseProperty_traced]|].
      intros prop ts2' Hs2' Hkey. apply traced_skip; [done|]. intros ts3 Hs3.
      eapply traced_impl; [|apply IH; by etrans].
      intros ps' Hps' p Hp. destruct (Hps' p Hp) as [Hin|Hin]; [|by right].
      apply elem_of_app in Hin as [Hin|Hin]; [by left|]. right.
      destruct prop as [p'|]; [|by apply elem_of_nil in Hin].
      apply list_elem_of_singleton in Hin as ->. rewrite (Hkey p' eq_refl).
      eapply elem_of_suffix; [|exact Hs1']. apply elem_of_cons. by left.
    - apply traced_Ok; [done|apply keysFrom_refl]. }
  destruct tok; try exact Hbody; apply traced_Ok; done || apply keysFrom_refl.
Qed.


Lemma keysFrom_nil ts ps p : keysFrom ts [] ps → p ∈ ps → IDENT (key p) ∈ ts.
Proof. intros H Hp. destruct (H p Hp) as [Hin|]; [by apply elem_of_nil in Hin|done]. Qed.

Lemma keysIn_Material ts name ps : keysFrom ts [] ps → keysIn ts (Material name ps).
Proof.
  intros H k Hk. inversion Hk as [node p Hp Hkey|]; subst.
  by eapply keysFrom_nil.
Qed.

Lemma keysIn_Text ts content ps : keysFrom ts [] ps → keysIn ts (Text content ps).
Proof.
  intros H k Hk. inversion Hk as [node p Hp Hkey|]; subst.
  by eapply keysFrom_nil.
Qed.

Lemma keysIn_Surface ts name ps children :
  keysFrom ts [] ps → Forall (keysIn ts) children →
  keysIn ts (Surface name ps children).
Proof.
  intros H Hc k Hk. inversion Hk as [node p Hp Hkey|? ? ? child Hin Hchild]; subst.
  - by eapply keysFrom_nil.
  - rewrite Forall_forall in Hc. by apply (Hc child).
Qed.

Lemma blockTail_traced {A} (mk : list Property → A) (P : A → Prop) fuel ts ts0 :
  ts0 `suffix_of` ts →
  (∀ ps, keysFrom ts [] ps → P (mk ps)) →
  traced ts P
    (ts1 ← skipNewlines ts0;
     '(properties, ts2) ← propertyLoop fuel [] ts1;
     '(_, ts3) ← expect TT.RBRACE ts2;
     Ok (mk properties, ts3)).
Proof.
  intros Hs HP. apply traced_skip; [done|]. intros ts1 Hs1.
  eapply traced_bind; [apply propertyLoop_traced; by etrans|].
  intros ps ts2 Hs2 Hps. apply traced_expect_bind. intros tok ts3 ->.
  apply traced_Ok; [by apply suffix_cons_l in Hs2|auto].
Qed.

Lemma parseMaterial_traced fuel ts : traced ts (keysIn ts) (parseMaterial fuel ts).
Proof.
  unfold parseMaterial.
  apply traced_expect_bind. intros tok ts1 ->.
  apply traced_expectValue_bind. intros name tok1 ts2 ->.
  assert (ts2 `suffix_of` tok :: tok1 :: ts2) as Hs2
    by (by do 2 apply suffix_cons_r).
  apply traced_skip; [done|]. intros ts3 Hs3.
  apply traced_expect_bind. intros tok3 ts4 ->.
  apply (blockTail_traced (Material name)).
  - apply suffix_cons_l in Hs3. by etrans.
  - apply keysIn_Material.
Qed.

Lemma parseText_traced fuel ts : traced ts (keysIn ts) (parseText fuel ts).
Proof.
  unfold parseText.
  apply traced_expect_bind. intros tok ts1 ->.
  apply traced_expectValue_bind. intros content tok1 ts2 ->.
  assert (ts2 `suffix_of` tok :: tok1 :: ts2) as Hs2
    by (by do 2 apply suffix_cons_r).
  apply traced_skip; [done|]. intros ts3 Hs3.
  assert (ts3 `suffix_of` tok :: tok1 :: ts2) as Hs3' by (by etrans).
  assert (keysIn (tok :: tok1 :: ts2) (Text content [])) as Hnil.
  { apply keysIn_Text, keysFrom_refl. }
  destruct ts3 as [|tok3 ts4]; [by apply traced_Ok|].
  destruct tok3; try (by apply traced_Ok).
  apply (blockTail_traced (Text content)).
  - by apply suffix_cons_l in Hs3'.
  - apply keysIn_Text.
Qed.

Lemma nodesFrom_refl ts ps cs : nodesFrom ts ps cs (ps, cs).
Proof. split; [apply keysFrom_refl|done]. Qed.

Lemma keysIn_suffix ts ts0 node : ts0 `suffix_of` ts → keysIn ts0 node → keysIn ts node.
Proof. intros Hs H k Hk. eapply elem_of_suffix; [by apply H|done]. Qed.

Lemma surface_traced fuel :
  (∀ depth ts, traced ts (keysIn ts) (parseSurface depth fuel ts)) ∧
  (∀ depth ts ps cs ts0, ts0 `suffix_of` ts →
     traced ts (nodesFrom ts ps cs) (surfaceLoop depth fuel ps cs ts0)).
Proof.
  induction fuel as [|fuel [IHs IHl]]; [by split|]. split.
  - intros depth ts. cbn [parseSurface].
    apply traced_expect_bind. intros tok ts1 ->.
    apply traced_expectValue_bind. intros name tok1 ts2 ->.
    assert (ts2 `suffix_of` tok :: tok1 :: ts2) as Hs2
      by (by do 2 apply suffix_cons_r).
    apply traced_skip; [done|]. intros ts3 Hs3.
    apply traced_expect_bind. intros tok3 ts4 ->.
    apply suffix_cons_l in Hs3.
    apply traced_skip; [suffix_chain|]. intros ts5 Hs5.
    eapply traced_bind; [apply (IHl _ _ [] []); suffix_chain|].
    intros [ps cs] ts6 Hs6 [Hps Hcs]. cbn [fst snd] in *.
    apply traced_expect_bind. intros tok6 ts7 ->.
    apply traced_Ok; [by apply suffix_cons_l in Hs6|].
    apply keysIn_Surface; auto.
  - intros depth ts ps cs ts0 Hs0. cbn [surfaceLoop].
    destruct ts0 as [|tok ts0']; [apply traced_Throw|].
    set (body := (ts1 ← skipNewlines (tok :: ts0'); _)).
    assert (traced ts (nodesFrom ts ps cs) body) as Hbody.
    { subst body. apply traced_skip; [done|]. intros ts1 Hs1.
      assert (ts1 `suffix_of` ts) as Hs1' by (by etrans).
      destruct ts1 as [|tok1 ts2]; [apply traced_Throw|].
      assert (ts2 `suffix_of` ts) as Hs2 by (by apply suffix_cons_l in Hs1').
      assert (∀ (child : res (Node * list Token)),
        traced (tok1 :: ts2) (keysIn (tok1 :: ts2)) child →
        traced ts (nodesFrom ts ps cs)
          ('(child, ts2) ← child;
           ts3 ← skipNewlines ts2;
           surfaceLoop depth fuel ps (cs ++ [child]) ts3)) as Hchild.
      { intros child Hc. eapply traced_bind.
        - eapply traced_suffix; [exact Hs1'|exact Hc].
        - intros node ts2' Hs2' Hnode. apply traced_skip; [done|].
          intros ts3 Hs3. eapply traced_impl; [|apply IHl; by etrans].
          intros [ps' cs'] [Hps' Hcs']. split; [done|]. cbn [fst snd] in *.
          intros Hcs. apply Hcs'. apply Forall_app. split; [done|].
          apply Forall_singleton. exact (keysIn_suffix _ _ _ Hs1' Hnode). }
      destruct tok1; try (by apply IHl).
      - repeat (case_match; try (by apply IHl)); subst; apply Hchild;
          first [apply traced_Throw|apply IHs|apply parseText_traced].
      - eapply traced_bind;
          [eapply traced_suffix; [exact Hs1'|apply parseProperty_traced]|].
        intros prop ts2' Hs2' Hkey. apply traced_skip; [done|]. intros ts3 Hs3.
        eapply traced_impl; [|apply IHl; by etrans].
        intros [ps' cs'] [Hps' Hcs']. split; [|done]. cbn [fst snd] in *.
        intros p Hp. destruct (Hps' p Hp) as [Hin|Hin]; [|by right].
        apply elem_of_app in Hin as [Hin|Hin]; [by left|]. right.
        destruct prop as [p'|]; [|by apply elem_of_nil in Hin].
        apply list_elem_of_singleton in Hin as ->. rewrite (Hkey p' eq_refl).
        eapply elem_of_suffix; [|exact Hs1']. apply elem_of_cons. by left.
      - apply traced_Ok; [done|apply nodesFrom_refl]. }
    destruct tok; try exact Hbody; apply traced_Ok; done || apply nodesFrom_refl.
Qed.

Lemma parseStatement_traced depth fuel ts :
  traced ts (λ node, ∀ n, node = Some n → keysIn ts n) (parseStatement depth fuel ts).
Proof.
  unfold parseStatement. destruct ts as [|tok ts0]; [apply traced_Throw|].
  assert (traced (tok :: ts0) (λ node : option Node, ∀ n, node = Some n → keysIn (tok :: ts0) n)
            (Ok (None, ts0))) as Hskip.
  { apply traced_Ok; [by apply suffix_cons_r|done]. }
  destruct tok; try exact Hskip.
  repeat (case_match; try exact Hskip); subst.
  - eapply traced_bind; [apply (proj1 (surface_traced fuel))|].
    intros node ts1 Hs1 Hnode. apply traced_Ok; [done|]. by intros n [= <-].
  - eapply traced_bind; [apply parseMaterial_traced|].
    intros node ts1 Hs1 Hnode. apply traced_Ok; [done|]. by intros n [= <-].
Qed.

Lemma programLoop_keys depth fuel : ∀ ts body ts0 out,
  ts0 `suffix_of` ts → Forall (keysIn ts) body →
  programLoop depth fuel body ts0 = Ok out → Forall (keysIn ts) out.
Proof.
  induction fuel as [|fuel IH]; intros ts body ts0 out Hs0 Hbody; [done|].
  cbn [programLoop]. destruct ts0 as [|tok ts0']; [done|].
  assert (('(node, ts1) ← parseStatement depth fuel (tok :: ts0');
           ts2 ← skipNewlines ts1; programLoop depth fuel (body ++ option_list node) ts2)
          = Ok out → Forall (keysIn ts) out) as Hstep.
  { pose proof (parseStatement_traced depth fuel (tok :: ts0')) as Hst.
    destruct (parseStatement depth fuel (tok :: ts0')) as [[node ts1]|e|];
      cbn [mbind res_bind]; [|done..].
    destruct (Hst _ _ eq_refl) as [Hs1 Hnode].
    destruct (skipNewlines ts1) as [ts2|e|] eqn:Hsk; cbn [mbind res_bind]; [|done..].
    apply IH.
    - apply skipNewlines_suffix in Hsk. suffix_chain.
    - apply Forall_app. split; [done|]. destruct node as [n|]; [|constructor].
      apply Forall_singleton. eapply keysIn_suffix; [exact Hs0|]. by apply Hnode. }
  destruct tok; try exact Hstep. by intros [= <-].
Qed.

(** Every property key of a parsed program is the text of an identifier
    token: the parser makes up no key. *)
Lemma parse_keys depth tokens body node k :
  parse depth tokens = Ok body → node ∈ body → hasKey k node → IDENT k ∈ tokens.
Proof.
  unfold parse, parseProgram. intros Hparse Hnode Hk.
  destruct (skipNewlines tokens) as [ts|e|] eqn:Hsk; cbn [mbind res_bind] in Hparse;
    [|done..].
  eapply programLoop_keys in Hparse;
    [|by apply skipNewlines_suffix|constructor].
  rewrite Forall_forall in Hparse. by apply (Hparse node).
Qed.

End KeyFacts.

(** A program parsed from source text has no property at a reserved word or
    at the name of a member of [Object.prototype]. *)
Lemma source_keys depth src body node k :
  parse depth (tokenize src) = Ok body → node ∈ body → hasKey k node →
  isKeyword k = false.
Proof.
  intros Hparse Hnode Hk. apply (LexerFacts.scan_IDENT 0 false src).
  by eapply KeyFacts.parse_keys.
Qed.

(** ** Facts: no declaration at [__proto__] *)

Section NoProto.
Context `{Host}.

Lemma resolveMaterialValue_no_proto v : "__proto__" ∉ (resolveMaterialValue v).*1.
Proof.
  unfold resolveMaterialValue. destruct (parseFn v) as [[name args]|];
    repeat case_match; apply (bool_decide_unpack _); by vm_compute.
Qed.

Lemma surfaceSwitch_no_proto named k v o :
  k ≠ "__proto__" →
  (∀ r, named = Some (Ok r) → "__proto__" ∉ r.*1) →
  surfaceSwitch named k v = Ok o → "__proto__" ∉ o.*1.
Proof.
  intros Hk Hnamed. unfold surfaceSwitch.
  repeat case_match; intros; simplify_eq;
    try apply resolveMaterialValue_no_proto; try (by apply Hnamed);
    try (apply (bool_decide_unpack _); by vm_compute).
  cbn. intros Hin%list_elem_of_singleton. done.
Qed.

(** a property whose key is a name never declares [__proto__] *)
Lemma resolveProp_no_proto depth m node p o :
  key p ≠ "__proto__" →
  resolveProp depth m node p = Ok o → "__proto__" ∉ o.*1.
Proof.
  intros Hk.
  assert (∀ o, resolveSurfaceProp depth (key p) (value p) m = Ok o → "__proto__" ∉ o.*1)
    as Hsurface.
  { intros o'. rewrite resolveSurfaceProp_unfold. apply surfaceSwitch_no_proto; [done|].
    intros r Hr. destruct (mmGet m (value p)); [|done..].
    destruct depth; [done|]. injection Hr as Hr.
    by apply resolveMaterialNode_wf in Hr as [_ ?]. }
  destruct node; simpl.
  - apply Hsurface.
  - unfold materialProp. case_match; [|apply Hsurface].
    intros [= <-]. apply (bool_decide_unpack _). by vm_compute.
  - intros [= <-]. unfold resolveTextProp.
    repeat case_match; try (apply (bool_decide_unpack _); by vm_compute).
    cbn. intros Hin%list_elem_of_singleton. done.
Qed.

End NoProto.

(** ** Remarks on reserved and inherited names *)

(** A [material:] line of the source text is no property of the parsed
    block: the word is reserved, and the loops of the parser pass over what
    is no name. *)
Lemma material_line_skipped :
  parse 0 (tokenize ("surface card {" +:+ String Chars.LF "  material: solid(#1a1a2e)"
                   +:+ String Chars.LF "}"))
  = Ok [Surface "card" [] []].
Proof. vm_compute. reflexivity. Qed.

Lemma source_no_material depth src body node :
  parse depth (tokenize src) = Ok body → node ∈ body → ¬ hasKey "material" node.
Proof. intros Hparse Hnode Hk. by pose proof (source_keys _ _ _ _ _ Hparse Hnode Hk). Qed.

(** [use] of a name that every object inherits a member for finds the
    member, which has no [properties] *)
Lemma use_inherited_member `{Host} depth :
  resolveSurfaceProp depth "use" "toString" emptyMaterialMap = Throw TypeError.
Proof. rewrite resolveSurfaceProp_unfold. reflexivity. Qed.

(** ** Facts: hex colors *)


Module HexFacts.
Import Js.

Lemma hexDigit_char c d :
  hexDigit c = Some d →
  isSpace c = false ∧ Ascii.eqb c "-" = false ∧ Ascii.eqb c "+" = false ∧
  Ascii.eqb c "x" = false ∧ Ascii.eqb c "X" = false ∧ (0 ≤ d < 16)%Z.
Proof.
  destruct c as [[] [] [] [] [] [] [] []]; vm_compute; intros [= <-];
    repeat split; congruence.
Qed.

(** two hex digits are one channel *)
Lemma parseInt16_pair h1 h2 d1 d2 :
  hexDigit h1 = Some d1 → hexDigit h2 = Some d2 →
  parseInt16 (String h1 (String h2 "")) = Some (16 * d1 + d2)%Z.
Proof.
  intros H1 H2.
  destruct (hexDigit_char _ _ H1) as (Hs1 & Hm1 & Hp1 & _).
  destruct (hexDigit_char _ _ H2) as (_ & _ & _ & Hx2 & HX2 & _).
  unfold parseInt16, Str.trimLeft. cbn [Str.dropWhile]. rewrite Hs1, Hm1, Hp1.
  rewrite Hx2, HX2, andb_false_r. cbn [hexDigits]. rewrite H1. cbn [default]. rewrite H2.
  simpl. f_equal. lia.
Qed.

End HexFacts.
Import HexFacts.

Section GlassFacts.
Context `{Host}.

Lemma hexToRgba_short a b d alpha :
  hexToRgba (String "#" (String a (String b (String d "")))) alpha =
  hexToRgba (String "#" (String a (String a (String b (String b (String d (String d ""))))))) alpha.
Proof. reflexivity. Qed.

Lemma hexToRgba_long h1 h2 h3 h4 h5 h6 d1 d2 d3 d4 d5 d6 alpha :
  Js.hexDigit h1 = Some d1 → Js.hexDigit h2 = Some d2 → Js.hexDigit h3 = Some d3 →
  Js.hexDigit h4 = Some d4 → Js.hexDigit h5 = Some d5 → Js.hexDigit h6 = Some d6 →
  hexToRgba (String "#" (String h1 (String h2 (String h3 (String h4 (String h5 (String h6 ""))))))) alpha =
  "rgba(" +:+ pretty (16 * d1 + d2)%Z +:+ ", " +:+ pretty (16 * d3 + d4)%Z +:+ ", "
  +:+ pretty (16 * d5 + d6)%Z +:+ ", " +:+ alpha +:+ ")".
Proof.
  intros. unfold hexToRgba. cbn [Str.removeFirst Ascii.eqb Bool.eqb].
  cbn [String.length]. rewrite decide_False by done.
  change (Str.slice 0 2 (String h1 (String h2 (String h3 (String h4 (String h5 (String h6 "")))))))
    with (String h1 (String h2 "")).
  change (Str.slice 2 4 (String h1 (String h2 (String h3 (String h4 (String h5 (String h6 "")))))))
    with (String h3 (String h4 "")).
  change (Str.slice 4 6 (String h1 (String h2 (String h3 (String h4 (String h5 (String h6 "")))))))
    with (String h5 (String h6 "")).
  erewrite !parseInt16_pair by eassumption. reflexivity.
Qed.

Lemma glass_value value args :
  parseFn value = Some ("glass", args) →
  resolveMaterialValue value =
  let gColor := argOr args 0 "#ffffff" in
  let gOpacity := floatText (argOr args 1 "0.1") in
  [("background", VStr match gColor with
                       | String "#"%char _ => hexToRgba gColor gOpacity
                       | _ => gColor
                       end);
   ("backdrop-filter", VStr "blur(12px)");
   ("-webkit-backdrop-filter", VStr "blur(12px)")].
Proof. intros Hfn. unfold resolveMaterialValue. rewrite Hfn. reflexivity. Qed.

Lemma argOr_present args i s dflt :
  args !! i = Some s → s ≠ "" → argOr args i dflt = s.
Proof. intros Hi Hs. unfold argOr. rewrite Hi. by destruct s. Qed.

End GlassFacts.

(** ** The claims of the specification *)

(** C1. If the program defines a material named [M], then a property
    [use: M] or [material: M] of a surface merges into the declarations of
    the surface what the properties of the stored material give when they
    are written in its place, [color] as the fill [background]; the two
    surfaces have the same declarations and compile to the same result.
    The stored material is the last definition under the name. A call
    stack too short for the reference is too short for the inlined
    properties as well, so the comparison is for a reference that did not
    exhaust it. *)
Theorem C1_named_material_inline `{Host} (body : list Node) (M k : string) :
  k = "use" ∨ k = "material" →
  (∃ ps, Material M ps ∈ body) →
  ∃ ps, Material M ps ∈ body ∧
    mmGet (materialTable body) M = Found (Material M ps) ∧
    ∀ depth name pre post children counter,
      surfaceDeclarations depth (materialTable body) (pre ++ mkProperty k M :: post)
        ≠ Throw RangeError →
      surfaceDeclarations depth (materialTable body)
        (pre ++ inlineMaterial (Material M ps) ++ post)
      = surfaceDeclarations depth (materialTable body) (pre ++ mkProperty k M :: post)
      ∧ compileSurface depth (materialTable body)
          (Surface name (pre ++ inlineMaterial (Material M ps) ++ post) children) counter
        = compileSurface depth (materialTable body)
            (Surface name (pre ++ mkProperty k M :: post) children) counter.
Proof.
  intros Hk Hdef. destruct (materialTable_defined body M Hdef) as (ps & Hin & Hget).
  exists ps. split; [done|]. split; [done|].
  intros depth name pre post children counter Hne.
  assert (surfaceDeclarations depth (materialTable body)
            (pre ++ inlineMaterial (Material M ps) ++ post)
          = surfaceDeclarations depth (materialTable body) (pre ++ mkProperty k M :: post))
    as Heq.
  { unfold surfaceDeclarations in *. rewrite !forEachAssign_app in *.
    destruct (forEachAssign _ (Ok surfaceDefaults) pre) as [css|e|];
      [|by rewrite !forEachAssign_Throw|by rewrite !forEachAssign_Fuel].
    rewrite forEachAssign_cons in *. cbn [key value] in *.
    rewrite (reference_inline depth (materialTable body) k M (Material M ps) css);
      [done..|].
    intros Hthrow. apply Hne. rewrite Hthrow. apply forEachAssign_Throw. }
  split; [done|]. rewrite !compileSurface_Surface. cbv zeta. by rewrite Heq.
Qed.

Lemma C1_named_material_inline_witness :
  surfaceDeclarations (H := exampleHost) 1 (materialTable panelProgram)
    ([mkProperty "width" "260px"]
       ++ [mkProperty "background" "#111827"; mkProperty "radius" "10px"]
       ++ [mkProperty "padding" "20px"])
  = surfaceDeclarations (H := exampleHost) 1 (materialTable panelProgram)
      ([mkProperty "width" "260px"] ++ mkProperty "use" "panel" :: [mkProperty "padding" "20px"]).
Proof.
  destruct (C1_named_material_inline (H := exampleHost) panelProgram "panel" "use")
    as (ps & Hin & Hget & Hinline).
  - by left.
  - eexists. apply elem_of_cons. left. reflexivity.
  - assert (ps = [mkProperty "color" "#111827"; mkProperty "radius" "10px"]) as ->.
    { vm_compute in Hget. congruence. }
    apply (Hinline 1 "sidebar" [mkProperty "width" "260px"] [mkProperty "padding" "20px"]
             [] 0%N).
    vm_compute. discriminate.
Defined.




(** C3. A compilation that succeeds from the counter value [c] gives the
    same output whenever it is run from [c] again. The counter never goes
    down. Run again from where the first run left the counter, the
    compilation succeeds as well, and when the program has a surface the
    counter went up in both runs and the outputs differ: the second run
    drew other identifiers. *)
Theorem C3_counter_determinism `{Host} depth (ast : list Node) (c c1 : N) (out : Output) :
  compile depth ast c = (Ok out, c1) →
  (∀ c', c' = c → compile depth ast c' = (Ok out, c1)) ∧
  (c ≤ c1)%N ∧
  ∃ out2 c2, compile depth ast c1 = (Ok out2, c2) ∧ (c1 ≤ c2)%N ∧
    (existsb isSurface ast = true → (c < c1)%N ∧ (c1 < c2)%N ∧ out2 ≠ out).
Proof.
  intros Hrun. split; [by intros c' ->|].
  split; [by eapply compile_counter_le|].
  pose proof (compile_ok_indep depth ast c c1) as Hok. rewrite Hrun in Hok.
  destruct (compile depth ast c1) as [[out2|e|] c2] eqn:Hrun2; [|done..].
  exists out2, c2. split; [done|]. split; [by eapply compile_counter_le|].
  intros Hs.
  destruct (compile_first_rule _ _ _ _ _ Hs Hrun) as [Hlt [rest Hcss]].
  destruct (compile_first_rule _ _ _ _ _ Hs Hrun2) as [Hlt2 [rest2 Hcss2]].
  split; [done|]. split; [done|]. intros ->.
  rewrite Hcss in Hcss2. apply id_prefix_inj in Hcss2. lia.
Qed.

Lemma C3_counter_determinism_witness :
  (∀ c', c' = 4%N →
     compile (H := exampleHost) 0 [Surface "card" [] []] c' =
     (Ok (mkOutput (ruleBlock (H := exampleHost) "lm5" surfaceDefaults)
            (surfaceOpen "lm5" "card" +:+ "</div>")), 5%N)) ∧
  (4 ≤ 5)%N ∧
  ∃ out2 c2, compile (H := exampleHost) 0 [Surface "card" [] []] 5 = (Ok out2, c2) ∧
    (5 ≤ c2)%N ∧
    (existsb isSurface [Surface "card" [] []] = true →
     (4 < 5)%N ∧ (5 < c2)%N ∧
     out2 ≠ mkOutput (ruleBlock (H := exampleHost) "lm5" surfaceDefaults)
              (surfaceOpen "lm5" "card" +:+ "</div>")).
Proof.
  apply (C3_counter_determinism (H := exampleHost) 0 [Surface "card" [] []] 4 5).
  vm_compute. reflexivity.
Defined.

(** C4. The closing brace of a surface is missing and the last line of its
    body starts with a token that [parseSurface] skips: [parse] throws a
    [TypeError] and not the parse failure that names the expected and the
    actual token. The same body under [material] gets the parse failure. *)
Theorem C4_surface_missing_brace (depth : nat) :
  parse depth (tokenize unclosedSurface) = Throw TypeError
  ∧ parse depth (tokenize unclosedMaterial)
    = Throw (LumenError "Parse Error: Expected RBRACE but got EOF").
Proof. split; vm_compute; reflexivity. Qed.

(** C5. When two properties of a node resolve to objects with the same
    declaration key, and no property after the second does, the declarations
    the node ends with hold for the key the value from the second property
    and no other. The second property is at a key other than [__proto__],
    as every property of a program parsed from source text is
    ([source_keys]). *)
Theorem C5_later_property_wins `{Host} depth m (node : Node)
    (props1 props2 props3 : list Property) (p1 p2 : Property)
    (k : string) (v1 v2 : jsval) (o1 o2 css : cssObject) :
  properties node = props1 ++ p1 :: props2 ++ p2 :: props3 →
  key p2 ≠ "__proto__" →
  resolveProp depth m node p1 = Ok o1 → (k, v1) ∈ o1 →
  resolveProp depth m node p2 = Ok o2 → (k, v2) ∈ o2 →
  (∀ q o v, q ∈ props3 → resolveProp depth m node q = Ok o → (k, v) ∉ o) →
  declarations depth m node = Ok css →
  ∀ v, (k, v) ∈ css ↔ v = v2.
Proof.
  intros Hprops Hkey _ _ Hp2 Hin2 Hlater Hrun.
  assert (k ≠ "__proto__") as Hk.
  { intros ->. eapply resolveProp_no_proto; [exact Hkey|exact Hp2|].
    apply list_elem_of_fmap. by exists ("__proto__", v2). }
  eapply (declarations_last depth m node (props1 ++ p1 :: props2) p2 props3);
    [by rewrite <-List.app_assoc|done..].
Qed.

Lemma C5_later_property_wins_witness :
  ("background", VStr "#222")
    ∈ surfaceDefaults ++ [("width", VStr "320px"); ("background", VStr "#222")]
  ∧ ("background", VStr "#111")
    ∉ surfaceDefaults ++ [("width", VStr "320px"); ("background", VStr "#222")].
Proof.
  assert (∀ v, ("background", v)
                 ∈ surfaceDefaults ++ [("width", VStr "320px"); ("background", VStr "#222")]
               ↔ v = VStr "#222") as Honly.
  { apply (C5_later_property_wins (H := exampleHost) 0 emptyMaterialMap
             (Surface "card"
                [mkProperty "width" "320px"; mkProperty "background" "#111";
                 mkProperty "material" "solid(#222)"] [])
             [mkProperty "width" "320px"] [] []
             (mkProperty "background" "#111") (mkProperty "material" "solid(#222)")
             "background" (VStr "#111") (VStr "#222")
             [("background", VStr "#111")] [("background", VStr "#222")]).
    - reflexivity.
    - discriminate.
    - vm_compute. reflexivity.
    - apply elem_of_cons. by left.
    - vm_compute. reflexivity.
    - apply elem_of_cons. by left.
    - intros q o v Hq. by apply elem_of_nil in Hq.
    - vm_compute. reflexivity. }
  split.
  - by apply Honly.
  - intros Hin. apply Honly in Hin. discriminate.
Defined.

(** C6. For a value [glass(color, opacity)] with a color argument: when the
    color starts with [#], the declarations are the background
    [hexToRgba color alpha] and the two blur declarations, where [alpha] is
    the text of the opacity; a color of three characters after the [#] is
    converted as the color with each of them doubled; six hex digits are
    read as three channels of two, the first digit sixteen-fold; a color
    that does not start with [#] is the background as it is. *)
Theorem C6_glass_hex `{Host} (value : string) (args : list string) (color : string) :
  parseFn value = Some ("glass", args) →
  args !! 0 = Some color → color ≠ "" →
  let alpha := floatText (argOr args 1 "0.1") in
  (∀ digits, color = String "#" digits →
     resolveMaterialValue value = blurred (hexToRgba color alpha)) ∧
  (∀ a b d, color = String "#" (String a (String b (String d ""))) →
     hexToRgba color alpha =
     hexToRgba (String "#" (String a (String a (String b (String b (String d (String d "")))))))
       alpha) ∧
  (∀ h1 h2 h3 h4 h5 h6 d1 d2 d3 d4 d5 d6,
     color = String "#" (String h1 (String h2 (String h3 (String h4 (String h5 (String h6 "")))))) →
     Js.hexDigit h1 = Some d1 → Js.hexDigit h2 = Some d2 → Js.hexDigit h3 = Some d3 →
     Js.hexDigit h4 = Some d4 → Js.hexDigit h5 = Some d5 → Js.hexDigit h6 = Some d6 →
     hexToRgba color alpha =
     "rgba(" +:+ pretty (16 * d1 + d2)%Z +:+ ", " +:+ pretty (16 * d3 + d4)%Z +:+ ", "
     +:+ pretty (16 * d5 + d6)%Z +:+ ", " +:+ alpha +:+ ")") ∧
  ((∀ digits, color ≠ String "#" digits) → resolveMaterialValue value = blurred color).
Proof.
  intros Hfn Harg Hcolor alpha. split; [|split; [|split]].
  - intros digits ->. rewrite (glass_value _ _ Hfn). cbv zeta.
    by rewrite (argOr_present _ _ _ _ Harg Hcolor).
  - intros a b d ->. apply hexToRgba_short.
  - intros h1 h2 h3 h4 h5 h6 d1 d2 d3 d4 d5 d6 -> ??????. by apply hexToRgba_long.
  - intros Hno. rewrite (glass_value _ _ Hfn). cbv zeta.
    rewrite (argOr_present _ _ _ _ Harg Hcolor).
    destruct color as [|c rest]; [done|]. unfold blurred. do 3 f_equal.
    destruct (Ascii.eqb_spec c "#") as [->|Hne]; [by destruct (Hno rest)|].
    destruct c as [[] [] [] [] [] [] [] []]; done.
Qed.

Lemma C6_glass_hex_witness :
  resolveMaterialValue (H := exampleHost) "glass(#abc, 0.5)"
    = blurred (hexToRgba "#abc" "0.5")
  ∧ hexToRgba "#abc" "0.5" = hexToRgba "#aabbcc" "0.5"
  ∧ hexToRgba "#aabbcc" "0.5" = "rgba(170, 187, 204, 0.5)".
Proof.
  destruct (C6_glass_hex (H := exampleHost) "glass(#abc, 0.5)" ["#abc"; "0.5"] "#abc")
    as (Hglass & Hshort & _ & _); [vm_compute; reflexivity|reflexivity|discriminate|].
  destruct (C6_glass_hex (H := exampleHost) "glass(#aabbcc, 0.5)" ["#aabbcc"; "0.5"] "#aabbcc")
    as (_ & _ & Hlong & _); [vm_compute; reflexivity|reflexivity|discriminate|].
  split; [exact (Hglass _ eq_refl)|]. split; [exact (Hshort _ _ _ eq_refl)|].
  etransitivity;
    [exact (Hlong "a" "a" "b" "b" "c" "c" 10 10 11 11 12 12
              eq_refl eq_refl eq_refl eq_refl eq_refl eq_refl eq_refl)%char%Z|].
  vm_compute. reflexivity.
Defined.

(** C7, as amended. When the program defines no material under the name
    [value] and none under the name [__proto__], and [value] is no name of a
    member that every object inherits, the lookup in the table finds
    nothing; then [use: value] resolves to no declaration, and
    [material: value] resolves as the fill that [value] writes, which has a
    [background] declaration. Neither throws. *)
Theorem C7_absent_reference `{Host} depth (body : list Node) (value : string) :
  (∀ ps, Material value ps ∉ body) →
  (∀ ps, Material "__proto__" ps ∉ body) →
  isObjectProtoName value = false →
  mmGet (materialTable body) value = Absent ∧
  resolveSurfaceProp depth "use" value (materialTable body) = Ok [] ∧
  resolveSurfaceProp depth "material" value (materialTable body)
    = Ok (resolveMaterialValue value) ∧
  ∃ v, Js.get (resolveMaterialValue value) "background" = Some v.
Proof.
  intros Hno Hproto Hname.
  assert (mmGet (materialTable body) value = Absent) as Habs.
  { apply mmGet_Absent; [|by apply materialTable_proto_None|done].
    apply materialTable_own_None; [|done]. by intros ->. }
  split; [done|]. rewrite !resolveSurfaceProp_unfold, Habs.
  split; [done|]. split; [done|]. apply resolveMaterialValue_background.
Qed.

Lemma C7_absent_reference_witness :
  mmGet (materialTable [Material "panel" []]) "ghost" = Absent ∧
  resolveSurfaceProp (H := exampleHost) 0 "use" "ghost" (materialTable [Material "panel" []])
    = Ok [] ∧
  resolveSurfaceProp (H := exampleHost) 0 "material" "ghost" (materialTable [Material "panel" []])
    = Ok (resolveMaterialValue (H := exampleHost) "ghost") ∧
  ∃ v, Js.get (resolveMaterialValue (H := exampleHost) "ghost") "background" = Some v.
Proof.
  apply (C7_absent_reference (H := exampleHost) 0 [Material "panel" []] "ghost").
  - intros ps Hin. apply list_elem_of_singleton in Hin. discriminate.
  - intros ps Hin. apply list_elem_of_singleton in Hin. discriminate.
  - vm_compute. reflexivity.
Defined.

(** C7 as the specification has it fails: [material: red], for a name
    [red] that no material has, declares a background. *)
Lemma C7_absent_reference_counterexample :
  (∀ ps, Material "red" ps ∉ ([] : list Node)) ∧
  resolveSurfaceProp (H := exampleHost) 0 "material" "red" (materialTable [])
    = Ok [("background", VStr "red")].
Proof. split; [intros ps; apply not_elem_of_nil|vm_compute; reflexivity]. Qed.

(** C8, as amended. A name in a block whose next token after the line
    breaks is no colon gives no property: [parseProperty] returns [null] at
    that token, and the loop of a surface, a material or a text goes on from
    there with the properties and children it had, so it ends as it would
    without the name. [parse] always ends. *)
Theorem C8_name_without_colon (depth fuel : nat) (properties : list Property)
    (children : list Node) (k : string) (ts ts' : list Token) :
  Parser.skipNewlines ts = Ok ts' →
  (∀ rest, ts' ≠ COLON :: rest) →
  Parser.parseProperty (IDENT k :: ts) = Ok (None, ts') ∧
  Parser.surfaceLoop depth (S fuel) properties children (IDENT k :: ts)
    = Parser.surfaceLoop depth fuel properties children ts' ∧
  Parser.propertyLoop (S fuel) properties (IDENT k :: ts)
    = Parser.propertyLoop fuel properties ts' ∧
  ∀ depth tokens, parse depth tokens ≠ Fuel.
Proof.
  intros Hs Hc. split; [by apply parseProperty_no_colon|].
  split; [by apply surfaceLoop_no_colon|].
  split; [by apply propertyLoop_no_colon|]. apply parse_total.
Qed.

Lemma C8_name_without_colon_witness :
  Parser.parseProperty (IDENT "bogus-no-colon-here" :: [NEWLINE; RBRACE; EOF])
    = Ok (None, [RBRACE; EOF]) ∧
  Parser.surfaceLoop 0 3 [] [] (IDENT "bogus-no-colon-here" :: [NEWLINE; RBRACE; EOF])
    = Parser.surfaceLoop 0 2 [] [] [RBRACE; EOF] ∧
  Parser.propertyLoop 3 [] (IDENT "bogus-no-colon-here" :: [NEWLINE; RBRACE; EOF])
    = Parser.propertyLoop 2 [] [RBRACE; EOF] ∧
  ∀ depth tokens, parse depth tokens ≠ Fuel.
Proof.
  apply (C8_name_without_colon 0 2 [] [] "bogus-no-colon-here" [NEWLINE; RBRACE; EOF]
           [RBRACE; EOF]).
  - reflexivity.
  - discriminate.
Defined.

(** C8 as the specification has it fails: the line [width] has no colon,
    and with the colon of the next line it is the property [width: 10px]. *)
Lemma C8_name_without_colon_counterexample :
  parse 0 (tokenize colonOnNextLine) = Ok [Surface "a" [mkProperty "width" "10px"] []].
Proof. vm_compute. reflexivity. Qed.

(** C9, as amended. After a colon with nothing but blanks up to the line
    break the tokenizer pushes no VALUE; for a key that is a name the parser
    makes the property with the empty value; and for a key that declares
    its value as it is, the property resolves to one declaration with the
    empty value, which the rule of the node holds, followed by the next
    separator or the end, unless a later property resolves to its name. *)
Theorem C9_empty_value `{Host} :
  (∀ blanks nl rest,
     Str.all isBlank blanks = true → isNewline nl = true →
     Lexer.scan 0 false (String ":" (blanks +:+ String nl rest))
     = COLON :: NEWLINE :: Lexer.scan 0 false rest) ∧
  (∀ k tok ts,
     type tok ≠ TT.VALUE → type tok ≠ TT.STRING →
     Parser.parseProperty (IDENT k :: COLON :: tok :: ts)
     = Ok (Some (mkProperty k ""), tok :: ts)) ∧
  (∀ depth m node props1 k props3 css,
     properties node = props1 ++ mkProperty k "" :: props3 →
     declaresEmpty m node k →
     declarations depth m node = Ok css →
     ∃ name,
       resolveProp depth m node (mkProperty k "") = Ok [(name, VStr "")] ∧
       ((∀ q o v, q ∈ props3 → resolveProp depth m node q = Ok o → (name, v) ∉ o) →
        (name, VStr "") ∈ css ∧
        ∃ pre post, cssObjectToString css = pre +:+ name +:+ ": " +:+ post ∧
          (post = "" ∨ ∃ post', post = "; " +:+ post'))).
Proof.
  split; [|split].
  - intros blanks nl rest. apply scan_colon_blank_line.
  - intros k tok ts Hv Hs. by destruct tok.
  - intros depth m node props1 k props3 css Hprops Hk Hrun.
    destruct (resolveProp_empty depth m node k Hk) as (name & Hname & Hres).
    exists name. split; [done|]. intros Hlater.
    assert ((name, VStr "") ∈ css) as Hin.
    { eapply (declarations_last depth m node props1 (mkProperty k "") props3); try done.
      apply elem_of_cons. by left. }
    split; [done|].
    destruct (cssObjectToString_elem css name (VStr "") Hin) as (pre & post & Heq & Hpost).
    exists pre, post. split; [|done]. by rewrite Heq.
Qed.

Lemma C9_empty_value_witness :
  Lexer.scan 0 false (String ":" ("  " +:+ String LF "}"))
    = COLON :: NEWLINE :: Lexer.scan 0 false "}"
  ∧ Parser.parseProperty (IDENT "border" :: COLON :: NEWLINE :: [RBRACE; EOF])
    = Ok (Some (mkProperty "border" ""), NEWLINE :: [RBRACE; EOF])
  ∧ ∃ name,
      resolveProp (H := exampleHost) 0 emptyMaterialMap
        (Surface "a" [mkProperty "border" ""] []) (mkProperty "border" "")
        = Ok [(name, VStr "")] ∧
      (name, VStr "") ∈ surfaceDefaults ++ [("border", VStr "")].
Proof.
  destruct (C9_empty_value (H := exampleHost)) as (Hlex & Hparse & Hcompile).
  split; [apply Hlex; reflexivity|].
  split; [apply Hparse; discriminate|].
  destruct (Hcompile 0 emptyMaterialMap (Surface "a" [mkProperty "border" ""] [])
              [] "border" [] (surfaceDefaults ++ [("border", VStr "")]))
    as (name & Hres & Hin).
  - reflexivity.
  - split; [discriminate|]. split; [|discriminate].
    vm_compute. intros Hin. by repeat (apply elem_of_cons in Hin as [?|Hin]; [discriminate|]);
      apply elem_of_nil in Hin.
  - vm_compute. reflexivity.
  - exists name. split; [exact Hres|]. apply Hin.
    intros q o v Hq. by apply elem_of_nil in Hq.
Defined.

(** C9 as the specification has it fails: the line [layout:] is parsed as
    the property with the empty value, and the declarations of the surface
    have no empty value. *)
Lemma C9_empty_value_counterexample :
  parse 0 (tokenize emptyLayout) = Ok [Surface "a" [mkProperty "layout" ""] []]
  ∧ declarations (H := exampleHost) 0 emptyMaterialMap
      (Surface "a" [mkProperty "layout" ""] [])
    = Ok (surfaceDefaults
            ++ [("display", VStr "flex"); ("flex-direction", VStr "column")])
  ∧ Forall (λ kv, toText (H := exampleHost) kv.2 ≠ "")
      (surfaceDefaults ++ [("display", VStr "flex"); ("flex-direction", VStr "column")]).
Proof.
  split; [vm_compute; reflexivity|]. split; [vm_compute; reflexivity|].
  repeat (constructor; [discriminate|]). constructor.
Qed.

(** C10. A property [use: v] or [material: v] of a text node resolves to
    the declaration of the key with the value [v] as it is; with no later
    property of the same key, the declarations of the node hold that value
    for the key and no other, and the rule of the node has the text
    [key: v]. No table of materials takes part: where the same property on
    a surface resolves to the declarations of the material [v], on the text
    node it is the literal declaration. *)
Theorem C10_text_named_style `{Host} (k v content : string)
    (props1 props3 : list Property) :
  k = "use" ∨ k = "material" →
  (∀ q, q ∈ props3 → key q ≠ k) →
  let props := props1 ++ mkProperty k v :: props3 in
  resolveTextProp k v = [(k, VStr v)] ∧
  (∀ v', (k, v') ∈ textDeclarations props ↔ v' = VStr v) ∧
  (∀ counter, ∃ r pre post,
     compileText (Text content props) counter = (Ok r, N.succ counter) ∧
     Compiled.css r = pre +:+ k +:+ ": " +:+ v +:+ post) ∧
  (∀ depth m node,
     mmGet m v = Found node →
     resolveProp (S depth) m (Text content props) (mkProperty k v) = Ok [(k, VStr v)] ∧
     resolveProp (S depth) m (Surface content props []) (mkProperty k v)
       = resolveMaterialNode depth node m).
Proof.
  intros Hk Hlater props.
  assert (resolveTextProp k v = [(k, VStr v)]) as Hres by (by destruct Hk as [-> | ->]).
  assert (∀ v', (k, v') ∈ textDeclarations props ↔ v' = VStr v) as Hin.
  { eapply (declarations_last 0 emptyMaterialMap (Text content props) props1
              (mkProperty k v) props3); [done| |simpl; by rewrite Hres| | |done].
    - by destruct Hk as [-> | ->].
    - apply elem_of_cons. by left.
    - intros q o v' Hq [= <-] Hin. apply (Hlater q Hq).
      unfold resolveTextProp in Hin.
      repeat case_match; apply list_elem_of_singleton in Hin; injection Hin as Hkq _;
        destruct Hk as [-> | ->]; done. }
  split; [done|]. split; [done|]. split.
  - intros counter.
    destruct (cssObjectToString_elem (textDeclarations props) k (VStr v)) as
      (pre & post & Heq & _); [by apply Hin|].
    eexists _, ("#lm" +:+ pretty (N.succ counter) +:+ " { " +:+ pre), (post +:+ " }").
    split; [reflexivity|]. cbn [Compiled.css properties]. unfold ruleBlock. rewrite Heq.
    cbn [toText]. by rewrite !app_assoc.
  - intros depth m node Hget. split; [simpl; by rewrite Hres|].
    cbn [resolveProp key value]. rewrite resolveSurfaceProp_unfold, Hget.
    by destruct Hk as [-> | ->].
Qed.

Lemma C10_text_named_style_witness :
  resolveTextProp "use" "panel" = [("use", VStr "panel")] ∧
  (∀ v', ("use", v') ∈ textDeclarations ([mkProperty "size" "14px"]
                          ++ mkProperty "use" "panel" :: [mkProperty "color" "red"])
         ↔ v' = VStr "panel").
Proof.
  destruct (C10_text_named_style (H := exampleHost) "use" "panel" "Hello"
              [mkProperty "size" "14px"] [mkProperty "color" "red"])
    as (Hres & Hin & _).
  - by left.
  - intros q Hq. apply list_elem_of_singleton in Hq. subst q. discriminate.
  - split; [exact Hres|exact Hin].
Defined.

(** ** Facts: the tokens of a source text *)

Module TokenFacts.
Import Lexer LexerFacts StrFacts.

Lemma all_takeWhile p s : Str.all p (Str.takeWhile p s) = true.
Proof.
  induction s as [|c s IH]; [done|]. simpl. destruct (p c) eqn:Hc; [|done].
  simpl. by rewrite Hc.
Qed.

(** the tokens of a scan are tokens other than EOF, and EOF *)
Lemma scan_EOF src : ∀ skip ac, ∃ ts, scan skip ac src = ts ++ [EOF] ∧ EOF ∉ ts.
Proof.
  induction src as [|ch rest IH]; intros skip ac.
  - exists []. split; [done|apply not_elem_of_nil].
  - destruct skip as [|k]; [|apply IH].
    assert (∀ tok k' ac', tok ≠ EOF →
      ∃ ts, tok :: scan k' ac' rest = ts ++ [EOF] ∧ EOF ∉ ts) as Hcons.
    { intros tok k' ac' Htok. destruct (IH k' ac') as (ts & -> & Hts).
      exists (tok :: ts). split; [done|]. rewrite not_elem_of_cons. split; [done|done]. }
    cbn [scan].
    repeat (case_match; try (by apply IH)); try (by apply Hcons).
Qed.


Lemma takeWhile_cons_inv p s c r :
  Str.takeWhile p s = String c r → ∃ s', s = String c s' ∧ p c = true ∧ r = Str.takeWhile p s'.
Proof.
  destruct s as [|d s']; [done|]. simpl. destruct (p d) eqn:Hd; [|done].
  intros [= <- <-]. eauto.
Qed.

Lemma isIdentStart_char c : isIdentStart c = true → isIdentChar c = true.
Proof.
  unfold isIdentStart, isIdentChar.
  intros [->| ->]%orb_true_iff; [done|]. by rewrite orb_true_r.
Qed.

Lemma drop_takeWhile p s : Str.drop (String.length (Str.takeWhile p s)) s = Str.dropWhile p s.
Proof.
  induction s as [|c s IH]; [done|]. simpl. destruct (p c); [|done]. apply IH.
Qed.

(** One turn of the loop at a character [ch]: the token it pushes, if any,
    the characters it moves on by, and the mode it leaves. *)
Lemma scan_step ac ch rest :
  ∃ front k ac', scan 0 ac (String ch rest) = front ++ scan k ac' rest ∧
    (ac' = true ↔ front = [COLON]) ∧
    (front = [] ∨ front = [NEWLINE] ∨ front = [LBRACE] ∨ front = [RBRACE]
     ∨ front = [COLON]
     ∨ (∃ v, front = [VALUE v] ∧ ac = true ∧ Str.nonEmpty v = true ∧
          v = Str.trimRight (readValue (Str.dropWhile isBlank (String ch rest))))
     ∨ (∃ word, front = [STRING word] ∧
          word = Str.takeWhile (λ c, negb (Ascii.eqb c DQUOTE)) rest)
     ∨ (∃ word, front = [if isKeyword word then KEYWORD word else IDENT word] ∧
          isIdentStart ch = true ∧
          word = String ch (Str.takeWhile isIdentChar rest))).
Proof.
  assert (∀ k, ∃ front k' ac', scan k false rest = front ++ scan k' ac' rest ∧
    (ac' = true ↔ front = [COLON]) ∧
    (front = [] ∨ front = [NEWLINE] ∨ front = [LBRACE] ∨ front = [RBRACE]
     ∨ front = [COLON]
     ∨ (∃ v, front = [VALUE v] ∧ ac = true ∧ Str.nonEmpty v = true ∧
          v = Str.trimRight (readValue (Str.dropWhile isBlank (String ch rest))))
     ∨ (∃ word, front = [STRING word] ∧
          word = Str.takeWhile (λ c, negb (Ascii.eqb c DQUOTE)) rest)
     ∨ (∃ word, front = [if isKeyword word then KEYWORD word else IDENT word] ∧
          isIdentStart ch = true ∧
          word = String ch (Str.takeWhile isIdentChar rest)))) as Hnone.
  { intros k. exists [], k, false. split; [done|]. split; [done|]. by left. }
  cbn [scan]. destruct (isNewline ch) eqn:Hnl.
  { exists [NEWLINE], 0, false. split; [done|]. split; [done|]. auto. }
  destruct (_ + _) as [|k] eqn:Hlen.
  2:{ destruct ac; [|done]. rewrite drop_takeWhile in *.
      destruct (Str.nonEmpty _) eqn:Hne; [|apply Hnone].
      eexists [VALUE _], k, false. split; [done|]. split; [done|].
      do 5 right. left. eauto. }
  destruct (isBlank ch) eqn:Hb; [apply Hnone|].
  assert (∀ tok, tok ≠ COLON →
    (tok = LBRACE ∨ tok = RBRACE
     ∨ (∃ word, tok = STRING word ∧
          word = Str.takeWhile (λ c, negb (Ascii.eqb c DQUOTE)) rest)) →
    ∀ k, ∃ front k' ac', tok :: scan k false rest = front ++ scan k' ac' rest ∧
    (ac' = true ↔ front = [COLON]) ∧
    (front = [] ∨ front = [NEWLINE] ∨ front = [LBRACE] ∨ front = [RBRACE]
     ∨ front = [COLON]
     ∨ (∃ v, front = [VALUE v] ∧ ac = true ∧ Str.nonEmpty v = true ∧
          v = Str.trimRight (readValue (Str.dropWhile isBlank (String ch rest))))
     ∨ (∃ word, front = [STRING word] ∧
          word = Str.takeWhile (λ c, negb (Ascii.eqb c DQUOTE)) rest)
     ∨ (∃ word, front = [if isKeyword word then KEYWORD word else IDENT word] ∧
          isIdentStart ch = true ∧
          word = String ch (Str.takeWhile isIdentChar rest)))) as Hone.
  { intros tok Hc Htok k. exists [tok], k, false. split; [done|].
    split; [split; [done|by intros [= ->]]|].
    destruct Htok as [->|[->|Hs]]; [auto|auto|]. destruct Hs as (w & -> & ->). do 6 right. left. eauto. }
  assert (isIdentStart ch = true →
    ∃ front k' ac',
      (if isKeyword (Str.takeWhile isIdentChar (String ch rest))
       then KEYWORD (Str.takeWhile isIdentChar (String ch rest))
       else IDENT (Str.takeWhile isIdentChar (String ch rest)))
      :: scan (String.length (Str.takeWhile isIdentChar (String ch rest)) - 1) false rest
      = front ++ scan k' ac' rest ∧
    (ac' = true ↔ front = [COLON]) ∧
    (front = [] ∨ front = [NEWLINE] ∨ front = [LBRACE] ∨ front = [RBRACE]
     ∨ front = [COLON]
     ∨ (∃ v, front = [VALUE v] ∧ ac = true ∧ Str.nonEmpty v = true ∧
          v = Str.trimRight (readValue (Str.dropWhile isBlank (String ch rest))))
     ∨ (∃ word, front = [STRING word] ∧
          word = Str.takeWhile (λ c, negb (Ascii.eqb c DQUOTE)) rest)
     ∨ (∃ word, front = [if isKeyword word then KEYWORD word else IDENT word] ∧
          isIdentStart ch = true ∧
          word = String ch (Str.takeWhile isIdentChar rest)))) as Hword.
  { intros Hstart. eexists [_], _, false. split; [done|].
    split; [split; [done|intros Heq; destruct (isKeyword _); discriminate]|].
    do 7 right. eexists. split; [done|]. split; [done|].
    simpl. by rewrite (isIdentStart_char _ Hstart). }
  clear Hlen Hnl Hb.
  destruct (isIdentStart ch) eqn:Hstart.
  - specialize (Hword eq_refl). revert Hword.
    generalize (Str.takeWhile isIdentChar (String ch rest)). intros word Hword.
    repeat case_match; try exact Hword; by vm_compute in Hstart.
  - clear Hword.
    repeat case_match; try (by apply Hnone); try (apply Hone; [done|auto]).
    + exists [COLON], 0, true. split; [done|]. split; [done|]. auto 10.
    + do 2 right. eauto.
Qed.

(** the words of a scan: a first character of a name, then characters of
    names; KEYWORD or IDENT by the table *)
Lemma scan_word src : ∀ skip ac tok w,
  tok ∈ scan skip ac src → tok = IDENT w ∨ tok = KEYWORD w →
  (∃ c r, w = String c r ∧ isIdentStart c = true ∧ Str.all isIdentChar r = true)
  ∧ isKeyword w = bool_decide (tok = KEYWORD w).
Proof.
  induction src as [|ch rest IH]; intros skip ac tok w.
  - simpl. intros ->%list_elem_of_singleton [?|?]; done.
  - destruct skip as [|k]; [|apply IH].
    destruct (scan_step ac ch rest) as (front & k & ac' & -> & _ & Hfront).
    intros [Hin|Hin]%elem_of_app; [|by eapply IH]. intros Htok.
    destruct Hfront as [->|[->|[->|[->|[->|[(v & -> & _)|[(s & -> & _)|(word & -> & Hch & ->)]]]]]]];
      try (apply list_elem_of_singleton in Hin as ->; by destruct Htok);
      try (by apply elem_of_nil in Hin).
    apply list_elem_of_singleton in Hin as ->.
    destruct (isKeyword _) eqn:Hkw; destruct Htok as [Htok|Htok]; simplify_eq.
    + rewrite Hkw, bool_decide_eq_true_2 by done. split; [|done].
      eexists _, _. split; [done|]. split; [done|apply all_takeWhile].
    + rewrite Hkw, bool_decide_eq_false_2 by done. split; [|done].
      eexists _, _. split; [done|]. split; [done|apply all_takeWhile].
Qed.

Lemma readValue_line s : Str.all (λ c, negb (isNewline c)) (readValue s) = true.
Proof.
  induction s as [|c r IH]; [done|]. cbn [readValue].
  destruct (isNewline c) eqn:Hc; [done|].
  assert (Str.all (λ c, negb (isNewline c)) (String c (readValue r)) = true) as Hcons.
  { simpl. by rewrite Hc. }
  repeat case_match; done.
Qed.

Lemma readValue_cons_inv s c v :
  readValue s = String c v →
  ∃ r, s = String c r ∧ v = readValue r ∧ (c = "/"%char → ∀ r', r ≠ String "/" r').
Proof.
  destruct s as [|d r]; [done|]. cbn [readValue].
  destruct (isNewline d); [done|].
  repeat case_match; try done; intros [= <- <-]; eexists; (split; [done|]);
    (split; [done|]); intros ? ? ?; simplify_eq.
Qed.

(** a VALUE ends where a comment starts *)
Lemma readValue_no_comment s a b : readValue s ≠ a +:+ "//" +:+ b.
Proof.
  revert s. induction a as [|c a IH]; intros s Heq.
  - apply readValue_cons_inv in Heq as (r & -> & Heq & Hr).
    symmetry in Heq. apply readValue_cons_inv in Heq as (r' & -> & _). by eapply Hr.
  - apply readValue_cons_inv in Heq as (r & -> & Heq & _). by eapply IH.
Qed.

Lemma trimRight_prefix s : ∃ t, s = Str.trimRight s +:+ t.
Proof.
  induction s as [|c s [t IH]]; [by exists ""|]. cbn [Str.trimRight].
  destruct (Str.trimRight s) as [|d r] eqn:Hs.
  - destruct (isSpace c); [by exists (String c s)|]. exists s. done.
  - exists t. change (String c s = String c (String d r +:+ t)). by f_equal.
Qed.

Lemma trimRight_idem s : Str.trimRight (Str.trimRight s) = Str.trimRight s.
Proof.
  induction s as [|c s IH]; [done|]. cbn [Str.trimRight].
  destruct (Str.trimRight s) as [|d r] eqn:Hs.
  - destruct (isSpace c) eqn:Hc; [done|]. simpl. by rewrite Hc.
  - cbn [Str.trimRight]. cbn [Str.trimRight] in IH. by rewrite IH.
Qed.

Lemma trimRight_head s c r : Str.trimRight s = String c r → ∃ s', s = String c s'.
Proof.
  destruct s as [|d s]; [done|]. cbn [Str.trimRight].
  repeat case_match; intros [= <- <-]; eauto.
Qed.

Lemma all_app p s t : Str.all p (s +:+ t) = Str.all p s && Str.all p t.
Proof.
  induction s as [|c s IH]; [done|].
  change (Str.all p (String c (s +:+ t)) = Str.all p (String c s) && Str.all p t).
  simpl. by rewrite IH, andb_assoc.
Qed.

Lemma dropWhile_head p s c r : Str.dropWhile p s = String c r → p c = false.
Proof.
  induction s as [|d s IH]; [done|]. simpl. destruct (p d) eqn:Hd; [done|].
  by intros [= <- <-].
Qed.

(** the text of a VALUE *)
Lemma scan_value_text src : ∀ skip ac v,
  VALUE v ∈ scan skip ac src →
  Str.nonEmpty v = true
  ∧ Str.all (λ c, negb (isNewline c)) v = true
  ∧ Str.trimRight v = v
  ∧ (∀ c r, v = String c r → isBlank c = false)
  ∧ (∀ a b, v ≠ a +:+ "//" +:+ b).
Proof.
  induction src as [|ch rest IH]; intros skip ac v.
  - simpl. intros ?%list_elem_of_singleton. done.
  - destruct skip as [|k]; [|apply IH].
    destruct (scan_step ac ch rest) as (front & k & ac' & -> & _ & Hfront).
    intros [Hin|Hin]%elem_of_app; [|by eapply IH].
    destruct Hfront as [->|[->|[->|[->|[->|[(v' & -> & _ & Hne & Hv)|[(s & -> & _)|(word & -> & Hch & ->)]]]]]]];
      try (apply list_elem_of_singleton in Hin; by simplify_eq);
      try (by apply elem_of_nil in Hin).
    2:{ apply list_elem_of_singleton in Hin. by case_match. }
    apply list_elem_of_singleton in Hin. injection Hin as ->.
    set (raw := readValue (Str.dropWhile isBlank (String ch rest))) in *.
    destruct (trimRight_prefix raw) as [t Ht]. rewrite <-Hv in Ht.
    split; [done|]. split; [|split; [|split]].
    + pose proof (readValue_line (Str.dropWhile isBlank (String ch rest))) as Hline.
      fold raw in Hline. rewrite Ht, all_app in Hline.
      by apply andb_true_iff in Hline as [? _].
    + rewrite Hv. apply trimRight_idem.
    + intros c r ->. rewrite app_cons in Ht.
      unfold raw in Ht. apply readValue_cons_inv in Ht as (r' & Hd & _).
      by apply dropWhile_head in Hd.
    + intros a b ->. apply (readValue_no_comment (Str.dropWhile isBlank (String ch rest)) a (b +:+ t)).
      fold raw. by rewrite Ht, !app_assoc.
Qed.

(** a VALUE comes directly after a COLON *)
Lemma scan_value_after_colon src : ∀ skip ac pre v post,
  scan skip ac src = pre ++ VALUE v :: post →
  (pre = [] ∧ ac = true) ∨ ∃ pre', pre = pre' ++ [COLON].
Proof.
  induction src as [|ch rest IH]; intros skip ac pre v post.
  - simpl. destruct pre as [|? [|? ?]]; intros; simplify_eq.
  - destruct skip as [|k]; [|apply IH].
    destruct (scan_step ac ch rest) as (front & k & ac' & -> & Hac' & Hfront).
    assert (∀ tok, front = [tok] → (tok = VALUE v → ac = true) →
      tok :: scan k ac' rest = pre ++ VALUE v :: post →
      (pre = [] ∧ ac = true) ∨ ∃ pre', pre = pre' ++ [COLON]) as Hone.
    { intros tok -> Hv Heq. destruct pre as [|tok' pre1].
      - injection Heq as -> _. left. auto.
      - injection Heq as <- Heq. right.
        apply IH in Heq as [[-> Ht]|[pre' ->]].
        + apply Hac' in Ht as [= ->]. by exists [].
        + by exists (tok :: pre'). }
    destruct Hfront as [->|[->|[->|[->|[->|[(v' & -> & Hact & _)|[(s & -> & _)|(word & -> & Hch & ->)]]]]]]];
      try (apply Hone; done).
    + cbn [app]. intros Heq. right.
      apply IH in Heq as [[-> Ht]|[pre' ->]]; [|by eauto].
      by apply Hac' in Ht.
    + apply Hone; [done|]. by case_match.
Qed.

Lemma length_app s t : String.length (s +:+ t) = String.length s + String.length t.
Proof.
  induction s as [|c s IH]; [done|]. rewrite app_cons. simpl. by rewrite IH.
Qed.

Lemma scan_end k ac : scan k ac "" = [EOF].
Proof. by destruct k. Qed.

Lemma scan_skip_all s : ∀ k ac, String.length s ≤ k → scan k ac s = [EOF].
Proof.
  induction s as [|c s IH]; intros k ac Hk; [apply scan_end|].
  destruct k as [|k]; [simpl in Hk; lia|]. apply IH. simpl in Hk. lia.
Qed.

Lemma takeWhile_all_end p s : Str.all p s = true → Str.takeWhile p s = s.
Proof.
  induction s as [|c s IH]; [done|]. simpl. intros [Hc Hs]%andb_true_iff.
  rewrite Hc. f_equal. auto.
Qed.

(** a [//] comment runs to the next line feed, or to the end *)
Lemma scan_line_comment ac c rest :
  Str.all (λ d, negb (Ascii.eqb d LF)) c = true →
  rest = "" ∨ (∃ r, rest = String LF r) →
  scan 0 ac ("//" +:+ c +:+ rest) = scan 0 false rest.
Proof.
  intros Hc Hrest.
  assert (Str.takeWhile (λ d, negb (Ascii.eqb d LF)) (String "/" (c +:+ rest))
          = String "/" c) as Htake.
  { destruct Hrest as [->|[r ->]].
    - rewrite app_nil_r. apply takeWhile_all_end. simpl. done.
    - apply (takeWhile_all _ (String "/" c)); [simpl; done|done]. }
  change ("//" +:+ c +:+ rest) with (String "/" (String "/" (c +:+ rest))).
  assert (scan 0 ac (String "/" (String "/" (c +:+ rest)))
          = scan (String.length (Str.takeWhile (λ d, negb (Ascii.eqb d LF))
                                   (String "/" (c +:+ rest))))
                 false (String "/" (c +:+ rest))) as ->.
  { destruct ac; reflexivity. }
  rewrite Htake. apply (scan_skip (String "/" c)).
Qed.

Lemma blockCommentLength_closed c rest :
  (∀ a b, c ≠ a +:+ "*/" +:+ b) →
  blockCommentLength (c +:+ "*/" +:+ rest) = String.length c + 2.
Proof.
  induction c as [|d c IH]; intros Hc; [done|].
  change (blockCommentLength (String d (c +:+ "*/" +:+ rest)) = S (String.length c + 2)).
  assert (blockCommentLength (String d (c +:+ "*/" +:+ rest))
          = S (blockCommentLength (c +:+ "*/" +:+ rest))) as ->.
  { cbn [blockCommentLength]. repeat case_match; try done; subst.
    all: exfalso; destruct c as [|e c]; [discriminate|].
    all: rewrite app_cons in *; simplify_eq.
    all: by apply (Hc "" c). }
  f_equal. apply IH. intros a b ->. by apply (Hc (String d a) b).
Qed.

Lemma blockCommentLength_open c :
  (∀ a b, c ≠ a +:+ "*/" +:+ b) → blockCommentLength c = String.length c + 2.
Proof.
  induction c as [|d c IH]; intros Hc; [done|].
  assert (blockCommentLength (String d c) = S (blockCommentLength c)) as ->.
  { cbn [blockCommentLength]. repeat case_match; try done; subst.
    all: exfalso; by eapply (Hc ""). }
  simpl. f_equal. apply IH. intros a b ->. by apply (Hc (String d a) b).
Qed.

(** a block comment runs to the first [*/] after its opening, or to the end *)
Lemma scan_block_comment c rest :
  (∀ a b, c ≠ a +:+ "*/" +:+ b) →
  scan 0 false ("/*" +:+ c +:+ "*/" +:+ rest) = scan 0 false rest.
Proof.
  intros Hc.
  change (scan (S (blockCommentLength (c +:+ "*/" +:+ rest))) false
            (String "*" (c +:+ "*/" +:+ rest)) = scan 0 false rest).
  rewrite blockCommentLength_closed by done. cbn [scan].
  replace (String.length c + 2) with (String.length (c +:+ "*/"))
    by (rewrite length_app; simpl; lia).
  rewrite <-app_assoc.
  apply (scan_skip (c +:+ "*/")).
Qed.

Lemma scan_block_comment_open c :
  (∀ a b, c ≠ a +:+ "*/" +:+ b) → scan 0 false ("/*" +:+ c) = [EOF].
Proof.
  intros Hc.
  change (scan (S (blockCommentLength c)) false (String "*" c) = [EOF]).
  apply scan_skip_all. rewrite blockCommentLength_open by done. simpl. lia.
Qed.

End TokenFacts.

(** ** Facts: the trees of the parser *)

Import TokenFacts.


Module ShapeFacts.
Import Parser ParserFacts KeyFacts StrFacts.

Lemma trimLeft_head c r : isSpace c = false → Str.trimLeft (String c r) = String c r.
Proof. intros Hc. unfold Str.trimLeft. simpl. by rewrite Hc. Qed.

Lemma trim_idem s : Str.trim (Str.trim s) = Str.trim s.
Proof.
  unfold Str.trim. destruct (Str.trimRight (Str.trimLeft s)) as [|c r] eqn:Hs; [done|].
  destruct (trimRight_head _ _ _ Hs) as [s' Hs'].
  rewrite trimLeft_head by (by eapply dropWhile_head).
  rewrite <-Hs. apply trimRight_idem.
Qed.

Lemma parseProperty_trimmed ts :
  traced ts (λ prop, ∀ p, prop = Some p → trimmed p = true) (parseProperty ts).
Proof.
  unfold parseProperty. destruct ts as [|tok ts0]; [apply traced_Throw|].
  apply traced_skip; [by apply suffix_cons_r|]. intros ts1 Hs1.
  assert (ts1 `suffix_of` tok :: ts0) as Hs by (by apply suffix_cons_r).
  destruct ts1 as [|tok1 ts2]; [apply traced_Ok; done|].
  destruct tok1; try (apply traced_Ok; done).
  destruct ts2 as [|tok2 ts3]; [apply traced_Throw|].
  assert (ts3 `suffix_of` tok :: ts0) as Hs3.
  { do 2 apply suffix_cons_l in Hs. done. }
  assert (tok2 :: ts3 `suffix_of` tok :: ts0) as Hs2 by (by apply suffix_cons_l in Hs).
  destruct tok2; apply traced_Ok; try done; intros ? [= <-];
    unfold trimmed; cbn [value]; apply String.eqb_eq; try done; apply trim_idem.
Qed.

Lemma propertyLoop_trimmed fuel : ∀ ts ps,
  Forall (λ p, trimmed p = true) ps →
  traced ts (Forall (λ p, trimmed p = true)) (propertyLoop fuel ps ts).
Proof.
  induction fuel as [|fuel IH]; intros ts ps Hps; [done|].
  cbn [propertyLoop]. destruct ts as [|tok ts0]; [apply traced_Throw|].
  assert (traced (tok :: ts0) (Forall (λ p, trimmed p = true))
    (ts1 ← skipNewlines (tok :: ts0);
     match ts1 with
     | [] => Throw TypeError
     | RBRACE :: _ => Ok (ps, ts1)
     | IDENT _ :: _ =>
         '(prop, ts2) ← parseProperty ts1;
         ts3 ← skipNewlines ts2; propertyLoop fuel (ps ++ option_list prop) ts3
     | _ :: ts2 => ts3 ← skipNewlines ts2; propertyLoop fuel ps ts3
     end)) as Hbody.
  { apply traced_skip; [done|]. intros ts1 Hs1.
    destruct ts1 as [|tok1 ts2]; [apply traced_Throw|].
    assert (ts2 `suffix_of` tok :: ts0) as Hs2 by (by apply suffix_cons_l in Hs1).
    assert (∀ ts3 ps', ts3 `suffix_of` tok :: ts0 → Forall (λ p, trimmed p = true) ps' →
              traced (tok :: ts0) (Forall (λ p, trimmed p = true))
                (propertyLoop fuel ps' ts3)) as Hnext.
    { intros ts3 ps' Hs3 Hps'. eapply traced_suffix; [exact Hs3|by apply IH]. }
    destruct tok1;
      try (apply traced_skip; [done|]; intros ts3 Hs3; apply Hnext; [by etrans|done]).
    - eapply traced_bind;
        [eapply traced_suffix; [exact Hs1|apply parseProperty_trimmed]|].
      intros prop ts2' Hs2' Hprop. apply traced_skip; [done|]. intros ts3 Hs3.
      apply Hnext; [by etrans|]. apply Forall_app. split; [done|].
      destruct prop as [p|]; [|constructor]. apply Forall_singleton. by apply Hprop.
    - by apply traced_Ok. }
  destruct tok; try exact Hbody; by apply traced_Ok.
Qed.

Lemma wellFormed_Surface top name ps cs :
  Forall (λ p, trimmed p = true) ps →
  Forall (λ c, wellFormed false c = true) cs →
  wellFormed top (Surface name ps cs) = true.
Proof.
  intros Hps Hcs. cbn [wellFormed properties].
  apply andb_true_iff. split; apply forallb_forall; intros x Hx%list_elem_of_In.
  - by eapply (proj1 (Forall_forall _ _) Hps).
  - by eapply (proj1 (Forall_forall _ _) Hcs).
Qed.

Lemma wellFormed_leaf ps :
  Forall (λ p, trimmed p = true) ps → forallb trimmed ps = true.
Proof.
  intros Hps. apply forallb_forall. intros x Hx%list_elem_of_In.
  by eapply (proj1 (Forall_forall _ _) Hps).
Qed.

Lemma blockTail_trimmed {A} (mk : list Property → A) (P : A → Prop) fuel ts :
  (∀ ps, Forall (λ p, trimmed p = true) ps → P (mk ps)) →
  traced ts P
    (ts1 ← skipNewlines ts;
     '(properties, ts2) ← propertyLoop fuel [] ts1;
     '(_, ts3) ← expect TT.RBRACE ts2;
     Ok (mk properties, ts3)).
Proof.
  intros HP. apply traced_skip; [done|]. intros ts1 Hs1.
  eapply traced_bind;
    [eapply traced_suffix; [exact Hs1|apply propertyLoop_trimmed; constructor]|].
  intros ps ts2 Hs2 Hps. apply traced_expect_bind. intros tok ts3 ->.
  apply traced_Ok; [by apply suffix_cons_l in Hs2|auto].
Qed.

Lemma parseMaterial_wellFormed fuel ts :
  traced ts (λ node, wellFormed true node = true) (parseMaterial fuel ts).
Proof.
  unfold parseMaterial.
  apply traced_expect_bind. intros tok ts1 ->.
  apply traced_expectValue_bind. intros name tok1 ts2 ->.
  assert (ts2 `suffix_of` tok :: tok1 :: ts2) as Hs2
    by (by do 2 apply suffix_cons_r).
  apply traced_skip; [done|]. intros ts3 Hs3.
  apply traced_expect_bind. intros tok3 ts4 ->.
  eapply traced_suffix; [|apply (blockTail_trimmed (Material name))].
  - apply suffix_cons_l in Hs3. by etrans.
  - intros ps Hps. cbn [wellFormed properties]. by rewrite wellFormed_leaf.
Qed.

Lemma parseText_wellFormed fuel ts :
  traced ts (λ node, wellFormed false node = true) (parseText fuel ts).
Proof.
  unfold parseText.
  apply traced_expect_bind. intros tok ts1 ->.
  apply traced_expectValue_bind. intros content tok1 ts2 ->.
  assert (ts2 `suffix_of` tok :: tok1 :: ts2) as Hs2
    by (by do 2 apply suffix_cons_r).
  apply traced_skip; [done|]. intros ts3 Hs3.
  assert (ts3 `suffix_of` tok :: tok1 :: ts2) as Hs3' by (by etrans).
  destruct ts3 as [|tok3 ts4]; [by apply traced_Ok|].
  destruct tok3; try (by apply traced_Ok).
  eapply traced_suffix; [|apply (blockTail_trimmed (Text content))].
  - by apply suffix_cons_l in Hs3'.
  - intros ps Hps. cbn [wellFormed properties]. by rewrite wellFormed_leaf.
Qed.

Lemma surface_wellFormed fuel :
  (∀ depth ts,
     traced ts (λ node, ∀ top, wellFormed top node = true) (parseSurface depth fuel ts)) ∧
  (∀ depth ts ps cs,
     Forall (λ p, trimmed p = true) ps → Forall (λ c, wellFormed false c = true) cs →
     traced ts wellFormedInside (surfaceLoop depth fuel ps cs ts)).
Proof.
  induction fuel as [|fuel [IHs IHl]]; [by split|]. split.
  - intros depth ts. cbn [parseSurface].
    apply traced_expect_bind. intros tok ts1 ->.
    apply traced_expectValue_bind. intros name tok1 ts2 ->.
    assert (ts2 `suffix_of` tok :: tok1 :: ts2) as Hs2
      by (by do 2 apply suffix_cons_r).
    apply traced_skip; [done|]. intros ts3 Hs3.
    apply traced_expect_bind. intros tok3 ts4 ->.
    apply suffix_cons_l in Hs3.
    assert (ts4 `suffix_of` tok :: tok1 :: ts2) as Hs4 by (by etrans).
    apply traced_skip; [done|]. intros ts5 Hs5.
    assert (ts5 `suffix_of` tok :: tok1 :: ts2) as Hs5' by (by etrans).
    eapply traced_bind;
      [eapply traced_suffix; [exact Hs5'|apply IHl; constructor]|].
    intros [ps cs] ts6 Hs6 [Hps Hcs]. cbn [fst snd] in *.
    apply traced_expect_bind. intros tok6 ts7 ->.
    apply traced_Ok; [by apply suffix_cons_l in Hs6|].
    intros top. by apply wellFormed_Surface.
  - intros depth ts ps cs Hps Hcs. cbn [surfaceLoop].
    destruct ts as [|tok ts0]; [apply traced_Throw|].
    set (body := (ts1 ← skipNewlines (tok :: ts0); _)).
    assert (traced (tok :: ts0) wellFormedInside body) as Hbody.
    { subst body. apply traced_skip; [done|]. intros ts1 Hs1.
      destruct ts1 as [|tok1 ts2]; [apply traced_Throw|].
      assert (ts2 `suffix_of` tok :: ts0) as Hs2 by (by apply suffix_cons_l in Hs1).
      assert (∀ ts3 ps' cs', ts3 `suffix_of` tok :: ts0 →
                Forall (λ p, trimmed p = true) ps' →
                Forall (λ c, wellFormed false c = true) cs' →
                traced (tok :: ts0) wellFormedInside (surfaceLoop depth fuel ps' cs' ts3)) as Hnext.
      { intros ts3 ps' cs' Hs3 Hps' Hcs'.
        eapply traced_suffix; [exact Hs3|by apply IHl]. }
      assert (∀ (child : res (Node * list Token)),
        traced (tok1 :: ts2) (λ node, wellFormed false node = true) child →
        traced (tok :: ts0) wellFormedInside
          ('(child, ts2) ← child;
           ts3 ← skipNewlines ts2;
           surfaceLoop depth fuel ps (cs ++ [child]) ts3)) as Hchild.
      { intros child Hc. eapply traced_bind.
        - eapply traced_suffix; [exact Hs1|exact Hc].
        - intros node ts2' Hs2' Hnode. apply traced_skip; [done|].
          intros ts3 Hs3. apply Hnext; [by etrans|done|].
          apply Forall_app. split; [done|]. by apply Forall_singleton. }
      destruct tok1; try (by apply Hnext).
      - repeat (case_match; try (by apply Hnext)); subst; apply Hchild;
          first [ apply traced_Throw
                | eapply traced_impl; [|apply IHs]; intros node Hn; apply Hn
                | apply parseText_wellFormed ].
      - eapply traced_bind;
          [eapply traced_suffix; [exact Hs1|apply parseProperty_trimmed]|].
        intros prop ts2' Hs2' Hprop. apply traced_skip; [done|]. intros ts3 Hs3.
        apply Hnext; [by etrans| |done].
        apply Forall_app. split; [done|].
        destruct prop as [p|]; [|constructor]. apply Forall_singleton. by apply Hprop.
      - by apply traced_Ok. }
    destruct tok; try exact Hbody; by apply traced_Ok.
Qed.

Lemma parseStatement_wellFormed depth fuel ts :
  traced ts (λ node, ∀ n, node = Some n → wellFormed true n = true)
    (parseStatement depth fuel ts).
Proof.
  unfold parseStatement. destruct ts as [|tok ts0]; [apply traced_Throw|].
  assert (traced (tok :: ts0)
            (λ node : option Node, ∀ n, node = Some n → wellFormed true n = true)
            (Ok (None, ts0))) as Hskip.
  { apply traced_Ok; [by apply suffix_cons_r|done]. }
  destruct tok; try exact Hskip.
  repeat (case_match; try exact Hskip); subst.
  - eapply traced_bind; [apply (proj1 (surface_wellFormed fuel))|].
    intros node ts1 Hs1 Hnode. apply traced_Ok; [done|]. intros n [= <-]. apply Hnode.
  - eapply traced_bind; [apply parseMaterial_wellFormed|].
    intros node ts1 Hs1 Hnode. apply traced_Ok; [done|]. by intros n [= <-].
Qed.

Lemma programLoop_wellFormed depth fuel : ∀ body ts out,
  Forall (λ n, wellFormed true n = true) body →
  programLoop depth fuel body ts = Ok out → Forall (λ n, wellFormed true n = true) out.
Proof.
  induction fuel as [|fuel IH]; intros body ts out Hbody; [done|].
  cbn [programLoop]. destruct ts as [|tok ts0]; [done|].
  assert (('(node, ts1) ← parseStatement depth fuel (tok :: ts0);
           ts2 ← skipNewlines ts1; programLoop depth fuel (body ++ option_list node) ts2)
          = Ok out → Forall (λ n, wellFormed true n = true) out) as Hstep.
  { pose proof (parseStatement_wellFormed depth fuel (tok :: ts0)) as Hst.
    destruct (parseStatement depth fuel (tok :: ts0)) as [[node ts1]|e|];
      cbn [mbind res_bind]; [|done..].
    destruct (Hst _ _ eq_refl) as [Hs1 Hnode].
    destruct (skipNewlines ts1) as [ts2|e|] eqn:Hsk; cbn [mbind res_bind]; [|done..].
    apply IH. apply Forall_app. split; [done|]. destruct node as [n|]; [|constructor].
    apply Forall_singleton. by apply Hnode. }
  destruct tok; try exact Hstep. by intros [= <-].
Qed.

(** what [parse] returns is well formed *)
Lemma parse_wellFormed depth tokens body :
  parse depth tokens = Ok body → Forall (λ n, wellFormed true n = true) body.
Proof.
  unfold parse, parseProgram. intros Hparse.
  destruct (skipNewlines tokens) as [ts|e|] eqn:Hsk; cbn [mbind res_bind] in Hparse;
    [|done..].
  by eapply programLoop_wellFormed in Hparse.
Qed.


(** *** Parsing what was written out *)

Lemma upTo_bind {A B} (m : res A) (f : A → res B) a b :
  upTo m a → upTo (f a) b → upTo (m ≫= f) b.
Proof. intros [->| ->] Hf; [by left|done]. Qed.

Lemma upTo_Ok {A} (a : A) : upTo (Ok a) a.
Proof. by right. Qed.

Lemma upTo_Fuel {A} (a : A) : upTo Fuel a.
Proof. by left. Qed.


Lemma skipNewlines_startsLine ts : startsLine ts → skipNewlines ts = Ok ts.
Proof. by destruct ts as [|[] ?]. Qed.

Lemma startsLine_properties ps ts :
  startsLine ts → startsLine (flat_map propertyTokens ps ++ ts).
Proof. by destruct ps. Qed.

Lemma startsLine_nodes cs ts :
  startsLine ts → startsLine (flat_map nodeTokens cs ++ ts).
Proof. destruct cs as [|[] ?]; done. Qed.

Lemma trimmed_eq k v : trimmed (mkProperty k v) = true → Str.trim v = v.
Proof. unfold trimmed. cbn [value]. by intros ?%String.eqb_eq. Qed.

Lemma parseProperty_written p ts :
  trimmed p = true →
  parseProperty (propertyTokens p ++ ts) = Ok (Some p, NEWLINE :: ts).
Proof.
  destruct p as [k v]. intros Hv%trimmed_eq.
  unfold parseProperty, propertyTokens.
  cbn [key value app tvalue default skipNewlines mbind res_bind]. by rewrite Hv.
Qed.

Lemma propertyLoop_written fuel : ∀ acc ps ts,
  Forall (λ p, trimmed p = true) ps →
  upTo (propertyLoop fuel acc (flat_map propertyTokens ps ++ RBRACE :: ts))
       (acc ++ ps, RBRACE :: ts).
Proof.
  induction fuel as [|fuel IH]; intros acc ps ts Hps; [apply upTo_Fuel|].
  destruct Hps as [|p ps Hp Hps].
  - rewrite List.app_nil_r. apply upTo_Ok.
  - cbn [flat_map]. rewrite <-List.app_assoc.
    assert (startsLine (flat_map propertyTokens ps ++ RBRACE :: ts)) as Hstart
      by (by apply startsLine_properties).
    change (upTo
      ('(prop, ts2) ← parseProperty (propertyTokens p ++ flat_map propertyTokens ps ++ RBRACE :: ts);
       ts3 ← skipNewlines ts2; propertyLoop fuel (acc ++ option_list prop) ts3)
      (acc ++ p :: ps, RBRACE :: ts)).
    rewrite parseProperty_written by done. cbn [mbind res_bind skipNewlines].
    rewrite skipNewlines_startsLine by done. cbn [mbind res_bind option_list].
    replace (acc ++ p :: ps) with ((acc ++ [p]) ++ ps) by (by rewrite <-List.app_assoc).
    by apply IH.
Qed.


Lemma wellFormed_properties top node :
  wellFormed top node = true → Forall (λ p, trimmed p = true) (properties node).
Proof.
  destruct node as [n ps cs|n ps|n ps]; cbn [wellFormed properties];
    intros [Hps _]%andb_true_iff;
    apply Forall_forall; intros p Hp%list_elem_of_In;
    by apply (proj1 (forallb_forall _ _) Hps).
Qed.

Lemma wellFormed_children top name ps cs :
  wellFormed top (Surface name ps cs) = true →
  Forall (λ c, wellFormed false c = true) cs.
Proof.
  cbn [wellFormed]. intros [_ Hcs]%andb_true_iff.
  apply Forall_forall. intros c Hc%list_elem_of_In.
  by apply (proj1 (forallb_forall _ _) Hcs).
Qed.

Lemma expect_hit ty tok ts : type tok = ty → expect ty (tok :: ts) = Ok (tok, ts).
Proof. intros <-. unfold expect. by rewrite decide_True. Qed.

Lemma expectValue_hit ty tok ts v :
  type tok = ty → tvalue tok = Some v → expectValue ty (tok :: ts) = Ok (v, ts).
Proof. intros Hty Hv. unfold expectValue. rewrite expect_hit by done. cbn. by rewrite Hv. Qed.

Local Ltac step :=
  first [ rewrite expect_hit by done
        | erewrite expectValue_hit by done
        | rewrite skipNewlines_startsLine by
            (first [by apply startsLine_properties | by apply startsLine_nodes | done]) ];
  cbn [mbind res_bind skipNewlines].

Lemma parseMaterial_written fuel name ps ts :
  Forall (λ p, trimmed p = true) ps →
  upTo (parseMaterial fuel (nodeTokens (Material name ps) ++ ts))
       (Material name ps, NEWLINE :: ts).
Proof.
  intros Hps. unfold parseMaterial. cbn [nodeTokens].
  rewrite <-!List.app_assoc. cbn [app]. repeat step.
  eapply upTo_bind; [by apply (propertyLoop_written fuel [])|].
  cbn [app]. step. apply upTo_Ok.
Qed.

Lemma parseText_written fuel content ps ts :
  Forall (λ p, trimmed p = true) ps →
  upTo (parseText fuel (nodeTokens (Text content ps) ++ ts))
       (Text content ps, NEWLINE :: ts).
Proof.
  intros Hps. unfold parseText. cbn [nodeTokens].
  rewrite <-!List.app_assoc. cbn [app]. repeat step.
  eapply upTo_bind; [by apply (propertyLoop_written fuel [])|].
  cbn [app]. step. apply upTo_Ok.
Qed.


Lemma parseProperty_line p ts :
  trimmed p = true →
  parseProperty (IDENT (key p) :: COLON :: VALUE (value p) :: NEWLINE :: ts)
  = Ok (Some p, NEWLINE :: ts).
Proof. apply (parseProperty_written p ts). Qed.

Lemma surfaceLoop_surface depth fuel ps cs ts :
  surfaceLoop depth (S fuel) ps cs (KEYWORD "surface" :: ts) =
  '(child, ts2) ← match depth with
                  | S depth => parseSurface depth fuel (KEYWORD "surface" :: ts)
                  | O => Throw RangeError
                  end;
  ts3 ← skipNewlines ts2; surfaceLoop depth fuel ps (cs ++ [child]) ts3.
Proof. reflexivity. Qed.

Lemma surfaceLoop_text depth fuel ps cs ts :
  surfaceLoop depth (S fuel) ps cs (KEYWORD "text" :: ts) =
  '(child, ts2) ← parseText fuel (KEYWORD "text" :: ts);
  ts3 ← skipNewlines ts2; surfaceLoop depth fuel ps (cs ++ [child]) ts3.
Proof. reflexivity. Qed.

Lemma ends_Ok {A} (a : A) : ends (Ok a) (Ok a).
Proof. by right. Qed.

Lemma ends_Fuel {A} (x : res A) : ends Fuel x.
Proof. by left. Qed.

Lemma ends_bind {A B} (m : res A) (f : A → res B) a x :
  ends m (Ok a) → ends (f a) x → ends (m ≫= f) x.
Proof. intros [->| ->] Hf; [by left|done]. Qed.

Lemma ends_bind_Throw {A B} (m : res A) (f : A → res B) e :
  ends m (Throw e) → ends (m ≫= f) (Throw e).
Proof. intros [->| ->]; [by left|by right]. Qed.

Lemma ends_reads {A B} (m : res (A * list Token)) (f : A * list Token → res B)
    fit a ts x :
  ends m (reads fit a ts) →
  (fit = true → ends (f (a, ts)) x) →
  (fit = false → x = Throw RangeError) →
  ends (m ≫= f) x.
Proof.
  intros Hm Hf Hx. destruct fit; unfold reads in Hm.
  - eapply ends_bind; [exact Hm|]. by apply Hf.
  - rewrite Hx by done. by apply ends_bind_Throw.
Qed.

Lemma upTo_ends {A} (r : res A) a : upTo r a → ends r (Ok a).
Proof. done. Qed.

(** a surface fits when the surfaces inside it do *)
Lemma nesting_fitsIn depth name ps cs :
  (nesting (Surface name ps cs) <=? depth) = forallb (fitsIn depth) cs.
Proof.
  cbn [nesting]. induction cs as [|child cs IH]; [done|].
  cbn [foldr forallb]. rewrite <-IH. unfold fitsIn.
  destruct child as [n cps ccs|n cps|content cps]; cbn [isSurface negb orb].
  - apply eq_bool_prop_intro. rewrite andb_True, !Is_true_true.
    rewrite !Nat.leb_le, Nat.ltb_lt, Nat.max_lub_iff. lia.
  - done.
  - done.
Qed.

Lemma surfaceLoop_property depth fuel ps cs k ts :
  surfaceLoop depth (S fuel) ps cs (IDENT k :: ts) =
  '(prop, ts2) ← parseProperty (IDENT k :: ts);
  ts3 ← skipNewlines ts2; surfaceLoop depth fuel (ps ++ option_list prop) cs ts3.
Proof. reflexivity. Qed.

Lemma surface_written fuel :
  (∀ depth name ps cs ts,
     Forall (λ p, trimmed p = true) ps → Forall (λ c, wellFormed false c = true) cs →
     ends (parseSurface depth fuel (nodeTokens (Surface name ps cs) ++ ts))
          (reads (forallb (fitsIn depth) cs) (Surface name ps cs) (NEWLINE :: ts))) ∧
  (∀ depth accp accc ps cs ts,
     Forall (λ p, trimmed p = true) ps → Forall (λ c, wellFormed false c = true) cs →
     ends (surfaceLoop depth fuel accp accc
             (flat_map propertyTokens ps ++ flat_map nodeTokens cs ++ RBRACE :: ts))
          (reads (forallb (fitsIn depth) cs) (accp ++ ps, accc ++ cs) (RBRACE :: ts))).
Proof.
  induction fuel as [|fuel [IHs IHl]]; [split; intros; apply ends_Fuel|]. split.
  - intros depth name ps cs ts Hps Hcs. cbn [parseSurface nodeTokens].
    rewrite <-!List.app_assoc. cbn [app]. repeat step.
    rewrite skipNewlines_startsLine
      by (apply startsLine_properties; by apply startsLine_nodes).
    cbn [mbind res_bind].
    eapply ends_reads; [by apply (IHl depth [] [])| |].
    + intros ->. cbn [app]. step. apply ends_Ok.
    + by intros ->.
  - intros depth accp accc ps cs ts Hps Hcs.
    destruct Hps as [|p ps Hp Hps].
    + destruct Hcs as [|child cs Hchild Hcs].
      * rewrite !List.app_nil_r. apply ends_Ok.
      * cbn [flat_map app forallb]. rewrite <-List.app_assoc.
        assert (startsLine (flat_map nodeTokens cs ++ RBRACE :: ts)) as Hstart
          by (by apply startsLine_nodes).
        replace (accc ++ child :: cs) with ((accc ++ [child]) ++ cs)
          by (by rewrite <-List.app_assoc).
        destruct child as [name cps ccs|name cps|content cps].
        -- assert (∃ tl, nodeTokens (Surface name cps ccs)
                         ++ flat_map nodeTokens cs ++ RBRACE :: ts
                         = KEYWORD "surface" :: tl) as [tl Htl] by (eexists; reflexivity).
           rewrite Htl, surfaceLoop_surface, <-Htl.
           destruct depth as [|depth]; [by right|].
           assert (fitsIn (S depth) (Surface name cps ccs) = forallb (fitsIn depth) ccs)
             as ->.
           { rewrite <-(nesting_fitsIn depth name cps). unfold fitsIn.
             cbn [isSurface negb orb]. apply eq_bool_prop_intro.
             rewrite !Is_true_true, Nat.leb_le, Nat.ltb_lt. lia. }
           eapply ends_reads.
           { apply IHs; [exact (wellFormed_properties _ _ Hchild)|by eapply wellFormed_children]. }
           ++ intros ->. cbn [mbind res_bind skipNewlines andb]. step.
              by apply (IHl (S depth) accp _ []).
           ++ by intros ->.
        -- cbn [wellFormed] in Hchild. by rewrite andb_false_r in Hchild.
        -- assert (∃ tl, nodeTokens (Text content cps)
                         ++ flat_map nodeTokens cs ++ RBRACE :: ts
                         = KEYWORD "text" :: tl) as [tl Htl] by (eexists; reflexivity).
           rewrite Htl, surfaceLoop_text, <-Htl.
           eapply ends_bind.
           { apply upTo_ends, parseText_written. exact (wellFormed_properties _ _ Hchild). }
           cbn [mbind res_bind skipNewlines]. step. by apply (IHl depth accp _ []).
    + cbn [flat_map]. rewrite <-!List.app_assoc.
      change (propertyTokens p ++ ?x)
        with (IDENT (key p) :: COLON :: VALUE (value p) :: NEWLINE :: x).
      rewrite surfaceLoop_property, parseProperty_line by done.
      cbn [mbind res_bind skipNewlines option_list].
      rewrite skipNewlines_startsLine
        by (apply startsLine_properties; by apply startsLine_nodes).
      cbn [mbind res_bind].
      replace (accp ++ p :: ps) with ((accp ++ [p]) ++ ps)
        by (by rewrite <-List.app_assoc).
      by apply IHl.
Qed.

Lemma parseStatement_written depth fuel node ts :
  wellFormed true node = true →
  ends (parseStatement depth fuel (nodeTokens node ++ ts))
       (reads (nesting node <=? depth) (Some node) (NEWLINE :: ts)).
Proof.
  intros Hnode. destruct node as [name ps cs|name ps|content ps].
  - assert (∃ tl, nodeTokens (Surface name ps cs) ++ ts = KEYWORD "surface" :: tl)
      as [tl Htl] by (eexists; reflexivity).
    rewrite Htl.
    change (ends ('(node, ts1) ← parseSurface depth fuel (KEYWORD "surface" :: tl);
                  Ok (Some node, ts1))
                 (reads (nesting (Surface name ps cs) <=? depth)
                    (Some (Surface name ps cs)) (NEWLINE :: ts))).
    rewrite <-Htl, nesting_fitsIn.
    eapply ends_reads.
    + apply (proj1 (surface_written fuel));
        [exact (wellFormed_properties _ _ Hnode)|by eapply wellFormed_children].
    + intros ->. apply ends_Ok.
    + by intros ->.
  - assert (∃ tl, nodeTokens (Material name ps) ++ ts = KEYWORD "material" :: tl)
      as [tl Htl] by (eexists; reflexivity).
    rewrite Htl.
    change (ends ('(node, ts1) ← parseMaterial fuel (KEYWORD "material" :: tl);
                  Ok (Some node, ts1))
                 (Ok (Some (Material name ps), NEWLINE :: ts))).
    rewrite <-Htl.
    apply (ends_bind _ _ (Material name ps, NEWLINE :: ts)); [|apply ends_Ok].
    apply upTo_ends, parseMaterial_written. exact (wellFormed_properties _ _ Hnode).
  - cbn [wellFormed] in Hnode. by rewrite andb_false_r in Hnode.
Qed.

Lemma programLoop_written depth fuel : ∀ acc body,
  Forall (λ n, wellFormed true n = true) body →
  ends (programLoop depth fuel acc (programTokens body))
       (if forallb (λ n, nesting n <=? depth) body then Ok (acc ++ body)
        else Throw RangeError).
Proof.
  induction fuel as [|fuel IH]; intros acc body Hbody; [apply ends_Fuel|].
  destruct Hbody as [|node body Hnode Hbody].
  - rewrite List.app_nil_r. apply ends_Ok.
  - unfold programTokens. cbn [flat_map forallb]. rewrite <-List.app_assoc.
    assert (∃ tok tl, nodeTokens node ++ flat_map nodeTokens body ++ [EOF] = tok :: tl
                      ∧ tok ≠ EOF) as (tok & tl & Htl & Htok).
    { destruct node; eexists _, _; (split; [reflexivity|done]). }
    rewrite Htl.
    assert (programLoop depth (S fuel) acc (tok :: tl) =
            '(node, ts1) ← parseStatement depth fuel (tok :: tl);
            ts2 ← skipNewlines ts1; programLoop depth fuel (acc ++ option_list node) ts2) as ->.
    { by destruct tok. }
    rewrite <-Htl. eapply ends_reads; [by apply parseStatement_written| |].
    + intros ->. cbn [mbind res_bind skipNewlines option_list andb].
      rewrite skipNewlines_startsLine by (by apply startsLine_nodes).
      cbn [mbind res_bind].
      replace (acc ++ node :: body) with ((acc ++ [node]) ++ body)
        by (by rewrite <-List.app_assoc).
      by apply IH.
    + by intros ->.
Qed.

(** The tokens a well-formed program is written out as parse to it, when
    the call stack has room for the nesting of its surfaces; when it has
    not, [parse] throws. *)
Lemma parse_written depth body :
  Forall (λ n, wellFormed true n = true) body →
  parse depth (programTokens body)
  = if forallb (λ n, nesting n <=? depth) body then Ok body else Throw RangeError.
Proof.
  intros Hbody.
  assert (ends (parse depth (programTokens body))
            (if forallb (λ n, nesting n <=? depth) body then Ok body
             else Throw RangeError)) as [Hfuel|Hok];
    [|by apply parse_total in Hfuel|done].
  unfold parse, parseProgram.
  rewrite skipNewlines_startsLine by (by apply startsLine_nodes).
  cbn [mbind res_bind]. by apply (programLoop_written _ _ []).
Qed.


(** *** Programs without a block *)

Lemma parseStatement_skip depth fuel tok ts :
  tok ≠ KEYWORD "surface" → tok ≠ KEYWORD "material" →
  parseStatement depth fuel (tok :: ts) = Ok (None, ts).
Proof.
  intros Hs Hm. unfold parseStatement. repeat case_match; subst; done.
Qed.

Lemma programLoop_no_block depth fuel : ∀ acc ts,
  EOF ∉ ts → KEYWORD "surface" ∉ ts → KEYWORD "material" ∉ ts →
  upTo (programLoop depth fuel acc (ts ++ [EOF])) acc.
Proof.
  induction fuel as [|fuel IH]; intros acc ts Heof Hs Hm; [apply upTo_Fuel|].
  destruct ts as [|tok ts]; [apply upTo_Ok|].
  apply not_elem_of_cons in Heof as [Htok Heof].
  apply not_elem_of_cons in Hs as [Hts Hs].
  apply not_elem_of_cons in Hm as [Htm Hm].
  assert (programLoop depth (S fuel) acc ((tok :: ts) ++ [EOF]) =
          ts2 ← skipNewlines (ts ++ [EOF]); programLoop depth fuel acc ts2) as ->.
  { cbn [app programLoop]. rewrite parseStatement_skip by done.
    cbn [mbind res_bind option_list]. rewrite List.app_nil_r. by destruct tok. }
  clear Htok Hts Htm tok.
  induction ts as [|tok ts IHts].
  - cbn [app skipNewlines mbind res_bind]. by apply (IH acc []).
  - apply not_elem_of_cons in Heof as [Htok Heof].
    apply not_elem_of_cons in Hs as [Hts Hs].
    apply not_elem_of_cons in Hm as [Htm Hm].
    destruct tok; try (by apply IHts);
      cbn [app skipNewlines mbind res_bind];
      apply (IH acc (_ :: ts)); rewrite not_elem_of_cons; done.
Qed.

(** tokens without [surface] and [material] are the empty program *)
Lemma parse_no_block depth ts :
  EOF ∉ ts → KEYWORD "surface" ∉ ts → KEYWORD "material" ∉ ts →
  parse depth (ts ++ [EOF]) = Ok [].
Proof.
  intros Heof Hs Hm.
  assert (upTo (parse depth (ts ++ [EOF])) []) as [Hfuel|Hok];
    [|by apply parse_total in Hfuel|done].
  unfold parse, parseProgram.
  generalize (2 * length (ts ++ [EOF]) + 2). intros fuel.
  induction ts as [|tok ts IHts].
  - cbn [app skipNewlines mbind res_bind]. by apply (programLoop_no_block depth fuel [] []).
  - apply not_elem_of_cons in Heof as [Htok Heof].
    apply not_elem_of_cons in Hs as [Hts Hs].
    apply not_elem_of_cons in Hm as [Htm Hm].
    destruct tok; try (by apply IHts);
      cbn [app skipNewlines mbind res_bind];
      apply (programLoop_no_block depth fuel [] (_ :: ts)); rewrite not_elem_of_cons; done.
Qed.

End ShapeFacts.

(** ** Facts: what the parser throws *)

Module ErrorFacts.
Import Parser ParserFacts KeyFacts ShapeFacts.

Lemma surfaces_suffix ts0 ts : ts0 `suffix_of` ts → surfaces ts0 ≤ surfaces ts.
Proof.
  intros [pre ->]. unfold surfaces. rewrite filter_app, List.length_app. lia.
Qed.

Lemma surfaces_cons ts : surfaces (KEYWORD "surface" :: ts) = S (surfaces ts).
Proof. done. Qed.

Lemma raises_suffix depth ts0 ts e :
  ts0 `suffix_of` ts → raises depth ts0 e → raises depth ts e.
Proof.
  intros Hs [->|[[-> Hd]|(ty & tok & Hty & Htok & Hne & ->)]]; [by left|right..].
  - left. split; [done|]. apply surfaces_suffix in Hs. lia.
  - right. exists ty, tok. split; [done|]. split; [by eapply elem_of_suffix|done].
Qed.

(** a nested call raises what the call around it may raise *)
Lemma raises_nested depth ts e :
  raises depth ts e → raises (S depth) (KEYWORD "surface" :: ts) e.
Proof.
  intros [->|[[-> Hd]|(ty & tok & Hty & Htok & Hne & ->)]]; [by left|right..].
  - left. split; [done|]. rewrite surfaces_cons. lia.
  - right. exists ty, tok. split; [done|]. split; [|done]. apply elem_of_cons. by right.
Qed.

Lemma checked_Ok {A} depth ts (a : A) ts' : ts' `suffix_of` ts → checked depth ts (Ok (a, ts')).
Proof. intros Hs. split; [by intros ?? [= <- <-]|done]. Qed.

Lemma checked_TypeError {A} depth ts : checked (A := A) depth ts (Throw TypeError).
Proof. split; [done|]. intros e [= <-]. by left. Qed.

Lemma checked_Fuel {A} depth ts : checked (A := A) depth ts Fuel.
Proof. done. Qed.

Lemma checked_bind {A B} depth ts (m : res (A * list Token))
    (f : A * list Token → res (B * list Token)) :
  checked depth ts m →
  (∀ a ts1, ts1 `suffix_of` ts → checked depth ts (f (a, ts1))) →
  checked depth ts (m ≫= f).
Proof.
  intros [Hok Herr] Hf. destruct m as [[a ts1]|e|]; cbn [mbind res_bind].
  - apply Hf. by eapply Hok.
  - split; [done|]. intros e' [= <-]. by apply Herr.
  - done.
Qed.

Lemma checked_suffix {A} depth ts ts0 (r : res (A * list Token)) :
  ts0 `suffix_of` ts → checked depth ts0 r → checked depth ts r.
Proof.
  intros Hs [Hok Herr]. split.
  - intros a ts' Heq. etrans; [by eapply Hok|done].
  - intros e Heq. eapply raises_suffix; [done|by apply Herr].
Qed.

Lemma checked_skip {B} depth ts ts0 (f : list Token → res (B * list Token)) :
  ts0 `suffix_of` ts →
  (∀ ts1, ts1 `suffix_of` ts0 → checked depth ts (f ts1)) →
  checked depth ts (skipNewlines ts0 ≫= f).
Proof.
  intros Hs Hf. destruct (skipNewlines ts0) as [ts1|e|] eqn:Heq;
    cbn [mbind res_bind]; [| |done].
  - apply Hf. by apply skipNewlines_suffix.
  - assert (e = TypeError) as ->; [|apply checked_TypeError].
    clear -Heq. induction ts0 as [|[] ts0 IH]; simplify_eq/=; auto.
Qed.

Lemma checked_expect_bind {B} depth ts ts0 ty
    (f : Token * list Token → res (B * list Token)) :
  ty ∈ [TT.IDENT; TT.STRING; TT.LBRACE; TT.RBRACE] →
  ts0 `suffix_of` ts →
  (∀ tok ts1, ts0 = tok :: ts1 → checked depth ts (f (tok, ts1))) →
  checked depth ts (expect ty ts0 ≫= f).
Proof.
  intros Hty Hs Hf. destruct ts0 as [|tok ts1]; [apply checked_TypeError|].
  cbn [expect]. case_decide as Htok; cbn [mbind res_bind]; [by apply Hf|].
  split; [done|]. intros e [= <-]. right. right. exists ty, tok.
  split; [done|]. split; [|done]. eapply elem_of_suffix; [|done].
  apply elem_of_cons. by left.
Qed.

Lemma checked_expectValue_bind {B} depth ts ts0 ty
    (f : string * list Token → res (B * list Token)) :
  ty ∈ [TT.IDENT; TT.STRING; TT.LBRACE; TT.RBRACE] →
  ts0 `suffix_of` ts →
  (∀ v tok ts1, ts0 = tok :: ts1 → checked depth ts (f (v, ts1))) →
  checked depth ts (expectValue ty ts0 ≫= f).
Proof.
  intros Hty Hs Hf. destruct ts0 as [|tok ts1]; [apply checked_TypeError|].
  unfold expectValue. cbn [expect]. case_decide as Htok; cbn [mbind res_bind]; [by eapply Hf|].
  split; [done|]. intros e [= <-]. right. right. exists ty, tok.
  split; [done|]. split; [|done]. eapply elem_of_suffix; [|done].
  apply elem_of_cons. by left.
Qed.

Lemma parseProperty_checked depth ts : checked depth ts (parseProperty ts).
Proof.
  unfold parseProperty. destruct ts as [|tok ts0]; [apply checked_TypeError|].
  apply checked_skip; [by apply suffix_cons_r|]. intros ts1 Hs1.
  assert (ts1 `suffix_of` tok :: ts0) as Hs by (by apply suffix_cons_r).
  destruct ts1 as [|tok1 ts2]; [by apply checked_Ok|].
  destruct tok1; try (by apply checked_Ok).
  destruct ts2 as [|tok2 ts3]; [apply checked_TypeError|].
  assert (ts3 `suffix_of` tok :: ts0) as Hs3.
  { do 2 apply suffix_cons_l in Hs. done. }
  assert (tok2 :: ts3 `suffix_of` tok :: ts0) as Hs2 by (by apply suffix_cons_l in Hs).
  destruct tok2; by apply checked_Ok.
Qed.

Lemma propertyLoop_checked depth fuel : ∀ ts ps, checked depth ts (propertyLoop fuel ps ts).
Proof.
  induction fuel as [|fuel IH]; intros ts ps; [done|].
  cbn [propertyLoop]. destruct ts as [|tok ts0]; [apply checked_TypeError|].
  assert (checked depth (tok :: ts0)
    (ts1 ← skipNewlines (tok :: ts0);
     match ts1 with
     | [] => Throw TypeError
     | RBRACE :: _ => Ok (ps, ts1)
     | IDENT _ :: _ =>
         '(prop, ts2) ← parseProperty ts1;
         ts3 ← skipNewlines ts2; propertyLoop fuel (ps ++ option_list prop) ts3
     | _ :: ts2 => ts3 ← skipNewlines ts2; propertyLoop fuel ps ts3
     end)) as Hbody.
  { apply checked_skip; [done|]. intros ts1 Hs1.
    destruct ts1 as [|tok1 ts2]; [apply checked_TypeError|].
    assert (ts2 `suffix_of` tok :: ts0) as Hs2 by (by apply suffix_cons_l in Hs1).
    assert (∀ ts3 ps', ts3 `suffix_of` tok :: ts0 →
              checked depth (tok :: ts0) (propertyLoop fuel ps' ts3)) as Hnext.
    { intros ts3 ps' Hs3. eapply checked_suffix; [exact Hs3|by apply IH]. }
    destruct tok1;
      try (apply checked_skip; [done|]; intros ts3 Hs3; apply Hnext; by etrans).
    - eapply checked_bind;
        [eapply checked_suffix; [exact Hs1|apply parseProperty_checked]|].
      intros prop ts2' Hs2'. apply checked_skip; [done|]. intros ts3 Hs3.
      apply Hnext. by etrans.
    - by apply checked_Ok. }
  destruct tok; try exact Hbody; by apply checked_Ok.
Qed.


Local Ltac allowed := apply (bool_decide_unpack _); by vm_compute.

Lemma blockTail_checked {A} depth (mk : list Property → A) fuel ts :
  checked depth ts
    (ts1 ← skipNewlines ts;
     '(properties, ts2) ← propertyLoop fuel [] ts1;
     '(_, ts3) ← expect TT.RBRACE ts2;
     Ok (mk properties, ts3)).
Proof.
  apply checked_skip; [done|]. intros ts1 Hs1.
  eapply checked_bind;
    [eapply checked_suffix; [exact Hs1|apply propertyLoop_checked]|].
  intros ps ts2 Hs2. apply checked_expect_bind; [allowed|done|]. intros tok ts3 ->.
  apply checked_Ok. by apply suffix_cons_l in Hs2.
Qed.

Lemma parseMaterial_checked depth fuel v ts :
  checked depth (KEYWORD v :: ts) (parseMaterial fuel (KEYWORD v :: ts)).
Proof.
  unfold parseMaterial. rewrite expect_hit by done. cbn [mbind res_bind].
  assert (ts `suffix_of` KEYWORD v :: ts) as Hs by (by apply suffix_cons_r).
  apply checked_expectValue_bind; [allowed|done|]. intros name tok1 ts2 ->.
  assert (ts2 `suffix_of` KEYWORD v :: tok1 :: ts2) as Hs2
    by (by do 2 apply suffix_cons_r).
  apply checked_skip; [done|]. intros ts3 Hs3.
  assert (ts3 `suffix_of` KEYWORD v :: tok1 :: ts2) as Hs3' by (by etrans).
  apply checked_expect_bind; [allowed|done|]. intros tok3 ts4 ->.
  eapply checked_suffix; [|apply (blockTail_checked _ (Material name))].
  by apply suffix_cons_l in Hs3'.
Qed.

Lemma parseText_checked depth fuel v ts :
  checked depth (KEYWORD v :: ts) (parseText fuel (KEYWORD v :: ts)).
Proof.
  unfold parseText. rewrite expect_hit by done. cbn [mbind res_bind].
  assert (ts `suffix_of` KEYWORD v :: ts) as Hs by (by apply suffix_cons_r).
  apply checked_expectValue_bind; [allowed|done|]. intros content tok1 ts2 ->.
  assert (ts2 `suffix_of` KEYWORD v :: tok1 :: ts2) as Hs2
    by (by do 2 apply suffix_cons_r).
  apply checked_skip; [done|]. intros ts3 Hs3.
  assert (ts3 `suffix_of` KEYWORD v :: tok1 :: ts2) as Hs3' by (by etrans).
  destruct ts3 as [|tok3 ts4]; [by apply checked_Ok|].
  destruct tok3; try (by apply checked_Ok).
  eapply checked_suffix; [|apply (blockTail_checked _ (Text content))].
  by apply suffix_cons_l in Hs3'.
Qed.

(** A call of [parseSurface] is checked against the tokens after its
    keyword: a [RangeError] takes more surfaces among them than the call
    stack has room for. *)
Lemma surface_checked fuel :
  (∀ depth v ts, checked depth ts (parseSurface depth fuel (KEYWORD v :: ts))) ∧
  (∀ depth ts ps cs, checked depth ts (surfaceLoop depth fuel ps cs ts)).
Proof.
  induction fuel as [|fuel [IHs IHl]]; [by split|]. split.
  - intros depth v ts. cbn [parseSurface]. rewrite expect_hit by done. cbn [mbind res_bind].
    apply checked_expectValue_bind; [allowed|done|]. intros name tok1 ts2 ->.
    assert (ts2 `suffix_of` tok1 :: ts2) as Hs2 by (by apply suffix_cons_r).
    apply checked_skip; [done|]. intros ts3 Hs3.
    assert (ts3 `suffix_of` tok1 :: ts2) as Hs3' by (by etrans).
    apply checked_expect_bind; [allowed|done|]. intros tok3 ts4 ->.
    apply suffix_cons_l in Hs3'.
    apply checked_skip; [done|]. intros ts5 Hs5.
    assert (ts5 `suffix_of` tok1 :: ts2) as Hs5' by (by etrans).
    eapply checked_bind; [eapply checked_suffix; [exact Hs5'|apply IHl]|].
    intros [ps cs] ts6 Hs6.
    apply checked_expect_bind; [allowed|done|]. intros tok6 ts7 ->.
    apply checked_Ok. by apply suffix_cons_l in Hs6.
  - intros depth ts ps cs. cbn [surfaceLoop].
    destruct ts as [|tok ts0]; [apply checked_TypeError|].
    set (body := (ts1 ← skipNewlines (tok :: ts0); _)).
    assert (checked depth (tok :: ts0) body) as Hbody.
    { subst body. apply checked_skip; [done|]. intros ts1 Hs1.
      destruct ts1 as [|tok1 ts2]; [apply checked_TypeError|].
      assert (ts2 `suffix_of` tok :: ts0) as Hs2 by (by apply suffix_cons_l in Hs1).
      assert (∀ ts3 ps' cs', ts3 `suffix_of` tok :: ts0 →
                checked depth (tok :: ts0) (surfaceLoop depth fuel ps' cs' ts3)) as Hnext.
      { intros ts3 ps' cs' Hs3. eapply checked_suffix; [exact Hs3|by apply IHl]. }
      assert (∀ (child : res (Node * list Token)),
        checked depth (tok1 :: ts2) child →
        checked depth (tok :: ts0)
          ('(child, ts2) ← child;
           ts3 ← skipNewlines ts2;
           surfaceLoop depth fuel ps (cs ++ [child]) ts3)) as Hchild.
      { intros child Hc. eapply checked_bind.
        - eapply checked_suffix; [exact Hs1|exact Hc].
        - intros node ts2' Hs2'. apply checked_skip; [done|].
          intros ts3 Hs3. apply Hnext. by etrans. }
      assert (checked depth (KEYWORD "surface" :: ts2)
                match depth with
                | S depth => parseSurface depth fuel (KEYWORD "surface" :: ts2)
                | O => Throw RangeError
                end) as Hsurface.
      { destruct depth as [|depth].
        - split; [done|]. intros e [= <-]. right. left. split; [done|].
          rewrite surfaces_cons. lia.
        - destruct (IHs depth "surface" ts2) as [Hok Herr]. split.
          + intros node ts' Heq. apply suffix_cons_r. by eapply Hok.
          + intros e Heq. apply raises_nested. by apply Herr. }
      destruct tok1; try (by apply Hnext).
      - repeat (case_match; try (by apply Hnext)); subst; apply Hchild;
          first [exact Hsurface|apply parseText_checked].
      - eapply checked_bind;
          [eapply checked_suffix; [exact Hs1|apply parseProperty_checked]|].
        intros prop ts2' Hs2'. apply checked_skip; [done|]. intros ts3 Hs3.
        apply Hnext. by etrans.
      - by apply checked_Ok. }
    destruct tok; try exact Hbody; by apply checked_Ok.
Qed.

Lemma parseStatement_checked depth fuel ts :
  checked (S depth) ts (parseStatement depth fuel ts).
Proof.
  unfold parseStatement. destruct ts as [|tok ts0]; [apply checked_TypeError|].
  assert (checked (S depth) (tok :: ts0) (Ok (@None Node, ts0))) as Hskip.
  { apply checked_Ok. by apply suffix_cons_r. }
  destruct tok; try exact Hskip.
  repeat (case_match; try exact Hskip); subst.
  - destruct (proj1 (surface_checked fuel) depth "surface" ts0) as [Hok Herr].
    eapply checked_bind.
    + split.
      * intros node ts' Heq. apply suffix_cons_r. by eapply Hok.
      * intros e Heq. apply raises_nested. by apply Herr.
    + intros node ts1 Hs1. by apply checked_Ok.
  - eapply checked_bind; [apply parseMaterial_checked|].
    intros node ts1 Hs1. by apply checked_Ok.
Qed.

Lemma programLoop_raises depth fuel : ∀ ts body ts0 e,
  ts0 `suffix_of` ts → programLoop depth fuel body ts0 = Throw e →
  raises (S depth) ts e.
Proof.
  induction fuel as [|fuel IH]; intros ts body ts0 e Hs0; [done|].
  cbn [programLoop]. destruct ts0 as [|tok ts0']; [intros [= <-]; by left|].
  assert (('(node, ts1) ← parseStatement depth fuel (tok :: ts0');
           ts2 ← skipNewlines ts1; programLoop depth fuel (body ++ option_list node) ts2)
          = Throw e → raises (S depth) ts e) as Hstep.
  { destruct (parseStatement_checked depth fuel (tok :: ts0')) as [Hok Herr].
    destruct (parseStatement depth fuel (tok :: ts0')) as [[node ts1]|e'|];
      cbn [mbind res_bind]; [| |done].
    - specialize (Hok _ _ eq_refl).
      destruct (skipNewlines ts1) as [ts2|e'|] eqn:Hsk; cbn [mbind res_bind]; [| |done].
      + apply IH. apply skipNewlines_suffix in Hsk. by repeat (etrans; [eassumption|]).
      + intros [= <-]. left. clear -Hsk.
        induction ts1 as [|[] ts1 IH1]; simplify_eq/=; auto.
    - intros [= <-]. eapply raises_suffix; [exact Hs0|]. by apply Herr. }
  destruct tok; try exact Hstep. done.
Qed.

(** what [parse] throws *)
Lemma parse_raises depth tokens e :
  parse depth tokens = Throw e → raises (S depth) tokens e.
Proof.
  unfold parse, parseProgram. intros Hparse.
  destruct (skipNewlines tokens) as [ts|e'|] eqn:Hsk; cbn [mbind res_bind] in Hparse;
    [| |done].
  - eapply programLoop_raises; [|exact Hparse]. by apply skipNewlines_suffix.
  - injection Hparse as <-. left. clear -Hsk.
    induction tokens as [|[] ts IH]; simplify_eq/=; auto.
Qed.

End ErrorFacts.

(** ** Facts: the rules, the markup and the declarations of a compilation *)

Section TreeFacts.
Context `{Host}.
Import JsFacts StrFacts.

Lemma join_join sep L M :
  L ≠ [] → Str.join sep (Str.join sep L :: M) = Str.join sep (L ++ M).
Proof.
  induction L as [|a [|b L] IH]; intros HL; [done|done|].
  rewrite join_cons. destruct M as [|m M].
  - rewrite List.app_nil_r. by rewrite join_cons.
  - change ((a :: b :: L) ++ m :: M) with (a :: ((b :: L) ++ m :: M)).
    assert (∃ y l, (b :: L) ++ m :: M = y :: l) as (y & l & Hyl) by (by eexists _, _).
    rewrite Hyl, !join_cons, <-Hyl, <-IH by done.
    rewrite join_cons. by rewrite !app_assoc.
Qed.

Lemma chainRules_app c d1 d2 :
  chainRules c (d1 ++ d2) = chainRules c d1 ++ chainRules (c + N.of_nat (length d1)) d2.
Proof.
  revert c. induction d1 as [|d d1 IH]; intros c.
  - simpl. by rewrite N.add_0_r.
  - cbn [app chainRules length]. rewrite IH. do 3 f_equal. lia.
Qed.

Lemma chainRules_nil c decls : chainRules c decls = [] → decls = [].
Proof. by destruct decls. Qed.

Lemma Forall2_impl_elem {A B} (P Q : A → B → Prop) l k :
  Forall2 P l k → (∀ x y, x ∈ l → P x y → Q x y) → Forall2 Q l k.
Proof.
  induction 1 as [|x y l k Hxy _ IH]; intros HPQ; constructor.
  - apply HPQ; [by left|done].
  - apply IH. intros x' y' Hx'. apply HPQ. by right.
Qed.

(** declarations that resolve with some room on the call stack resolve
    with more, to the same objects *)
Lemma surfaceDeclarations_mono depth depth' m ps css :
  surfaceDeclarations depth m ps = Ok css → depth ≤ depth' →
  surfaceDeclarations depth' m ps = Ok css.
Proof.
  intros Hrun. induction 1 as [|depth' _ IH]; [done|].
  unfold surfaceDeclarations in *.
  eapply forEachAssign_agree; [|exact IH|done].
  intros p _ Hp. by apply resolveSurfaceProp_mono.
Qed.

Lemma declarations_mono depth depth' m node css :
  isSurface node = true ∨ (∃ content ps, node = Text content ps) →
  declarations depth m node = Ok css → depth ≤ depth' →
  declarations depth' m node = Ok css.
Proof.
  intros [Hs|(content & ps & ->)]; [|done].
  destruct node as [name ps cs|name ps|content ps]; [|done..]. apply surfaceDeclarations_mono.
Qed.

Lemma elements_rendered node n :
  n ∈ elements node → isSurface n = true ∨ (∃ content ps, n = Text content ps).
Proof.
  revert n. induction node as [name ps children IH|name ps|content ps]
    using Node_ind_children; intros n; cbn [elements].
  - intros [->|Hin]%elem_of_cons; [by left|].
    apply list_elem_of_In, in_flat_map in Hin as (child & Hchild & Hin).
    rewrite Forall_forall in IH. eapply IH; apply list_elem_of_In; eassumption.
  - intros Hin. by apply elem_of_nil in Hin.
  - intros ->%list_elem_of_singleton. right. eauto.
Qed.

(** the rules of the children of a surface *)
Lemma forEachChild_rules depth m (f : Node → N → res Compiled * N) children :
  Forall (λ child, ∀ c r c', f child c = (Ok r, c') →
    ∃ decls, Forall2 (λ n css, declarations depth m n = Ok css) (elements child) decls ∧
      decls ≠ [] ∧
      Compiled.css r = Str.join (String LF "") (chainRules c decls) ∧
      c' = (c + N.of_nat (length decls))%N) children →
  ∀ done c rs c',
  forEachChild f children done c = (Ok rs, c') →
  ∃ new decls, rs = done ++ new ∧
    Forall2 (λ n css, declarations depth m n = Ok css) (flat_map elements children) decls ∧
    (∀ x, Str.join (String LF "") (x :: map Compiled.css new)
          = Str.join (String LF "") (x :: chainRules c decls)) ∧
    c' = (c + N.of_nat (length decls))%N.
Proof.
  induction 1 as [|child children Hchild _ IH]; intros done c rs c' Hrun;
    cbn [forEachChild] in Hrun.
  - injection Hrun as <- <-. exists [], []. rewrite List.app_nil_r, N.add_0_r.
    split; [done|]. split; [constructor|]. done.
  - assert (∀ r c1 dchild,
      Forall2 (λ n css, declarations depth m n = Ok css) (elements child) dchild →
      dchild ≠ [] →
      Compiled.css r = Str.join (String LF "") (chainRules c dchild) →
      c1 = (c + N.of_nat (length dchild))%N →
      forEachChild f children (done ++ [r]) c1 = (Ok rs, c') →
      ∃ new decls, rs = done ++ new ∧
        Forall2 (λ n css, declarations depth m n = Ok css)
          (flat_map elements (child :: children)) decls ∧
        (∀ x, Str.join (String LF "") (x :: map Compiled.css new)
              = Str.join (String LF "") (x :: chainRules c decls)) ∧
        c' = (c + N.of_nat (length decls))%N) as Hstep.
    { intros r c1 dchild Hd Hne Hcss -> Hrest.
      apply IH in Hrest as (new & decls & -> & Hdecls & Hjoin & ->).
      exists (r :: new), (dchild ++ decls).
      split; [by rewrite <-List.app_assoc|].
      split; [by apply Forall2_app|]. split.
      - intros x. cbn [map]. rewrite !join_cons, Hjoin, Hcss.
        rewrite join_join by (by intros ?%chainRules_nil).
        rewrite chainRules_app.
        destruct dchild as [|d dchild]; [done|]. cbn [chainRules app].
        by rewrite join_cons.
      - rewrite List.length_app. lia. }
    destruct child as [name ps cs|name ps|content ps].
    + destruct (f _ c) as [[r|e|] c1] eqn:Hc; [|done..].
      apply Hchild in Hc as (dchild & Hd & Hne & Hcss & ->). by eapply Hstep.
    + apply IH in Hrun as (new & decls & -> & Hdecls & Hjoin & ->).
      exists new, decls. done.
    + cbn [compileText genId] in Hrun.
      eapply (Hstep _ _ [textDeclarations ps]); [| | | |exact Hrun]; try done.
      * by constructor.
      * cbn [length]. lia.
Qed.

Lemma compileSurface_rules m node : ∀ depth c r c',
  compileSurface depth m node c = (Ok r, c') →
  ∃ decls, Forall2 (λ n css, declarations depth m n = Ok css) (elements node) decls ∧
    decls ≠ [] ∧
    Compiled.css r = Str.join (String LF "") (chainRules c decls) ∧
    c' = (c + N.of_nat (length decls))%N.
Proof.
  induction node as [name ps children IH|name ps|content ps] using Node_ind_children;
    intros depth c r c' Hrun.
  - rewrite compileSurface_Surface in Hrun. cbv zeta in Hrun.
    destruct (surfaceDeclarations depth m ps) as [css|e|] eqn:Hcss; [|done..].
    destruct (forEachChild _ children [] (N.succ c)) as [[rs|e|] c1] eqn:Hch; [|done..].
    injection Hrun as <- <-.
    eapply (forEachChild_rules depth m) in Hch as (new & decls & -> & Hdecls & Hjoin & ->).
    2:{ eapply Forall_impl; [exact IH|]. intros child Hchild c0 r0 c0' Hrun.
        destruct depth as [|depth]; [done|]. cbn [compileChild] in Hrun.
        apply Hchild in Hrun as (decls & Hdecls & Hrest). exists decls. split; [|done].
        eapply Forall2_impl_elem; [exact Hdecls|]. intros n css' Hin Hn.
        eapply declarations_mono; [by eapply elements_rendered|exact Hn|lia]. }
    exists (css :: decls). split; [by constructor|]. split; [done|].
    split; [|cbn [length]; lia].
    cbn [Compiled.css app chainRules]. apply Hjoin.
  - destruct (compileSurface_other depth m (Material name ps) c) as (r0 & Heq & Hno); [done|].
    rewrite Heq in Hrun. by injection Hrun as -> _.
  - destruct (compileSurface_other depth m (Text content ps) c) as (r0 & Heq & Hno); [done|].
    rewrite Heq in Hrun. by injection Hrun as -> _.
Qed.


Lemma compileBody_rules depth m body : ∀ done c rs c',
  compileBody depth m body done c = (Ok rs, c') →
  ∃ new decls, rs = done ++ new ∧
    Forall2 (λ n css, declarations depth m n = Ok css) (programElements body) decls ∧
    Str.join (String LF "") (map Compiled.css new)
      = Str.join (String LF "") (chainRules c decls) ∧
    (new = [] ↔ decls = []) ∧
    c' = (c + N.of_nat (length decls))%N.
Proof.
  induction body as [|node body IH]; intros done c rs c' Hrun; cbn [compileBody] in Hrun.
  - injection Hrun as <- <-. exists [], []. rewrite List.app_nil_r, N.add_0_r.
    split; [done|]. split; [constructor|]. done.
  - destruct node as [name ps cs|name ps|content ps];
      [|by apply IH in Hrun..].
    destruct (compileSurface depth m _ c) as [[r|e|] c1] eqn:Hc; [|done..].
    apply compileSurface_rules in Hc as (dnode & Hd & Hne & Hcss & ->).
    apply IH in Hrun as (new & decls & -> & Hdecls & Hjoin & Hnil & ->).
    exists (r :: new), (dnode ++ decls).
    split; [by rewrite <-List.app_assoc|].
    split; [by apply Forall2_app|].
    split; [|split; [|rewrite List.length_app; lia]].
    + cbn [map]. rewrite chainRules_app, <-join_join by (by intros ?%chainRules_nil).
      rewrite Hcss.
      destruct new as [|r' new], decls as [|d decls].
      * done.
      * discriminate (proj1 Hnil eq_refl).
      * discriminate (proj2 Hnil eq_refl).
      * cbn [map chainRules] in *. rewrite !join_cons. by rewrite Hjoin.
    + split; [done|]. intros [? _]%app_eq_nil. done.
Qed.

(** the rules of a compilation, in document order *)
Lemma compile_rules depth ast c out c' :
  compile depth ast c = (Ok out, c') →
  ∃ decls,
    Forall2 (λ n css, declarations depth (materialTable ast) n = Ok css)
      (programElements ast) decls ∧
    outCss out = Str.join (String LF "") (chainRules c decls) ∧
    c' = (c + N.of_nat (length decls))%N.
Proof.
  unfold compile.
  destruct (compileBody _ _ ast [] c) as [[rs|e|] c1] eqn:Hb; intros [= <- <-].
  apply compileBody_rules in Hb as (new & decls & -> & Hdecls & Hjoin & _ & ->).
  exists decls. done.
Qed.


(** *** The markup and the properties *)

Lemma fitsIn_child depth name ps children child :
  nesting (Surface name ps children) ≤ depth → child ∈ children →
  fitsIn depth child = true.
Proof.
  intros Hn%Nat.leb_le Hin. rewrite ShapeFacts.nesting_fitsIn in Hn.
  apply (proj1 (forallb_forall _ _) Hn). by apply list_elem_of_In.
Qed.

Lemma fitsIn_Surface depth name ps cs :
  fitsIn depth (Surface name ps cs) = true →
  ∃ d, depth = S d ∧ nesting (Surface name ps cs) ≤ d.
Proof.
  unfold fitsIn. cbn [isSurface negb orb]. intros Hlt%Nat.ltb_lt.
  destruct depth as [|d]; [lia|]. exists d. split; [done|lia].
Qed.

(** the children that were compiled *)
Lemma forEachChild_Ok_inv (f : Node → N → res Compiled * N) children :
  ∀ done c rs c', forEachChild f children done c = (Ok rs, c') →
  Forall (λ child, isSurface child = true → ∃ c r c', f child c = (Ok r, c')) children.
Proof.
  induction children as [|child children IH]; intros done c rs c' Hrun; [constructor|].
  cbn [forEachChild] in Hrun. destruct child as [name ps cs|name ps|content ps].
  - destruct (f _ c) as [[r|e|] c1] eqn:Hc; [|done..].
    constructor; [eauto|by eapply IH].
  - constructor; [done|by eapply IH].
  - cbn [compileText genId] in Hrun. constructor; [done|by eapply IH].
Qed.

(** a surface that compiles nests no deeper than the call stack has room *)
Lemma compileSurface_nesting m node : ∀ depth c r c',
  compileSurface depth m node c = (Ok r, c') → nesting node ≤ depth.
Proof.
  induction node as [name ps children IH|name ps|content ps] using Node_ind_children;
    intros depth c r c' Hrun; [|cbn [nesting]; lia..].
  rewrite compileSurface_Surface in Hrun. cbv zeta in Hrun.
  destruct (surfaceDeclarations depth m ps) as [css|e|]; [|done..].
  destruct (forEachChild _ children [] (N.succ c)) as [[rs|e|] c1] eqn:Hch; [|done..].
  apply forEachChild_Ok_inv in Hch.
  apply Nat.leb_le. rewrite ShapeFacts.nesting_fitsIn. apply forallb_forall.
  intros child Hin%list_elem_of_In.
  rewrite Forall_forall in IH, Hch. unfold fitsIn.
  destruct (isSurface child) eqn:Hs; [|done]. cbn [negb orb].
  destruct (Hch child Hin Hs) as (c0 & r0 & c0' & Hc).
  destruct depth as [|depth]; [done|]. cbn [compileChild] in Hc.
  apply IH in Hc; [|done]. apply Nat.ltb_lt. lia.
Qed.

Lemma compileBody_nesting depth m body : ∀ done c rs c',
  compileBody depth m body done c = (Ok rs, c') →
  Forall (λ node, nesting node ≤ depth) body.
Proof.
  induction body as [|node body IH]; intros done c rs c' Hrun; [constructor|].
  cbn [compileBody] in Hrun. destruct node as [name ps cs|name ps|content ps].
  - destruct (compileSurface depth m _ c) as [[r|e|] c1] eqn:Hc; [|done..].
    constructor; [by eapply compileSurface_nesting|by eapply IH].
  - constructor; [cbn [nesting]; lia|by eapply IH].
  - constructor; [cbn [nesting]; lia|by eapply IH].
Qed.

Lemma compile_nesting depth ast c out c' :
  compile depth ast c = (Ok out, c') → Forall (λ node, nesting node ≤ depth) ast.
Proof.
  unfold compile.
  destruct (compileBody _ _ ast [] c) as [[rs|e|] c1] eqn:Hb; intros [= <- <-].
  by eapply compileBody_nesting.
Qed.

Lemma forEachChild_markup (f f' : Node → N → res Compiled * N) children :
  Forall (λ child, isSurface child = true → ∀ c r c', f child c = (Ok r, c') →
    ∃ r', f' (skeleton child) c = (Ok r', c') ∧
      Compiled.html r' = Compiled.html r) children →
  ∀ done done' c rs c',
  map Compiled.html done' = map Compiled.html done →
  forEachChild f children done c = (Ok rs, c') →
  ∃ rs', forEachChild f' (map skeleton children) done' c = (Ok rs', c') ∧
    map Compiled.html rs' = map Compiled.html rs.
Proof.
  induction 1 as [|child children Hchild _ IH]; intros done done' c rs c' Hdone Hrun;
    cbn [forEachChild map] in *.
  - injection Hrun as <- <-. by exists done'.
  - destruct child as [name ps cs|name ps|content ps]; cbn [skeleton].
    + destruct (f _ c) as [[r|e|] c1] eqn:Hc; [|done..].
      apply Hchild in Hc as (r' & Hc' & Hhtml); [|done]. cbn [skeleton] in Hc'. rewrite Hc'.
      eapply IH; [|exact Hrun]. rewrite !map_app. cbn [map]. by rewrite Hdone, Hhtml.
    + by eapply IH.
    + cbn [compileText genId] in *. eapply IH; [|exact Hrun].
      rewrite !map_app. cbn [map Compiled.html]. by rewrite Hdone.
Qed.

Lemma compileSurface_markup m m' node : ∀ depth depth' c r c',
  compileSurface depth m node c = (Ok r, c') → nesting node ≤ depth' →
  ∃ r', compileSurface depth' m' (skeleton node) c = (Ok r', c') ∧
    Compiled.html r' = Compiled.html r.
Proof.
  induction node as [name ps children IH|name ps|content ps] using Node_ind_children;
    intros depth depth' c r c' Hrun Hfit.
  - rewrite compileSurface_Surface in Hrun. cbv zeta in Hrun.
    destruct (surfaceDeclarations depth m ps) as [css|e|] eqn:Hcss; [|done..].
    destruct (forEachChild _ children [] (N.succ c)) as [[rs|e|] c1] eqn:Hch; [|done..].
    injection Hrun as <- <-.
    eapply (forEachChild_markup _ (compileChild depth' m')) in Hch as (rs' & Hch' & Hhtml);
      [| |reflexivity].
    + cbn [skeleton]. rewrite compileSurface_Surface. cbv zeta.
      cbn [surfaceDeclarations forEachAssign foldl]. rewrite Hch'.
      eexists. split; [reflexivity|]. cbn [Compiled.html]. by rewrite Hhtml.
    + rewrite Forall_forall in IH. apply Forall_forall.
      intros child Hin Hs c0 r0 c0' Hc.
      destruct child as [cname cps ccs|?|?]; [|done..].
      destruct (fitsIn_Surface depth' cname cps ccs) as (d' & -> & Hd');
        [by eapply fitsIn_child|].
      destruct depth as [|depth]; [done|]. cbn [compileChild] in *.
      by eapply IH.
  - destruct (compileSurface_other depth m (Material name ps) c) as (r0 & Heq & Hno); [done|].
    rewrite Heq in Hrun. by injection Hrun as -> _.
  - destruct (compileSurface_other depth m (Text content ps) c) as (r0 & Heq & Hno); [done|].
    rewrite Heq in Hrun. by injection Hrun as -> _.
Qed.

Lemma compileBody_markup depth m depth' m' body : ∀ done done' c rs c',
  Forall (λ node, nesting node ≤ depth') body →
  map Compiled.html done' = map Compiled.html done →
  compileBody depth m body done c = (Ok rs, c') →
  ∃ rs', compileBody depth' m' (map skeleton body) done' c = (Ok rs', c') ∧
    map Compiled.html rs' = map Compiled.html rs.
Proof.
  induction body as [|node body IH]; intros done done' c rs c' Hfit Hdone Hrun;
    cbn [compileBody map] in *.
  - injection Hrun as <- <-. by exists done'.
  - apply Forall_cons in Hfit as [Hnode Hfit].
    destruct node as [name ps cs|name ps|content ps]; cbn [skeleton];
      [|by eapply IH..].
    destruct (compileSurface depth m _ c) as [[r|e|] c1] eqn:Hc; [|done..].
    apply (compileSurface_markup _ m' _ _ depth') in Hc as (r' & Hc' & Hhtml); [|done].
    cbn [skeleton] in Hc'. rewrite Hc'.
    eapply IH; [done| |exact Hrun]. rewrite !map_app. cbn [map]. by rewrite Hdone, Hhtml.
Qed.

(** the markup of a program is the markup of its skeleton, whenever the
    call stack has room for the nesting of its surfaces *)
Lemma compile_markup depth depth' ast c out c' :
  compile depth ast c = (Ok out, c') →
  Forall (λ node, nesting node ≤ depth') ast →
  ∃ out', compile depth' (skeleton <$> ast) c = (Ok out', c') ∧ outHtml out' = outHtml out.
Proof.
  unfold compile.
  destruct (compileBody _ _ ast [] c) as [[rs|e|] c1] eqn:Hb; intros [= <- <-] Hfit.
  eapply (compileBody_markup _ _ depth' (materialTable (skeleton <$> ast)) _ [] [])
    in Hb as (rs' & Hb' & Hhtml); [|done..].
  change (skeleton <$> ast) with (map skeleton ast) in *.
  rewrite Hb'. eexists. split; [reflexivity|]. cbn [outHtml]. by rewrite Hhtml.
Qed.


(** *** Programs without references *)

Lemma surfaceSwitch_None_Ok key value : ∃ o, surfaceSwitch None key value = Ok o.
Proof. unfold surfaceSwitch. repeat case_match; eauto. Qed.

Lemma resolveSurfaceProp_plain depth k v m :
  k ≠ "use" → k ≠ "material" → ∃ o, resolveSurfaceProp depth k v m = Ok o.
Proof.
  intros Hu Hm. rewrite resolveSurfaceProp_unfold.
  rewrite (surfaceSwitch_other _ None) by done. apply surfaceSwitch_None_Ok.
Qed.

Lemma forEachAssign_Ok R ps : ∀ base,
  (∀ p, p ∈ ps → ∃ o, R p = Ok o) → ∃ css, forEachAssign R (Ok base) ps = Ok css.
Proof.
  induction ps as [|p ps IH]; intros base HR; [by exists base|].
  rewrite forEachAssign_cons. destruct (HR p) as [o ->]; [by left|].
  cbn [mbind res_bind]. apply IH. intros q Hq. apply HR. by right.
Qed.

Lemma hasKey_inv k node :
  hasKey k node →
  (∃ p, p ∈ properties node ∧ key p = k)
  ∨ ∃ child, child ∈ match node with Surface _ _ cs => cs | _ => [] end ∧ hasKey k child.
Proof. inversion 1; subst; eauto. Qed.

Lemma hasKey_Surface k name ps cs :
  ¬ hasKey k (Surface name ps cs) →
  (∀ p, p ∈ ps → key p ≠ k) ∧ Forall (λ child, ¬ hasKey k child) cs.
Proof.
  intros Hno. split.
  - intros p Hp Hk. apply Hno. by eapply hasKey_here.
  - apply Forall_forall. intros child Hchild Hk. apply Hno. by eapply hasKey_child.
Qed.

Lemma forEachChild_plain (f : Node → N → res Compiled * N) (fit : Node → bool) children :
  Forall (λ child, if isSurface child then ∀ c, compiles (fit child) (f child c)
                   else fit child = true) children →
  ∀ done c, compiles (forallb fit children) (forEachChild f children done c).
Proof.
  induction 1 as [|child children Hchild _ IH]; intros done c;
    cbn [forEachChild forallb]; [by eexists _, _|].
  destruct child as [name ps cs|name ps|content ps]; cbn [isSurface] in Hchild.
  - specialize (Hchild c). destruct (fit (Surface name ps cs)); cbn [compiles andb] in *.
    + destruct Hchild as (r & c1 & ->). apply IH.
    + destruct Hchild as (c1 & ->). by eexists.
  - rewrite Hchild. apply IH.
  - rewrite Hchild. apply IH.
Qed.

Lemma compileSurface_plain m node :
  isSurface node = true → ¬ hasKey "use" node → ¬ hasKey "material" node →
  ∀ depth c, compiles (nesting node <=? depth) (compileSurface depth m node c).
Proof.
  induction node as [name ps children IH|name ps|content ps] using Node_ind_children;
    [|done..].
  intros _ [Hu Hcu]%hasKey_Surface [Hm Hcm]%hasKey_Surface depth c.
  rewrite compileSurface_Surface. cbv zeta.
  destruct (forEachAssign_Ok
              (λ prop, resolveSurfaceProp depth (key prop) (value prop) m) ps surfaceDefaults)
    as [css Hcss].
  { intros p Hp. apply resolveSurfaceProp_plain; auto. }
  unfold surfaceDeclarations. rewrite Hcss.
  rewrite ShapeFacts.nesting_fitsIn.
  pose proof (forEachChild_plain (compileChild depth m) (fitsIn depth) children) as Hch.
  destruct (forallb (fitsIn depth) children); cbn [compiles] in *.
  - destruct (Hch) with (done := @nil Compiled) (c := N.succ c) as (rs & c1 & ->);
      [|by eexists _, _].
    rewrite Forall_forall in IH, Hcu, Hcm. apply Forall_forall.
    intros child Hchild. destruct child as [cname cps ccs|?|?]; [|done..].
    cbn [isSurface]. intros c0. destruct depth as [|depth]; [by eexists|].
    apply (IH _ Hchild eq_refl (Hcu _ Hchild) (Hcm _ Hchild) depth c0).
  - destruct (Hch) with (done := @nil Compiled) (c := N.succ c) as (c1 & ->);
      [|by eexists].
    rewrite Forall_forall in IH, Hcu, Hcm. apply Forall_forall.
    intros child Hchild. destruct child as [cname cps ccs|?|?]; [|done..].
    cbn [isSurface]. intros c0. destruct depth as [|depth]; [by eexists|].
    apply (IH _ Hchild eq_refl (Hcu _ Hchild) (Hcm _ Hchild) depth c0).
Qed.

Lemma compileBody_plain depth m body :
  Forall (λ node, isSurface node = true →
            ¬ hasKey "use" node ∧ ¬ hasKey "material" node) body →
  ∀ done c, compiles (forallb (λ node, nesting node <=? depth) body)
              (compileBody depth m body done c).
Proof.
  induction 1 as [|node body Hnode _ IH]; intros done c; cbn [compileBody forallb];
    [by eexists _, _|].
  destruct node as [name ps cs|name ps|content ps]; [|apply IH..].
  destruct (Hnode eq_refl) as [Hu Hm].
  pose proof (compileSurface_plain m (Surface name ps cs) eq_refl Hu Hm depth c) as Hs.
  destruct (nesting (Surface name ps cs) <=? depth); cbn [compiles andb] in *.
  - destruct Hs as (r & c1 & ->). apply IH.
  - destruct Hs as (c1 & ->). by eexists.
Qed.

(** a program whose surfaces refer to no material compiles, when the call
    stack has room for the nesting of its surfaces, and throws the error of
    the engine when it has not *)
Lemma compile_plain depth ast c :
  Forall (λ node, isSurface node = true →
            ¬ hasKey "use" node ∧ ¬ hasKey "material" node) ast →
  if forallb (λ node, nesting node <=? depth) ast
  then ∃ out, compile depth ast c
              = (Ok out, (c + N.of_nat (length (programElements ast)))%N)
  else ∃ c', compile depth ast c = (Throw RangeError, c').
Proof.
  intros Hast.
  pose proof (compileBody_plain depth (materialTable ast) ast Hast [] c) as Hb.
  destruct (forallb _ ast); cbn [compiles] in Hb.
  - destruct Hb as (rs & c1 & Hb).
    assert (∃ out, compile depth ast c = (Ok out, c1)) as [out Hout].
    { unfold compile. rewrite Hb. eauto. }
    exists out. rewrite Hout.
    apply compile_rules in Hout as (decls & Hdecls & _ & ->).
    by rewrite (Forall2_length _ _ _ Hdecls).
  - destruct Hb as (c1 & Hb). exists c1. unfold compile. by rewrite Hb.
Qed.


(** *** The place of a material in the program *)

Lemma tableStep_comm m n ps node :
  (∀ ps', node ≠ Material n ps') →
  tableStep (tableStep m (Material n ps)) node
  = tableStep (tableStep m node) (Material n ps).
Proof.
  intros Hne. destruct node as [name' ps' cs'|n' ps'|content ps']; [done| |done].
  assert (n' ≠ n) as Hn by (intros ->; by destruct (Hne ps')).
  cbn [tableStep]. unfold mmSet. destruct m as [o p].
  repeat case_decide; simplify_eq; cbn [own protoNode]; try done.
  f_equal. by apply insert_insert_ne.
Qed.

Lemma foldl_tableStep_move m n ps mid :
  (∀ ps', Material n ps' ∉ mid) →
  foldl tableStep (tableStep m (Material n ps)) mid
  = tableStep (foldl tableStep m mid) (Material n ps).
Proof.
  revert m. induction mid as [|node mid IH]; intros m Hmid; [done|].
  cbn [foldl]. rewrite tableStep_comm.
  - apply IH. intros ps' Hin. apply (Hmid ps'). by right.
  - intros ps' ->. apply (Hmid ps'). by left.
Qed.

Lemma materialTable_move pre n ps mid post :
  (∀ ps', Material n ps' ∉ mid) →
  materialTable (pre ++ Material n ps :: mid ++ post)
  = materialTable (pre ++ mid ++ Material n ps :: post).
Proof.
  intros Hmid. unfold materialTable.
  rewrite !foldl_app. cbn [foldl]. rewrite !foldl_app. cbn [foldl].
  by rewrite foldl_tableStep_move.
Qed.

Lemma compileBody_app depth m pre post : ∀ acc c,
  compileBody depth m (pre ++ post) acc c =
  match compileBody depth m pre acc c with
  | (Ok rs, c1) => compileBody depth m post rs c1
  | other => other
  end.
Proof.
  induction pre as [|node pre IH]; intros acc c; [done|].
  cbn [app compileBody]. destruct node as [name ps cs|name ps|content ps]; [|apply IH..].
  destruct (compileSurface depth m _ c) as [[r|e|] c1]; [apply IH|done..].
Qed.

(** moving a material over nodes that define no material of its name *)
Lemma compile_material_move depth pre n ps mid post c :
  (∀ ps', Material n ps' ∉ mid) →
  compile depth (pre ++ Material n ps :: mid ++ post) c
  = compile depth (pre ++ mid ++ Material n ps :: post) c.
Proof.
  intros Hmid. unfold compile. rewrite (materialTable_move pre n ps mid post Hmid).
  f_equal.
  set (m := materialTable _).
  rewrite !compileBody_app.
  destruct (compileBody depth m pre [] c) as [[rs|e|] c1]; [|done..].
  cbn [compileBody]. rewrite !compileBody_app.
  by destruct (compileBody depth m mid rs c1) as [[rs'|e|] c2].
Qed.


(** *** The order of the declarations *)

Lemma filter_ext_in {A} (P Q : A → Prop)
    `{!∀ x, Decision (P x), !∀ x, Decision (Q x)} (l : list A) :
  (∀ x, x ∈ l → P x ↔ Q x) → filter P l = filter Q l.
Proof.
  induction l as [|a l IH]; intros HPQ; [done|].
  rewrite !filter_cons. rewrite IH by (intros x Hx; apply HPQ; by right).
  apply decide_ext. apply HPQ. by left.
Qed.

Lemma keys_assign b : ∀ a,
  NoDup (Js.keys b) → Js.keys (Js.assign a b) = Js.keys a ++ newKeys a b.
Proof.
  unfold newKeys. induction b as [|[k v] b IH]; intros a Hb.
  - rewrite assign_nil. cbn. by rewrite List.app_nil_r.
  - apply NoDup_cons in Hb as [Hk Hb]. rewrite assign_cons, IH by done.
    change (Js.keys ((k, v) :: b)) with (k :: Js.keys b). rewrite filter_cons.
    unfold Js.setProp. destruct (decide (k = "__proto__")) as [->|Hproto].
    { rewrite decide_False; [done|]. by intros [_ ?]. }
    destruct (decide (k ∈ Js.keys a)) as [Hin|Hout].
    + rewrite keys_update_in by done. rewrite decide_False; [done|]. by intros [? _].
    + rewrite keys_update_notin by done. rewrite decide_True by done.
      unfold Js.keys at 1. rewrite fmap_app. cbn [fmap list_fmap fst].
      rewrite <-List.app_assoc. cbn [app]. do 2 f_equal.
      apply filter_ext_in. intros x Hx.
      unfold Js.keys at 1. rewrite fmap_app, elem_of_app. cbn [fmap list_fmap fst].
      rewrite list_elem_of_singleton.
      assert (x ≠ k) by (by intros ->). unfold Js.keys. tauto.
Qed.

Lemma forEachAssign_snoc R init ps p :
  forEachAssign R init (ps ++ [p]) =
  (css ← forEachAssign R init ps; resolved ← R p; Ok (Js.assign css resolved)).
Proof. unfold forEachAssign. by rewrite foldl_app. Qed.

Lemma forEachAssign_prefix R base ps css :
  forEachAssign R (Ok base) ps = Ok css →
  (∀ p o, p ∈ ps → R p = Ok o → NoDup (Js.keys o)) →
  ∃ rest, Js.keys css = Js.keys base ++ rest.
Proof.
  revert css. induction ps as [|p ps IH] using rev_ind; intros css Hrun HR.
  - injection Hrun as <-. exists []. by rewrite List.app_nil_r.
  - rewrite forEachAssign_snoc in Hrun.
    destruct (forEachAssign R (Ok base) ps) as [css0|e|] eqn:Hps; [|done..].
    cbn [mbind res_bind] in Hrun.
    destruct (R p) as [o|e|] eqn:Hp; [|done..]. injection Hrun as <-.
    destruct (IH css0 eq_refl) as [rest Hrest].
    { intros q o' Hq. apply HR. apply elem_of_app. by left. }
    rewrite keys_assign by (eapply HR; [|exact Hp]; apply elem_of_app; right; by left).
    rewrite Hrest, <-List.app_assoc. eauto.
Qed.

(** the keys of the declarations of a surface *)
Lemma surfaceDeclarations_keys depth m ps p css' :
  surfaceDeclarations depth m (ps ++ [p]) = Ok css' →
  ∃ css o, surfaceDeclarations depth m ps = Ok css ∧
    resolveSurfaceProp depth (key p) (value p) m = Ok o ∧
    css' = Js.assign css o ∧
    Js.keys css' = Js.keys css ++ newKeys css o.
Proof.
  unfold surfaceDeclarations. rewrite forEachAssign_snoc. intros Hrun.
  destruct (forEachAssign _ (Ok surfaceDefaults) ps) as [css|e|]; [|done..].
  cbn [mbind res_bind] in Hrun.
  destruct (resolveSurfaceProp depth (key p) (value p) m) as [o|e|] eqn:Hp; [|done..].
  injection Hrun as <-. exists css, o. split; [done|]. split; [done|]. split; [done|].
  apply keys_assign. by eapply resolveSurfaceProp_NoDup.
Qed.

Lemma surfaceDeclarations_defaults depth m ps css :
  surfaceDeclarations depth m ps = Ok css →
  ∃ rest, Js.keys css = "box-sizing" :: "position" :: rest.
Proof.
  intros Hrun. eapply forEachAssign_prefix in Hrun as [rest Hrest];
    [exists rest; exact Hrest|].
  intros p o _ Hp. by eapply resolveSurfaceProp_NoDup.
Qed.

Lemma textDeclarations_snoc ps p :
  textDeclarations (ps ++ [p]) =
  Js.assign (textDeclarations ps) (resolveTextProp (key p) (value p)).
Proof. unfold textDeclarations. by rewrite foldl_app. Qed.

Lemma resolveTextProp_NoDup k v : NoDup (Js.keys (resolveTextProp k v)).
Proof. unfold resolveTextProp. repeat case_match; apply NoDup_singleton. Qed.

Lemma textDeclarations_keys ps p :
  Js.keys (textDeclarations (ps ++ [p]))
  = Js.keys (textDeclarations ps)
    ++ newKeys (textDeclarations ps) (resolveTextProp (key p) (value p)).
Proof. rewrite textDeclarations_snoc. apply keys_assign, resolveTextProp_NoDup. Qed.

Lemma textDeclarations_defaults ps :
  ∃ rest, Js.keys (textDeclarations ps) = "box-sizing" :: "margin" :: rest.
Proof.
  induction ps as [|p ps [rest IH]] using rev_ind; [by exists []|].
  rewrite textDeclarations_keys, IH. eauto.
Qed.


(** *** Materials that refer to themselves *)

Lemma forEachAssign_fail R init ps p :
  p ∈ ps → isOk (R p) = false → isOk (forEachAssign R init ps) = false.
Proof.
  intros (pre & post & ->)%list_elem_of_split Hp.
  rewrite forEachAssign_app.
  destruct (forEachAssign R init pre) as [css|e|];
    [|by rewrite forEachAssign_Throw|by rewrite forEachAssign_Fuel].
  rewrite forEachAssign_cons. destruct (R p) as [o|e|]; [done|..]; cbn [mbind res_bind].
  - by rewrite forEachAssign_Throw.
  - by rewrite forEachAssign_Fuel.
Qed.

Lemma materialProp_reference R k v :
  k = "use" ∨ k = "material" → materialProp R (mkProperty k v) = R k v.
Proof. by intros [->| ->]. Qed.

(** a reference into a cycle of references resolves at no depth *)
Lemma resolveSurfaceProp_cyclic m (cyclic : string → Prop) :
  (∀ a, cyclic a → ∃ node k b,
     mmGet m a = Found node ∧ (k = "use" ∨ k = "material") ∧
     mkProperty k b ∈ properties node ∧ cyclic b) →
  ∀ depth a k, cyclic a → k = "use" ∨ k = "material" →
  isOk (resolveSurfaceProp depth k a m) = false.
Proof.
  intros Hcyc. induction depth as [|depth IH]; intros a k Ha Hk;
    destruct (Hcyc a Ha) as (node & k' & b & Hget & Hk' & Hin & Hb);
    rewrite resolveSurfaceProp_unfold, Hget.
  - by destruct Hk as [->| ->].
  - assert (isOk (resolveMaterialNode depth node m) = false) as Hnode.
    { unfold resolveMaterialNode. eapply forEachAssign_fail; [exact Hin|].
      rewrite materialProp_reference by done. by apply IH. }
    destruct Hk as [->| ->].
    + by rewrite surfaceSwitch_use.
    + by rewrite surfaceSwitch_material.
Qed.

Lemma surfaceDeclarations_cyclic m (cyclic : string → Prop) depth ps k a :
  (∀ a, cyclic a → ∃ node k b,
     mmGet m a = Found node ∧ (k = "use" ∨ k = "material") ∧
     mkProperty k b ∈ properties node ∧ cyclic b) →
  cyclic a → k = "use" ∨ k = "material" → mkProperty k a ∈ ps →
  isOk (surfaceDeclarations depth m ps) = false.
Proof.
  intros Hcyc Ha Hk Hin. unfold surfaceDeclarations.
  eapply forEachAssign_fail; [exact Hin|]. cbn [key value].
  by eapply resolveSurfaceProp_cyclic.
Qed.

End TreeFacts.

(** ** Facts: escaped text and the arguments of a call *)

Module EscapeFacts.
Import StrFacts TokenFacts.

Lemma flatMap_app f a b : Str.flatMap f (a +:+ b) = Str.flatMap f a +:+ Str.flatMap f b.
Proof.
  induction a as [|c a IH]; [done|]. rewrite app_cons. cbn [Str.flatMap].
  by rewrite IH, app_assoc.
Qed.

Lemma replaceAll_app c by_ a b :
  replaceAll c by_ (a +:+ b) = replaceAll c by_ a +:+ replaceAll c by_ b.
Proof. apply flatMap_app. Qed.

Lemma escapeHTML_app a b : escapeHTML (a +:+ b) = escapeHTML a +:+ escapeHTML b.
Proof. unfold escapeHTML. by rewrite !replaceAll_app. Qed.

Lemma escapeHTML_cons c s : escapeHTML (String c s) = escapeHTML (String c "") +:+ escapeHTML s.
Proof. apply (escapeHTML_app (String c "") s). Qed.

(** what [escapeHTML] writes for one character *)
Lemma escapeHTML_char c :
  escapeHTML (String c "") =
  if Ascii.eqb c "&" then "&amp;"
  else if Ascii.eqb c "<" then "&lt;"
  else if Ascii.eqb c ">" then "&gt;"
  else if Ascii.eqb c DQUOTE then "&quot;"
  else String c "".
Proof. destruct c as [[] [] [] [] [] [] [] []]; reflexivity. Qed.

Lemma escapeHTML_safe s :
  Str.all (λ c, negb (Ascii.eqb c "<" || Ascii.eqb c ">" || Ascii.eqb c DQUOTE))
    (escapeHTML s) = true.
Proof.
  induction s as [|c s IH]; [done|].
  rewrite escapeHTML_cons, all_app, IH, andb_true_r, escapeHTML_char.
  destruct (Ascii.eqb_spec c "&"); [done|].
  destruct (Ascii.eqb_spec c "<"); [done|].
  destruct (Ascii.eqb_spec c ">"); [done|].
  destruct (Ascii.eqb_spec c DQUOTE); [done|].
  cbn [Str.all]. rewrite andb_true_r.
  by rewrite !(proj2 (Ascii.eqb_neq _ _)).
Qed.

Lemma escapeHTML_inj a : ∀ b, escapeHTML a = escapeHTML b → a = b.
Proof.
  induction a as [|c a IH]; intros [|d b].
  - done.
  - rewrite (escapeHTML_cons d), escapeHTML_char. repeat case_match; done.
  - rewrite (escapeHTML_cons c), escapeHTML_char. repeat case_match; done.
  - rewrite (escapeHTML_cons c), (escapeHTML_cons d), !escapeHTML_char.
    destruct (Ascii.eqb_spec c "&") as [->|Hc1];
    [|destruct (Ascii.eqb_spec c "<") as [->|Hc2];
      [|destruct (Ascii.eqb_spec c ">") as [->|Hc3];
        [|destruct (Ascii.eqb_spec c DQUOTE) as [->|Hc4]]]];
    (destruct (Ascii.eqb_spec d "&") as [->|Hd1];
     [|destruct (Ascii.eqb_spec d "<") as [->|Hd2];
       [|destruct (Ascii.eqb_spec d ">") as [->|Hd3];
         [|destruct (Ascii.eqb_spec d DQUOTE) as [->|Hd4]]]]);
    rewrite ?app_cons; intros Heq; simplify_eq; try done;
    f_equal; apply IH; done.
Qed.

End EscapeFacts.


Module FnFacts.
Import StrFacts LexerFacts TokenFacts.

Lemma splitArgs_closes a : ∀ d cur rest d',
  closes d a = Some d' → splitArgs d cur (a +:+ rest) = splitArgs d' (cur +:+ a) rest.
Proof.
  induction a as [|c a IH]; intros d cur rest d' Hc.
  - injection Hc as <-. by rewrite app_nil_r.
  - rewrite app_cons. cbn [closes splitArgs] in *.
    replace (cur +:+ String c a) with ((cur +:+ String c "") +:+ a)
      by (by rewrite app_assoc).
    repeat case_match; try done; by apply IH.
Qed.

Lemma splitArgs_comma cur rest :
  splitArgs 0 cur (String "," rest) = Str.trim cur :: splitArgs 0 "" rest.
Proof. reflexivity. Qed.

Lemma splitArgs_last last cur :
  closes 0 last = Some 0%Z →
  splitArgs 0 cur last =
  if Str.nonEmpty (Str.trim (cur +:+ last)) then [Str.trim (cur +:+ last)] else [].
Proof.
  intros Hlast. rewrite <-(app_nil_r last) at 1.
  by rewrite (splitArgs_closes _ _ _ _ _ Hlast).
Qed.

Lemma splitArgs_more a rest cur :
  closes 0 a = Some 0%Z →
  splitArgs 0 cur (a +:+ "," +:+ rest) = Str.trim (cur +:+ a) :: splitArgs 0 "" rest.
Proof. intros Ha. by rewrite (splitArgs_closes _ _ _ _ _ Ha). Qed.

(** the arguments come back, trimmed *)
Lemma splitArgs_join args last :
  Forall (λ a, closes 0 a = Some 0%Z) (args ++ [last]) →
  Str.nonEmpty (Str.trim last) = true →
  splitArgs 0 "" (Str.join "," (args ++ [last])) = Str.trim <$> (args ++ [last]).
Proof.
  intros Hall Hlast. induction args as [|a args IH].
  - inversion Hall as [|? ? Hl _]; subst. cbn [app Str.join fmap list_fmap].
    rewrite splitArgs_last by done. change ("" +:+ last) with last. by rewrite Hlast.
  - inversion Hall as [|? ? Ha Hrest]; subst.
    assert (∃ b l, args ++ [last] = b :: l) as (b & l & Hbl) by (destruct args; eauto).
    cbn [app]. rewrite Hbl, join_cons, <-Hbl.
    rewrite splitArgs_more by done. rewrite IH by done. done.
Qed.

Lemma lastChar_snoc s c : lastChar (s +:+ String c "") = Some c.
Proof.
  induction s as [|d s IH]; [done|]. rewrite app_cons.
  cbn [lastChar]. destruct (s +:+ String c "") eqn:Hs; [by destruct s|done].
Qed.

Lemma take_app_length s t : Str.take (String.length s) (s +:+ t) = s.
Proof.
  induction s as [|c s IH]; [by destruct t|]. rewrite app_cons. simpl. by rewrite IH.
Qed.

(** a name, and a text in parentheses that has no line break *)
Lemma parseFn_call name body :
  Str.nonEmpty name = true → Str.all isIdentChar name = true →
  Str.nonEmpty body = true → Str.all (λ c, negb (isNewline c)) body = true →
  parseFn (name +:+ "(" +:+ body +:+ ")") = Some (name, splitArgs 0 "" body).
Proof.
  intros Hname Hident Hbody Hline. unfold parseFn.
  change ("(" +:+ body +:+ ")") with (String "(" (body +:+ ")")).
  rewrite takeWhile_all by done. rewrite drop_app_length.
  rewrite Hname, lastChar_snoc, bool_decide_eq_true_2 by done.
  rewrite all_app, Hline. cbn [Str.all negb isNewline Ascii.eqb andb orb].
  rewrite length_app. cbn [String.length].
  replace (String.length body + 1 - 1) with (String.length body) by lia.
  rewrite take_app_length.
  destruct body as [|c b]; [done|]. cbn [String.length].
  replace (2 <=? S (String.length b) + 1) with true
    by (symmetry; apply Nat.leb_le; lia).
  done.
Qed.


Lemma all_join p sep l :
  Str.all p sep = true → Forall (λ a, Str.all p a = true) l →
  Str.all p (Str.join sep l) = true.
Proof.
  intros Hsep. induction 1 as [|a [|b l] Ha Hl IH]; [done|done|].
  rewrite join_cons, !all_app, Ha, Hsep. by apply IH.
Qed.

Lemma nonEmpty_app_r s t : Str.nonEmpty t = true → Str.nonEmpty (s +:+ t) = true.
Proof. destruct s; [done|]. by rewrite app_cons. Qed.

Lemma nonEmpty_join_last sep args last :
  Str.nonEmpty last = true → Str.nonEmpty (Str.join sep (args ++ [last])) = true.
Proof.
  intros Hlast. induction args as [|a args IH]; [done|].
  assert (∃ b l, args ++ [last] = b :: l) as (b & l & Hbl) by (destruct args; eauto).
  cbn [app]. rewrite Hbl, join_cons, <-Hbl. by do 2 apply nonEmpty_app_r.
Qed.

Lemma nonEmpty_trim s : Str.nonEmpty (Str.trim s) = true → Str.nonEmpty s = true.
Proof. by destruct s. Qed.

(** a call written with its arguments between commas is read back *)
Lemma parseFn_join name args last :
  Str.nonEmpty name = true → Str.all isIdentChar name = true →
  Forall (λ a, closes 0 a = Some 0%Z) (args ++ [last]) →
  Forall (λ a, Str.all (λ c, negb (isNewline c)) a = true) (args ++ [last]) →
  Str.nonEmpty (Str.trim last) = true →
  parseFn (name +:+ "(" +:+ Str.join "," (args ++ [last]) +:+ ")")
  = Some (name, Str.trim <$> (args ++ [last])).
Proof.
  intros Hname Hident Hwhole Hline Hlast.
  rewrite parseFn_call; try done.
  - by rewrite splitArgs_join.
  - by apply nonEmpty_join_last, nonEmpty_trim.
  - by apply all_join.
Qed.

End FnFacts.

Module ColorFacts.
Import StrFacts.

(** of a color of more than six digits the first six count *)
Lemma hexToRgba_long_tail a b c d e f extra alpha :
  let six := String a (String b (String c (String d (String e (String f ""))))) in
  hexToRgba (String "#" (six +:+ extra)) alpha = hexToRgba (String "#" six) alpha.
Proof.
  intros six. unfold hexToRgba, six.
  rewrite !app_cons. change ("" +:+ extra) with extra.
  cbn [Str.removeFirst Ascii.eqb Bool.eqb].
  rewrite (decide_False (P := String.length (String a _) = 3))
    by (cbn [String.length]; lia).
  rewrite (decide_False (P := String.length (String a _) = 3))
    by (cbn [String.length]; lia).
  reflexivity.
Qed.

End ColorFacts.

(** ** Facts: programs written out as source text *)

Module SourceFacts.
Import Lexer LexerFacts StrFacts TokenFacts Parser ParserFacts ShapeFacts.

Lemma scan_blank rest : scan 0 false (String " " rest) = scan 0 false rest.
Proof. reflexivity. Qed.

Lemma scan_LBRACE rest : scan 0 false (String "{" rest) = LBRACE :: scan 0 false rest.
Proof. reflexivity. Qed.

Lemma scan_RBRACE rest : scan 0 false (String "}" rest) = RBRACE :: scan 0 false rest.
Proof. reflexivity. Qed.

Lemma scan_LF ac rest : scan 0 ac (String LF rest) = NEWLINE :: scan 0 false rest.
Proof. reflexivity. Qed.

Lemma scan_at_word c rest :
  isIdentStart c = true →
  scan 0 false (String c rest) =
  (let word := Str.takeWhile isIdentChar (String c rest) in
   (if isKeyword word then KEYWORD word else IDENT word)
   :: scan (String.length word - 1) false rest).
Proof.
  destruct c as [[] [] [] [] [] [] [] []]; intros Hc; try discriminate Hc; reflexivity.
Qed.

(** a word, and after it a character that is not of a word *)
Lemma scan_word_then w d rest :
  match w with
  | String c r => isIdentStart c && Str.all isIdentChar r
  | "" => false
  end = true →
  isIdentChar d = false →
  scan 0 false (w +:+ String d rest) =
  (if isKeyword w then KEYWORD w else IDENT w) :: scan 0 false (String d rest).
Proof.
  destruct w as [|c r]; [done|]. intros [Hc Hr]%andb_true_iff Hd.
  rewrite app_cons, scan_at_word by done. cbv zeta.
  assert (Str.takeWhile isIdentChar (String c (r +:+ String d rest)) = String c r) as ->.
  { rewrite <-app_cons. apply takeWhile_all; [|done].
    simpl. by rewrite (isIdentStart_char _ Hc). }
  f_equal.
  replace (String.length (String c r) - 1) with (String.length r)
    by (cbn [String.length]; lia).
  apply scan_skip.
Qed.

Lemma readValue_cons_plain c r :
  isNewline c = false → (c = "/"%char → ∀ r', r ≠ String "/" r') →
  readValue (String c r) = String c (readValue r).
Proof.
  intros Hc Hslash. cbn [readValue]. rewrite Hc.
  destruct (decide (c = "/"%char)) as [->|Hne].
  - destruct r as [|d r']; [done|].
    destruct (decide (d = "/"%char)) as [->|Hd]; [by destruct (Hslash eq_refl r')|].
    destruct d as [[] [] [] [] [] [] [] []]; done.
  - destruct c as [[] [] [] [] [] [] [] []]; done.
Qed.

Lemma hasComment_cons c v :
  hasComment (String c v) = false →
  hasComment v = false ∧ (c = "/"%char → ∀ r, v ≠ String "/" r).
Proof.
  destruct v as [|d v]; [done|].
  destruct (decide (c = "/"%char)) as [->|Hc].
  - destruct (decide (d = "/"%char)) as [->|Hd]; [done|].
    intros Hcom. split; [|by intros _ r [= ]].
    revert Hcom. destruct d as [[] [] [] [] [] [] [] []]; done.
  - intros Hcom. split; [|done].
    revert Hcom. destruct c as [[] [] [] [] [] [] [] []]; done.
Qed.

(** a value that a line break ends *)
Lemma readValue_line_end v rest :
  Str.all (λ c, negb (isNewline c)) v = true → hasComment v = false →
  readValue (v +:+ String LF rest) = v.
Proof.
  induction v as [|c v IH]; intros Hline Hcom; [done|].
  rewrite app_cons. cbn [Str.all] in Hline. apply andb_true_iff in Hline as [Hc Hline].
  apply negb_true_iff in Hc. apply hasComment_cons in Hcom as [Hv Hslash].
  rewrite readValue_cons_plain; [by rewrite IH|done|].
  intros -> r Heq. destruct v as [|d v]; [discriminate Heq|].
  rewrite app_cons in Heq. injection Heq as -> _. by eapply (Hslash eq_refl).
Qed.


Lemma app_nil_l s : "" +:+ s = s.
Proof. reflexivity. Qed.

Local Ltac strings := rewrite ?app_assoc, ?app_cons, ?app_nil_l.

Lemma isBlank_isSpace c : isBlank c = true → isSpace c = true.
Proof.
  unfold isBlank. intros [Hc|Hc]%orb_true_iff; apply Ascii.eqb_eq in Hc as ->; done.
Qed.

Lemma isName_word w :
  isName w = true →
  match w with
  | String c r => isIdentStart c && Str.all isIdentChar r
  | "" => false
  end = true ∧ isKeyword w = false.
Proof.
  unfold isName. intros [Hw Hk]%andb_true_iff. by apply negb_true_iff in Hk.
Qed.

Lemma scan_name w d rest :
  isName w = true → isIdentChar d = false →
  scan 0 false (w +:+ String d rest) = IDENT w :: scan 0 false (String d rest).
Proof.
  intros [Hw Hk]%isName_word Hd. rewrite scan_word_then by done. by rewrite Hk.
Qed.

Lemma isValue_inv v :
  isValue v = true →
  (∃ c r, v = String c r ∧ isBlank c = false)
  ∧ Str.all (λ c, negb (isNewline c)) v = true
  ∧ hasComment v = false
  ∧ Str.trimRight v = v
  ∧ Str.trim v = v.
Proof.
  unfold isValue. intros [[[Hhead Hline]%andb_true_iff Hcom]%andb_true_iff Htrim]%andb_true_iff.
  apply negb_true_iff in Hcom. apply String.eqb_eq in Htrim.
  destruct v as [|c r]; [done|]. apply negb_true_iff in Hhead.
  split; [|split; [done|split; [done|split; [done|]]]].
  - exists c, r. split; [done|]. destruct (isBlank c) eqn:Hb; [|done].
    apply isBlank_isSpace in Hb. congruence.
  - unfold Str.trim. by rewrite trimLeft_head.
Qed.

(** a colon and the value of a line *)
Lemma scan_value_line v rest :
  isValue v = true →
  scan 0 false (String ":" (String " " (v +:+ String LF rest)))
  = COLON :: VALUE v :: NEWLINE :: scan 0 false rest.
Proof.
  intros ((c & r & -> & Hc) & Hline & Hcom & Htrim & _)%isValue_inv.
  strings. rewrite scan_colon. f_equal.
  assert (Str.drop
            (String.length
               (Str.takeWhile isBlank (String " " (String c (r +:+ String LF rest)))))
            (String " " (String c (r +:+ String LF rest)))
          = String c r +:+ String LF rest) as Hdrop.
  { rewrite drop_takeWhile. simpl. by rewrite Hc. }
  assert (String.length
            (Str.takeWhile isBlank (String " " (String c (r +:+ String LF rest)))) = 1)
    as Hblanks.
  { simpl. by rewrite Hc. }
  rewrite (scan_value " " _ (String.length (String c r))).
  - rewrite Hdrop, readValue_line_end, Htrim by done. cbn [Str.nonEmpty app].
    f_equal. rewrite <-app_cons, scan_skip. apply scan_LF.
  - done.
  - rewrite Hdrop, Hblanks, readValue_line_end by done. done.
Qed.

Lemma scan_property p rest :
  isName (key p) = true → isValue (value p) = true →
  scan 0 false (printProperty p +:+ rest) = propertyTokens p ++ scan 0 false rest.
Proof.
  intros Hk Hv. unfold printProperty, propertyTokens. strings.
  rewrite !scan_blank. rewrite scan_name by done.
  cbn [app]. f_equal.
  by rewrite scan_value_line.
Qed.

Lemma scan_properties ps rest :
  Forall (λ p, isName (key p) = true ∧ isValue (value p) = true) ps →
  scan 0 false (printAll printProperty ps +:+ rest)
  = flat_map propertyTokens ps ++ scan 0 false rest.
Proof.
  induction 1 as [|p ps [Hk Hv] _ IH]; [done|].
  cbn [printAll foldr flat_map]. fold (printAll printProperty ps).
  rewrite app_assoc, scan_property, IH by done. by rewrite <-List.app_assoc.
Qed.


Lemma scan_header kw name body :
  kw = "surface" ∨ kw = "material" →
  isName name = true →
  scan 0 false (kw +:+ String " " (name +:+ String " " (String "{" (String LF body))))
  = KEYWORD kw :: IDENT name :: LBRACE :: NEWLINE :: scan 0 false body.
Proof.
  intros Hkw Hname.
  rewrite scan_word_then by (by destruct Hkw as [->| ->]).
  assert (isKeyword kw = true) as -> by (by destruct Hkw as [->| ->]).
  rewrite scan_blank, scan_name by done.
  by rewrite scan_blank, scan_LBRACE, scan_LF.
Qed.

Lemma scan_string content rest :
  Str.all (λ c, negb (Ascii.eqb c DQUOTE)) content = true →
  scan 0 false (String DQUOTE (content +:+ String DQUOTE rest))
  = STRING content :: scan 0 false rest.
Proof.
  intros Hcontent.
  change (scan 0 false (String DQUOTE (content +:+ String DQUOTE rest)))
    with (let str := Str.takeWhile (λ c, negb (Ascii.eqb c DQUOTE))
                       (content +:+ String DQUOTE rest) in
          STRING str :: scan (S (String.length str)) false (content +:+ String DQUOTE rest)).
  cbv zeta. rewrite takeWhile_all by done. f_equal.
  replace (S (String.length content)) with (String.length (content +:+ String DQUOTE ""))
    by (rewrite length_app; simpl; lia).
  replace (content +:+ String DQUOTE rest) with ((content +:+ String DQUOTE "") +:+ rest)
    by (by rewrite app_assoc).
  apply scan_skip.
Qed.

Lemma scan_text_header content body :
  Str.all (λ c, negb (Ascii.eqb c DQUOTE)) content = true →
  scan 0 false ("text" +:+ String " " (String DQUOTE
                  (content +:+ String DQUOTE (String " " (String "{" (String LF body))))))
  = KEYWORD "text" :: STRING content :: LBRACE :: NEWLINE :: scan 0 false body.
Proof.
  intros Hcontent. rewrite scan_word_then by done. cbn [isKeyword].
  assert (isKeyword "text" = true) as -> by done.
  rewrite scan_blank, scan_string by done.
  by rewrite scan_blank, scan_LBRACE, scan_LF.
Qed.

Lemma scan_footer rest :
  scan 0 false (String "}" (String LF rest)) = RBRACE :: NEWLINE :: scan 0 false rest.
Proof. reflexivity. Qed.

Lemma writable_properties top node :
  writable top node = true →
  Forall (λ p, isName (key p) = true ∧ isValue (value p) = true) (properties node).
Proof.
  destruct node as [n ps cs|n ps|n ps]; cbn [writable properties];
    intros [Hps _]%andb_true_iff;
    apply Forall_forall; intros p Hp%list_elem_of_In;
    apply (proj1 (forallb_forall _ _) Hps) in Hp; by apply andb_true_iff in Hp.
Qed.

Lemma scan_nodes children rest :
  Forall (λ child, ∀ rest, writable false child = true →
            scan 0 false (printNode child +:+ rest)
            = nodeTokens child ++ scan 0 false rest) children →
  forallb (writable false) children = true →
  scan 0 false (printAll printNode children +:+ rest)
  = flat_map nodeTokens children ++ scan 0 false rest.
Proof.
  induction 1 as [|child children Hchild _ IH]; [done|].
  cbn [forallb]. intros [Hw Hws]%andb_true_iff.
  cbn [printAll foldr flat_map]. fold (printAll printNode children).
  rewrite app_assoc, Hchild, IH by done. by rewrite <-List.app_assoc.
Qed.

Local Ltac normal := repeat (rewrite app_assoc || rewrite app_cons || rewrite app_nil_l).

Lemma printNode_Surface name ps cs rest :
  printNode (Surface name ps cs) +:+ rest =
  "surface" +:+ String " " (name +:+ String " " (String "{" (String LF
    (printAll printProperty ps +:+ printAll printNode cs +:+ String "}" (String LF rest))))).
Proof. cbn [printNode]. normal. reflexivity. Qed.

Lemma printNode_Material name ps rest :
  printNode (Material name ps) +:+ rest =
  "material" +:+ String " " (name +:+ String " " (String "{" (String LF
    (printAll printProperty ps +:+ String "}" (String LF rest))))).
Proof. cbn [printNode]. normal. reflexivity. Qed.

Lemma printNode_Text content ps rest :
  printNode (Text content ps) +:+ rest =
  "text" +:+ String " " (String DQUOTE (content +:+ String DQUOTE
    (String " " (String "{" (String LF
      (printAll printProperty ps +:+ String "}" (String LF rest))))))).
Proof. cbn [printNode]. unfold Str.quote. normal. reflexivity. Qed.

(** the tokens of a node that was written out *)
Lemma scan_node node : ∀ top rest,
  writable top node = true →
  scan 0 false (printNode node +:+ rest) = nodeTokens node ++ scan 0 false rest.
Proof.
  induction node as [name ps children IH|name ps|content ps] using Node_ind_children;
    intros top rest Hw; pose proof (writable_properties _ _ Hw) as Hps;
    cbn [writable properties] in Hw, Hps;
    apply andb_true_iff in Hw as [_ Hw]; apply andb_true_iff in Hw as [Hn Hcs].
  - rewrite printNode_Surface. cbn [nodeTokens].
    rewrite scan_header by (done || by left).
    rewrite scan_properties by done.
    assert (Forall (λ child, ∀ rest, writable false child = true →
              scan 0 false (printNode child +:+ rest)
              = nodeTokens child ++ scan 0 false rest) children) as Hchildren.
    { apply Forall_forall. intros child Hin rest' Hw'.
      by apply (proj1 (Forall_forall _ _) IH child Hin false). }
    rewrite (scan_nodes children _ Hchildren Hcs).
    rewrite scan_footer. cbn [app]. by rewrite <-!List.app_assoc.
  - rewrite printNode_Material. cbn [nodeTokens].
    rewrite scan_header by (done || by right).
    rewrite scan_properties by done.
    rewrite scan_footer. cbn [app]. by rewrite <-!List.app_assoc.
  - rewrite printNode_Text. cbn [nodeTokens].
    rewrite scan_text_header by done.
    rewrite scan_properties by done.
    rewrite scan_footer. cbn [app]. by rewrite <-!List.app_assoc.
Qed.

Lemma scan_program body rest :
  Forall (λ node, writable true node = true) body →
  scan 0 false (printAll printNode body +:+ rest)
  = flat_map nodeTokens body ++ scan 0 false rest.
Proof.
  induction 1 as [|node body Hnode _ IH]; [done|].
  cbn [printAll foldr flat_map]. fold (printAll printNode body).
  rewrite app_assoc, (scan_node node true), IH by done. by rewrite <-List.app_assoc.
Qed.

Lemma tokenize_printProgram body :
  Forall (λ node, writable true node = true) body →
  tokenize (printProgram body) = programTokens body.
Proof.
  intros Hbody. unfold tokenize, printProgram, programTokens.
  rewrite <-(app_nil_r (printAll printNode body)). by rewrite scan_program.
Qed.

Lemma isValue_trimmed p : isValue (value p) = true → trimmed p = true.
Proof.
  intros (_ & _ & _ & _ & Htrim)%isValue_inv. unfold trimmed. by apply String.eqb_eq.
Qed.

Lemma writable_wellFormed node : ∀ top, writable top node = true → wellFormed top node = true.
Proof.
  induction node as [name ps children IH|name ps|content ps] using Node_ind_children;
    intros top Hw; pose proof (writable_properties _ _ Hw) as Hps;
    cbn [writable wellFormed properties] in *;
    apply andb_true_iff in Hw as [_ Hw];
    (apply andb_true_iff; split;
     [apply forallb_forall; intros p Hp%list_elem_of_In;
      apply isValue_trimmed; by apply (proj1 (Forall_forall _ _) Hps p Hp)|]).
  - apply andb_true_iff in Hw as [_ Hcs].
    apply forallb_forall. intros child Hin.
    apply (proj1 (Forall_forall _ _) IH child (proj2 (list_elem_of_In _ _) Hin)).
    by apply (proj1 (forallb_forall _ _) Hcs).
  - by apply andb_true_iff in Hw as [? _].
  - by apply andb_true_iff in Hw as [? _].
Qed.

(** the source text of a program parses to the program, when the call
    stack has room for the nesting of its surfaces *)
Lemma parse_printProgram depth body :
  Forall (λ node, writable true node = true) body →
  parse depth (tokenize (printProgram body))
  = if forallb (λ n, nesting n <=? depth) body then Ok body else Throw RangeError.
Proof.
  intros Hbody. rewrite tokenize_printProgram by done.
  apply parse_written. eapply Forall_impl; [exact Hbody|].
  intros node. apply writable_wellFormed.
Qed.

End SourceFacts.

Import TokenFacts ShapeFacts ErrorFacts EscapeFacts FnFacts ColorFacts SourceFacts.

(** ** Further properties of the code *)

(** *** The tokenizer *)

(** X1. The tokens of any source text end with one EOF token, and hold no
    other EOF. *)
Theorem X1_tokens_end_with_EOF (src : string) :
  ∃ ts, tokenize src = ts ++ [EOF] ∧ EOF ∉ ts.
Proof. apply scan_EOF. Qed.

(** X2. A word token of a source text is a letter or underscore followed by
    letters, digits, underscores and hyphens; it is a KEYWORD when the table
    [KEYWORDS] has a truthy entry for it, own or inherited, and an IDENT
    otherwise. *)
Theorem X2_word_tokens (src w : string) (tok : Token) :
  tok ∈ tokenize src → tok = IDENT w ∨ tok = KEYWORD w →
  (∃ c r, w = String c r ∧ isIdentStart c = true ∧ Str.all isIdentChar r = true)
  ∧ (isKeyword w = true ↔ tok = KEYWORD w).
Proof.
  intros Hin Htok. destruct (scan_word src 0 false tok w Hin Htok) as [Hshape Hkw].
  split; [done|]. rewrite Hkw. apply bool_decide_eq_true.
Qed.

Lemma X2_word_tokens_witness :
  (∃ c r, "card" = String c r ∧ isIdentStart c = true ∧ Str.all isIdentChar r = true)
  ∧ (isKeyword "card" = true ↔ IDENT "card" = KEYWORD "card").
Proof.
  apply (X2_word_tokens "surface card {" "card" (IDENT "card")).
  - apply (bool_decide_unpack _). vm_compute. reflexivity.
  - left. reflexivity.
Defined.

(** X3. The text of a VALUE token is not empty, has no line break, does not
    end with white space, does not start with a space or a tab, and holds no
    [//]: a value stops where a comment starts, also inside a URL. *)
Theorem X3_value_tokens (src v : string) :
  VALUE v ∈ tokenize src →
  Str.nonEmpty v = true
  ∧ Str.all (λ c, negb (isNewline c)) v = true
  ∧ Str.trimRight v = v
  ∧ (∀ c r, v = String c r → isBlank c = false)
  ∧ (∀ a b, v ≠ a +:+ "//" +:+ b).
Proof. apply scan_value_text. Qed.

Lemma X3_value_tokens_witness :
  Str.nonEmpty "url(http:" = true
  ∧ Str.all (λ c, negb (isNewline c)) "url(http:" = true
  ∧ Str.trimRight "url(http:" = "url(http:"
  ∧ (∀ c r, "url(http:" = String c r → isBlank c = false)
  ∧ (∀ a b, "url(http:" ≠ a +:+ "//" +:+ b).
Proof.
  apply (X3_value_tokens "background: url(http://a.b/c.png)" "url(http:").
  apply (bool_decide_unpack _). vm_compute. reflexivity.
Defined.

(** X4. A VALUE token comes directly after a COLON token. *)
Theorem X4_value_follows_colon (src v : string) (pre post : list Token) :
  tokenize src = pre ++ VALUE v :: post → ∃ pre', pre = pre' ++ [COLON].
Proof.
  intros Heq. by apply scan_value_after_colon in Heq as [[_ ?]|?].
Qed.

Lemma X4_value_follows_colon_witness :
  ∃ pre', [IDENT "width"; COLON] = pre' ++ [COLON].
Proof.
  apply (X4_value_follows_colon "width: 10px" "10px" [IDENT "width"; COLON] [EOF]).
  vm_compute. reflexivity.
Defined.

(** X5. Where the tokenizer starts a token, in either mode, the text from
    [//] up to the next line feed, or to the end of the source, gives no
    token; a carriage return does not end the comment. *)
Theorem X5_line_comment (ac : bool) (c rest : string) :
  Str.all (λ d, negb (Ascii.eqb d LF)) c = true →
  rest = "" ∨ (∃ r, rest = String LF r) →
  Lexer.scan 0 ac ("//" +:+ c +:+ rest) = Lexer.scan 0 false rest.
Proof. apply scan_line_comment. Qed.

Lemma X5_line_comment_witness :
  Lexer.scan 0 true ("//" +:+ String CR " a: 1" +:+ "") = Lexer.scan 0 false "".
Proof.
  apply (X5_line_comment true (String CR " a: 1") "").
  - vm_compute. reflexivity.
  - left. reflexivity.
Defined.

(** X6. A block comment gives no token: the text from [/*] to the first
    [*/] after it is passed over, and a comment that is not closed takes the
    rest of the source. *)
Theorem X6_block_comment (c : string) :
  (∀ a b, c ≠ a +:+ "*/" +:+ b) →
  (∀ rest, tokenize ("/*" +:+ c +:+ "*/" +:+ rest) = tokenize rest)
  ∧ tokenize ("/*" +:+ c) = [EOF].
Proof.
  intros Hc. split; [|by apply scan_block_comment_open].
  intros rest. by apply scan_block_comment.
Qed.

Lemma X6_block_comment_witness :
  (∀ rest, tokenize ("/*" +:+ " a * b " +:+ "*/" +:+ rest) = tokenize rest)
  ∧ tokenize ("/*" +:+ " a * b ") = [EOF].
Proof.
  apply (X6_block_comment " a * b ").
  intros a b Heq.
  repeat (destruct a as [|? a]; [discriminate Heq|injection Heq as <- Heq]).
  by destruct a.
Defined.

(** *** The parser *)

(** X7. What [parse] returns is well formed: surfaces and materials at the
    top, only surfaces and text nodes inside a surface, and no property value
    with white space at either end. *)
Theorem X7_parse_well_formed (depth : nat) (tokens : list Token) (body : list Node) :
  parse depth tokens = Ok body → Forall (λ node, wellFormed true node = true) body.
Proof. apply parse_wellFormed. Qed.

Lemma X7_parse_well_formed_witness :
  Forall (λ node, wellFormed true node = true)
    [Surface "a" [mkProperty "width" "10px"] [Text "hi" []]].
Proof.
  apply (X7_parse_well_formed 0
           (tokenize ("surface a {" +:+ String LF "  width:   10px  " +:+ String LF
                      "  text " +:+ Str.quote "hi" +:+ String LF "}"))).
  vm_compute. reflexivity.
Defined.

(** X8. Every well-formed program is a result of [parse]: written out as
    tokens, a block for each node and a line for each property, it parses
    back to itself on a call stack with room for the nesting of its
    surfaces, one nested call of [parseSurface] for a level; on a call stack
    without that room [parse] throws the [RangeError] of the engine. *)
Theorem X8_parse_written (depth : nat) (body : list Node) :
  Forall (λ node, wellFormed true node = true) body →
  parse depth (programTokens body)
  = if forallb (λ node, nesting node <=? depth) body then Ok body
    else Throw RangeError.
Proof. apply parse_written. Qed.

Lemma X8_parse_written_witness :
  parse 1 (programTokens
           [Material "panel" [mkProperty "color" "#111827"];
            Surface "a" [mkProperty "use" "panel"]
              [Text "hi" [mkProperty "size" "12px"]; Surface "b" [] []]])
  = Ok [Material "panel" [mkProperty "color" "#111827"];
        Surface "a" [mkProperty "use" "panel"]
          [Text "hi" [mkProperty "size" "12px"]; Surface "b" [] []]].
Proof.
  apply (X8_parse_written 1
           [Material "panel" [mkProperty "color" "#111827"];
            Surface "a" [mkProperty "use" "panel"]
              [Text "hi" [mkProperty "size" "12px"]; Surface "b" [] []]]).
  repeat constructor.
Defined.

(** X9. A source text without the words [surface] and [material] is the
    empty program: what stands at the top and is no surface or material, a
    text node for one, is passed over. *)
Theorem X9_no_block_no_program (depth : nat) (src : string) :
  KEYWORD "surface" ∉ tokenize src → KEYWORD "material" ∉ tokenize src →
  parse depth (tokenize src) = Ok [].
Proof.
  intros Hs Hm. destruct (scan_EOF src 0 false) as (ts & Hts & Heof).
  unfold tokenize in *. rewrite Hts in *.
  apply parse_no_block; [done|..].
  - intros Hin. apply Hs. apply elem_of_app. by left.
  - intros Hin. apply Hm. apply elem_of_app. by left.
Qed.

Lemma X9_no_block_no_program_witness :
  parse 0 (tokenize ("text " +:+ Str.quote "hello" +:+ " { size: 12px }")) = Ok [].
Proof.
  apply (X9_no_block_no_program 0 ("text " +:+ Str.quote "hello" +:+ " { size: 12px }")).
  - apply (bool_decide_unpack _). vm_compute. reflexivity.
  - apply (bool_decide_unpack _). vm_compute. reflexivity.
Defined.

(** X10. What [parse] throws is a [TypeError], from a read beyond the last
    token; the [RangeError] of the engine, and that only when the tokens
    hold more [surface] keywords than the call stack has room for, the
    top-level call and [depth] nested ones; or the failure of an
    expectation: a [LumenError] whose message names the expected type, which
    is IDENT, STRING, LBRACE or RBRACE, and the type and text of a token of
    the input that is of another type. *)
Theorem X10_parse_errors (depth : nat) (tokens : list Token) (e : Err) :
  parse depth tokens = Throw e →
  e = TypeError ∨
  (e = RangeError ∧ S depth < surfaces tokens) ∨
  ∃ ty tok, ty ∈ [TT.IDENT; TT.STRING; TT.LBRACE; TT.RBRACE] ∧ tok ∈ tokens ∧
            type tok ≠ ty ∧ e = LumenError (Parser.expectMessage ty tok).
Proof. apply parse_raises. Qed.

Lemma X10_parse_errors_witness :
  (LumenError "Parse Error: Expected IDENT but got LBRACE" = TypeError ∨
   (LumenError "Parse Error: Expected IDENT but got LBRACE" = RangeError
    ∧ 1 < surfaces (tokenize "surface {")) ∨
   ∃ ty tok, ty ∈ [TT.IDENT; TT.STRING; TT.LBRACE; TT.RBRACE] ∧
             tok ∈ tokenize "surface {" ∧ type tok ≠ ty ∧
             LumenError "Parse Error: Expected IDENT but got LBRACE"
             = LumenError (Parser.expectMessage ty tok))
  ∧ (RangeError = TypeError ∨
     (RangeError = RangeError
      ∧ 1 < surfaces (tokenize "surface a { surface b { } }")) ∨
     ∃ ty tok, ty ∈ [TT.IDENT; TT.STRING; TT.LBRACE; TT.RBRACE] ∧
               tok ∈ tokenize "surface a { surface b { } }" ∧ type tok ≠ ty ∧
               RangeError = LumenError (Parser.expectMessage ty tok)).
Proof.
  split.
  - apply (X10_parse_errors 0 (tokenize "surface {")). vm_compute. reflexivity.
  - apply (X10_parse_errors 0 (tokenize "surface a { surface b { } }")).
    vm_compute. reflexivity.
Defined.

(** X11. Every property key of a program parsed from source text is the
    text of an IDENT token of it: no key is a reserved word or the name of a
    member of [Object.prototype]; so no [material:] line is a property. *)
Theorem X11_keys_are_names (depth : nat) (src : string) (body : list Node)
    (node : Node) (k : string) :
  parse depth (tokenize src) = Ok body → node ∈ body → hasKey k node →
  IDENT k ∈ tokenize src ∧ isKeyword k = false ∧ k ≠ "material".
Proof.
  intros Hparse Hnode Hk.
  assert (IDENT k ∈ tokenize src) as Hin by (by eapply KeyFacts.parse_keys).
  split; [done|].
  assert (isKeyword k = false) as Hkw by (by apply (LexerFacts.scan_IDENT 0 false src)).
  split; [done|]. by intros ->.
Qed.

Lemma X11_keys_are_names_witness :
  IDENT "width" ∈ tokenize ("surface a {" +:+ String LF "  width: 1px" +:+ String LF "}")
  ∧ isKeyword "width" = false ∧ "width" ≠ "material".
Proof.
  apply (X11_keys_are_names 0
           ("surface a {" +:+ String LF "  width: 1px" +:+ String LF "}")
           [Surface "a" [mkProperty "width" "1px"] []]
           (Surface "a" [mkProperty "width" "1px"] []) "width").
  - vm_compute. reflexivity.
  - apply elem_of_cons. by left.
  - apply (hasKey_here "width" _ (mkProperty "width" "1px")); [|reflexivity].
    apply elem_of_cons. by left.
Defined.

(** *** The compiler *)

(** X12. The css of a compilation is the rules of the elements of the
    program in document order, a surface before what is inside it, under
    consecutive identifiers from the counter; the counter moves on by their
    number. Each rule holds the declarations of its node. *)
Theorem X12_rules_in_document_order `{Host} (depth : nat) (ast : list Node)
    (c c' : N) (out : Output) :
  compile depth ast c = (Ok out, c') →
  ∃ decls,
    Forall2 (λ node css, declarations depth (materialTable ast) node = Ok css)
      (programElements ast) decls ∧
    outCss out = Str.join (String LF "") (chainRules c decls) ∧
    c' = (c + N.of_nat (length (programElements ast)))%N.
Proof.
  intros Hrun. apply compile_rules in Hrun as (decls & Hdecls & Hcss & ->).
  exists decls. split; [done|]. split; [done|].
  by rewrite (Forall2_length _ _ _ Hdecls).
Qed.

Lemma X12_rules_in_document_order_witness :
  ∃ decls,
    Forall2 (λ node css,
               declarations (H := exampleHost) 2
                 (materialTable [chain chainOuter chainInner]) node = Ok css)
      (programElements [chain chainOuter chainInner]) decls ∧
    Str.join (String LF "") (chainRules (H := exampleHost) 4 chainDeclarations)
    = Str.join (String LF "") (chainRules (H := exampleHost) 4 decls) ∧
    7%N = (4 + N.of_nat (length (programElements [chain chainOuter chainInner])))%N.
Proof.
  apply (X12_rules_in_document_order (H := exampleHost) 2
           [chain chainOuter chainInner] 4 7
           (mkOutput (Str.join (String LF "") (chainRules (H := exampleHost) 4 chainDeclarations))
                     (chainElements 4 ["a"; "b"; "c"]))).
  vm_compute. reflexivity.
Defined.

(** X13. The html of a compilation does not depend on the properties of the
    program or on its materials, and on the call stack only through the
    nesting of the surfaces: a program that compiles nests no deeper than
    the call stack has room, and on every call stack with room for that
    nesting the program without its properties compiles, from the same
    counter, to the same html and the same counter. *)
Theorem X13_markup_without_properties `{Host} (depth : nat) (ast : list Node)
    (c c' : N) (out : Output) :
  compile depth ast c = (Ok out, c') →
  Forall (λ node, nesting node ≤ depth) ast
  ∧ ∀ depth', Forall (λ node, nesting node ≤ depth') ast →
      ∃ out', compile depth' (map skeleton ast) c = (Ok out', c')
              ∧ outHtml out' = outHtml out.
Proof.
  intros Hrun. split; [by eapply compile_nesting|].
  intros depth' Hfit. by eapply compile_markup.
Qed.

Lemma X13_markup_without_properties_witness :
  ∃ out', compile (H := exampleHost) 0 (map skeleton panelProgram) 0 = (Ok out', 1%N)
          ∧ outHtml out' = surfaceOpen "lm1" "sidebar" +:+ "</div>".
Proof.
  destruct (X13_markup_without_properties (H := exampleHost) 1 panelProgram 0 1
              (mkOutput
                 (ruleBlock (H := exampleHost) "lm1"
                    (surfaceDefaults ++
                     [("width", VStr "260px"); ("background", VStr "#111827");
                      ("border-radius", VStr "10px"); ("padding", VStr "20px")]))
                 (surfaceOpen "lm1" "sidebar" +:+ "</div>")))
    as [_ Hskeleton].
  - vm_compute. reflexivity.
  - apply (Hskeleton 0). repeat constructor.
Defined.

(** X14. A program whose surfaces have no [use] and no [material] property,
    on themselves or on a node inside them, compiles whatever the
    materials, on a call stack with room for the nesting of its surfaces,
    one nested call of [compileSurface] for a level, and the counter moves
    on by the number of elements; on a call stack without that room
    [compile] throws the [RangeError] of the engine. Nothing else makes
    [compile] throw but a reference to a material. *)
Theorem X14_compile_without_references `{Host} (depth : nat) (ast : list Node) (c : N) :
  Forall (λ node, isSurface node = true →
            ¬ hasKey "use" node ∧ ¬ hasKey "material" node) ast →
  if forallb (λ node, nesting node <=? depth) ast
  then ∃ out, compile depth ast c
              = (Ok out, (c + N.of_nat (length (programElements ast)))%N)
  else ∃ c', compile depth ast c = (Throw RangeError, c').
Proof. apply compile_plain. Qed.

Lemma X14_compile_without_references_witness :
  ∃ out, compile (H := exampleHost) 0
           [Surface "a" [mkProperty "width" "10px"] [Text "hi" [mkProperty "size" "2em"]]] 4
         = (Ok out,
            (4 + N.of_nat (length (programElements
                 [Surface "a" [mkProperty "width" "10px"]
                    [Text "hi" [mkProperty "size" "2em"]]])))%N).
Proof.
  apply (X14_compile_without_references (H := exampleHost) 0
           [Surface "a" [mkProperty "width" "10px"] [Text "hi" [mkProperty "size" "2em"]]] 4).
  apply Forall_singleton. intros _.
  assert (∀ k, k ≠ "width" → k ≠ "size" →
            ¬ hasKey k (Surface "a" [mkProperty "width" "10px"]
                          [Text "hi" [mkProperty "size" "2em"]])) as Hno.
  { intros k Hw Hs Hk.
    apply hasKey_inv in Hk as [(p & Hp & Hkey)|(child & Hc & Hk)].
    - apply list_elem_of_singleton in Hp as ->. by apply Hw.
    - apply list_elem_of_singleton in Hc as ->.
      apply hasKey_inv in Hk as [(p & Hp & Hkey)|(child & Hc & Hk)].
      + apply list_elem_of_singleton in Hp as ->. by apply Hs.
      + by apply elem_of_nil in Hc. }
  split; by apply Hno.
Defined.

(** X15. A material may stand anywhere among the nodes that define no
    material of its name: moving it over them changes nothing of what
    [compile] returns. So a material can be defined after its use. *)
Theorem X15_material_position `{Host} (depth : nat) (pre mid post : list Node)
    (n : string) (ps : list Property) (c : N) :
  (∀ ps', Material n ps' ∉ mid) →
  compile depth (pre ++ Material n ps :: mid ++ post) c
  = compile depth (pre ++ mid ++ Material n ps :: post) c.
Proof. apply compile_material_move. Qed.

Lemma X15_material_position_witness :
  compile (H := exampleHost) 1
    ([] ++ Material "panel" [mkProperty "color" "#111827"]
        :: [Surface "a" [mkProperty "use" "panel"] []] ++ []) 0
  = compile (H := exampleHost) 1
      ([] ++ [Surface "a" [mkProperty "use" "panel"] []]
          ++ Material "panel" [mkProperty "color" "#111827"] :: []) 0.
Proof.
  apply (X15_material_position (H := exampleHost) 1 []
           [Surface "a" [mkProperty "use" "panel"] []] []
           "panel" [mkProperty "color" "#111827"] 0).
  intros ps' Hin. apply list_elem_of_singleton in Hin. discriminate.
Defined.

(** X16. When no declared key starts with a digit, the keys of a rule stand
    in the order of their first declaration: a further property of a
    surface leaves the keys declared so far in their places and appends the
    keys that are new; the defaults of a surface come first. The same holds
    for a text node. (A key that is an array index is listed before the
    others; the keys of a program parsed from source text are names, which
    start with a letter or an underscore.) *)
Theorem X16_declaration_order `{Host} (depth : nat) (m : MaterialMap)
    (ps : list Property) (p : Property) (css' : cssObject) :
  surfaceDeclarations depth m (ps ++ [p]) = Ok css' →
  Forall (λ k, startsWithDigit k = false) (Js.keys css') →
  Forall (λ k, startsWithDigit k = false) (Js.keys (textDeclarations (ps ++ [p]))) →
  (∃ css o, surfaceDeclarations depth m ps = Ok css ∧
     resolveSurfaceProp depth (key p) (value p) m = Ok o ∧
     Js.keys css' = Js.keys css ++ newKeys css o)
  ∧ (∃ rest, Js.keys css' = "box-sizing" :: "position" :: rest)
  ∧ Js.keys (textDeclarations (ps ++ [p]))
    = Js.keys (textDeclarations ps)
      ++ newKeys (textDeclarations ps) (resolveTextProp (key p) (value p))
  ∧ (∃ rest, Js.keys (textDeclarations (ps ++ [p])) = "box-sizing" :: "margin" :: rest).
Proof.
  intros Hrun _ _. split; [|split; [|split]].
  - apply surfaceDeclarations_keys in Hrun as (css & o & Hcss & Ho & _ & Hkeys).
    by exists css, o.
  - by eapply surfaceDeclarations_defaults.
  - apply textDeclarations_keys.
  - apply textDeclarations_defaults.
Qed.

Lemma X16_declaration_order_witness :
  Js.keys (surfaceDefaults ++ [("padding", VStr "8px"); ("padding-left", VStr "2px")])
  = ["box-sizing"; "position"; "padding"; "padding-left"].
Proof.
  destruct (X16_declaration_order (H := exampleHost) 0 emptyMaterialMap
              [mkProperty "padding" "4px"; mkProperty "padding-left" "2px"]
              (mkProperty "padding" "8px")
              (surfaceDefaults ++ [("padding", VStr "8px"); ("padding-left", VStr "2px")]))
    as [(css & o & Hcss & Ho & Hkeys) _].
  - vm_compute. reflexivity.
  - repeat constructor.
  - repeat constructor.
  - rewrite Hkeys. injection Hcss as <-. injection Ho as <-.
    vm_compute. reflexivity.
Defined.

(** X17. A reference into a cycle of references, a material that uses
    itself for one, resolves at no depth of the call stack: [use] and
    [material] of a name on the cycle throw, and so do the declarations of a
    surface with such a property. *)
Theorem X17_cyclic_reference `{Host} (m : MaterialMap) (cyclic : string → Prop)
    (depth : nat) (ps : list Property) (k a : string) :
  (∀ a, cyclic a → ∃ node k b,
     mmGet m a = Found node ∧ (k = "use" ∨ k = "material") ∧
     mkProperty k b ∈ properties node ∧ cyclic b) →
  cyclic a → k = "use" ∨ k = "material" →
  isOk (resolveSurfaceProp depth k a m) = false
  ∧ (mkProperty k a ∈ ps → isOk (surfaceDeclarations depth m ps) = false).
Proof.
  intros Hcyc Ha Hk. split; [by eapply resolveSurfaceProp_cyclic|].
  intros Hin. by eapply surfaceDeclarations_cyclic.
Qed.

Lemma X17_cyclic_reference_witness :
  isOk (resolveSurfaceProp (H := exampleHost) 5 "use" "a"
          (materialTable [Material "a" [mkProperty "color" "red"; mkProperty "use" "b"];
                          Material "b" [mkProperty "material" "a"]])) = false
  ∧ (mkProperty "use" "a" ∈ [mkProperty "use" "a"] →
     isOk (surfaceDeclarations (H := exampleHost) 5
             (materialTable [Material "a" [mkProperty "color" "red"; mkProperty "use" "b"];
                             Material "b" [mkProperty "material" "a"]])
             [mkProperty "use" "a"]) = false).
Proof.
  apply (X17_cyclic_reference (H := exampleHost) _ (λ x, x = "a" ∨ x = "b")).
  - intros x [->| ->].
    + eexists _, "use", "b". split; [vm_compute; reflexivity|].
      split; [by left|]. split; [|by right].
      apply elem_of_cons. right. apply elem_of_cons. by left.
    + eexists _, "material", "a". split; [vm_compute; reflexivity|].
      split; [by right|]. split; [|by left].
      apply elem_of_cons. by left.
  - by left.
  - by left.
Defined.

(** *** Values and text *)

(** X18. What [escapeHTML] returns holds no [<], no [>] and no double
    quote: the text of a text node and the name of a surface cannot end the
    element or the attribute they are written in. *)
Theorem X18_escapeHTML_safe (str : string) :
  Str.all (λ c, negb (Ascii.eqb c "<" || Ascii.eqb c ">" || Ascii.eqb c DQUOTE))
    (escapeHTML str) = true.
Proof. apply escapeHTML_safe. Qed.

(** X19. [escapeHTML] loses nothing: texts that differ are written
    differently. *)
Theorem X19_escapeHTML_injective (a b : string) :
  escapeHTML a = escapeHTML b → a = b.
Proof. apply escapeHTML_inj. Qed.

Lemma X19_escapeHTML_injective_witness : "a<b & c" = "a<b & c".
Proof. apply (X19_escapeHTML_injective "a<b & c" "a<b & c"). reflexivity. Defined.

(** X20. [parseFn] reads back a call that is written as a name, and
    between parentheses its arguments with commas between them: it returns
    the name and the arguments trimmed. An argument may hold commas inside
    parentheses; the last one is not blank. *)
Theorem X20_parseFn_written (name : string) (args : list string) (last : string) :
  Str.nonEmpty name = true → Str.all isIdentChar name = true →
  Forall (λ a, closes 0 a = Some 0%Z) (args ++ [last]) →
  Forall (λ a, Str.all (λ c, negb (isNewline c)) a = true) (args ++ [last]) →
  Str.nonEmpty (Str.trim last) = true →
  parseFn (name +:+ "(" +:+ Str.join "," (args ++ [last]) +:+ ")")
  = Some (name, Str.trim <$> (args ++ [last])).
Proof. apply parseFn_join. Qed.

Lemma X20_parseFn_written_witness :
  parseFn ("glass" +:+ "(" +:+ Str.join "," (["rgba(0, 0, 0, 0.5)"] ++ [" 0.3"]) +:+ ")")
  = Some ("glass", Str.trim <$> (["rgba(0, 0, 0, 0.5)"] ++ [" 0.3"])).
Proof.
  apply (X20_parseFn_written "glass" ["rgba(0, 0, 0, 0.5)"] " 0.3").
  - reflexivity.
  - reflexivity.
  - repeat constructor.
  - repeat constructor.
  - reflexivity.
Defined.

(** X21. Of a color of more than six digits [hexToRgba] reads the first
    six: the alpha digits of [#rrggbbaa] are lost. *)
Theorem X21_hexToRgba_long (a b c d e f : ascii) (extra alpha : string) :
  hexToRgba (String "#" (String a (String b (String c (String d (String e (String f extra)))))))
    alpha
  = hexToRgba (String "#" (String a (String b (String c (String d (String e (String f "")))))))
      alpha.
Proof. apply (hexToRgba_long_tail a b c d e f extra alpha). Qed.

(** *** From source text to css and html *)

(** X22. A program parsed from source text in which no surface has a [use]
    property, on itself or on a node inside it, compiles on a call stack
    with room for the nesting of its surfaces; on a call stack without that
    room [compile] throws the [RangeError] of the engine. From source text,
    [use] is the only property that can make [compile] throw. *)
Theorem X22_source_without_use `{Host} (depth depth' : nat) (src : string)
    (body : list Node) (c : N) :
  parse depth' (tokenize src) = Ok body →
  (∀ node, node ∈ body → isSurface node = true → ¬ hasKey "use" node) →
  if forallb (λ node, nesting node <=? depth) body
  then ∃ out, compile depth body c
              = (Ok out, (c + N.of_nat (length (programElements body)))%N)
  else ∃ c', compile depth body c = (Throw RangeError, c').
Proof.
  intros Hparse Huse. apply compile_plain. apply Forall_forall.
  intros node Hnode Hs. split; [by apply Huse|].
  intros Hk. by pose proof (source_keys _ _ _ _ _ Hparse Hnode Hk).
Qed.

Lemma X22_source_without_use_witness :
  ∃ out, compile (H := exampleHost) 0 [Surface "a" [mkProperty "width" "1px"] []] 0
         = (Ok out,
            (0 + N.of_nat (length (programElements
                                     [Surface "a" [mkProperty "width" "1px"] []])))%N).
Proof.
  apply (X22_source_without_use (H := exampleHost) 0 0
           ("surface a {" +:+ String LF "  width: 1px" +:+ String LF "}")
           [Surface "a" [mkProperty "width" "1px"] []]).
  - vm_compute. reflexivity.
  - intros node Hnode%list_elem_of_singleton _ Hk. subst node.
    apply hasKey_inv in Hk as [(p & Hp & Hkey)|(child & Hc & Hk)].
    + apply list_elem_of_singleton in Hp as ->. discriminate.
    + by apply elem_of_nil in Hc.
Defined.

(** X23. Every program of names and one-line values has a source text:
    written out with a block for each node and a line for each property, it
    is tokenized and parsed back to itself, on a call stack with room for
    the nesting of its surfaces; on a call stack without that room [parse]
    throws the [RangeError] of the engine. The names and keys are words that
    are not reserved, the values are not empty, are trimmed and have no line
    break and no [//], the texts have no double quote. *)
Theorem X23_source_round_trip (depth : nat) (body : list Node) :
  Forall (λ node, writable true node = true) body →
  parse depth (tokenize (printProgram body))
  = if forallb (λ node, nesting node <=? depth) body then Ok body
    else Throw RangeError.
Proof. apply parse_printProgram. Qed.

Lemma X23_source_round_trip_witness :
  parse 1 (tokenize (printProgram
           [Material "panel" [mkProperty "color" "#111827"];
            Surface "a" [mkProperty "use" "panel"; mkProperty "shadow" "0 4px 20px rgba(0,0,0,0.5)"]
              [Text "hi there" [mkProperty "size" "12px"]; Surface "b-2" [] []]]))
  = Ok [Material "panel" [mkProperty "color" "#111827"];
        Surface "a" [mkProperty "use" "panel"; mkProperty "shadow" "0 4px 20px rgba(0,0,0,0.5)"]
          [Text "hi there" [mkProperty "size" "12px"]; Surface "b-2" [] []]].
Proof.
  apply (X23_source_round_trip 1
           [Material "panel" [mkProperty "color" "#111827"];
            Surface "a" [mkProperty "use" "panel"; mkProperty "shadow" "0 4px 20px rgba(0,0,0,0.5)"]
              [Text "hi there" [mkProperty "size" "12px"]; Surface "b-2" [] []]]).
  repeat constructor.
Defined.
